(** * The Nexus Core: layered memory system

    A shallow embedding of [layered_memory_system.py]: the bounded
    short-term store ([ShortTermMemory]), the indexed long-term store
    ([LongTermMemory]) and the orchestrator ([LayeredMemorySystem]).

    Conventions of the embedding.
    - Python objects are shared by reference: a [MemoryItem] created by
      [ShortTermMemory.store] is the same object in the deque, in
      [item_map] and (once promoted) in the long-term [index].  Items
      therefore live in a heap and the containers hold locations.
    - [datetime.now()] is an input: every reading of the clock is a
      parameter, in microseconds (the resolution of [datetime]).
      [isoformat]/[fromisoformat] round-trip, so timestamps are kept as [Z].
    - A [float] is the rational number it denotes, a [Qc].  [dq] gives
      the binary64 number nearest to a decimal literal, and the sums,
      differences, products and quotients that the program stores or
      tests ([importance + 0.05], the decayed importance, the averages)
      are rounded to binary64, to nearest with ties to even ([fadd],
      [fsub], [fmul], [fdiv]).  Infinities and NaN are not values of
      the model.  Search scores, ages in hours and the utilization
      ratio are the exact rationals of their operands: they are only
      ordered and bounded.  The last section compares the rounding with
      the IEEE 754 operations of the Standard Library.
    - The 16 hexadecimal digits of the SHA-256 digest are a function
      [sha16] of the content and of the clock reading, kept abstract.
    - Strings are ASCII texts. *)

From Stdlib Require Import Ascii String QArith Qcanon Qround Qpower Lqa.
From Stdlib Require Import Floats.SpecFloat.
From stdpp Require Import gmap strings pretty list fin_maps numbers sorting.

Set Warnings "-clear-no-such-hyp".
Local Close Scope Qc_scope.
Local Close Scope Q_scope.
Local Open Scope Z_scope.
Local Open Scope nat_scope.

(** ** Numbers and time *)

(** *** Binary64

    Rounding of a rational to the nearest binary64 number: 53 significant
    bits, exponents down to that of the subnormal numbers, ties to the
    even significand. *)

(** Round to the nearest integer, ties to the even one. *)
Definition round_half_even (q : Q) : Z :=
  let f := Qfloor q in
  match (q - inject_Z f ?= 1 # 2)%Q with
  | Lt => f
  | Gt => (f + 1)%Z
  | Eq => if Z.even f then f else (f + 1)%Z
  end.

(** [floor (log2 q)] for [q > 0]. *)
Definition ilog2 (q : Q) : Z :=
  let k := (Z.log2 (Qnum q) - Z.log2 (Z.pos (Qden q)))%Z in
  if Qle_bool (2 ^ k) q then k else (k - 1)%Z.

(** The exponent of the unit in the last place at [q > 0]. *)
Definition ulp_exp (q : Q) : Z := Z.max (ilog2 q - 52) (-1074).

Definition round_pos (q : Q) : Q :=
  (inject_Z (round_half_even (q / 2 ^ ulp_exp q)) * 2 ^ ulp_exp q)%Q.

Definition round_b64 (q : Q) : Q :=
  match (q ?= 0)%Q with
  | Eq => 0%Q
  | Gt => round_pos q
  | Lt => (- round_pos (- q))%Q
  end.

Definition rnd (x : Qc) : Qc := Q2Qc (round_b64 x).

(** [x] is a binary64 number. *)
Definition is_b64 (x : Qc) : Prop := rnd x = x.

(** The operations of [float]. *)
Definition fadd (x y : Qc) : Qc := rnd (x + y)%Qc.
Definition fsub (x y : Qc) : Qc := rnd (x - y)%Qc.
Definition fmul (x y : Qc) : Qc := rnd (x * y)%Qc.
Definition fdiv (x y : Qc) : Qc := rnd (x / y)%Qc.

(** A decimal literal of the source, [dq 0.05%Q] for [0.05]. *)
Definition dq (q : Q) : Qc := rnd (Q2Qc q).

Definition Qc_of_Z (z : Z) : Qc := Q2Qc (inject_Z z).

Definition Qc_leb (x y : Qc) : bool := bool_decide (x ≤ y)%Qc.
Definition Qc_ltb (x y : Qc) : bool := bool_decide (x < y)%Qc.

(** Python's [min(a, b)]: [b] only when [b < a]. *)
Definition py_min (a b : Qc) : Qc := if Qc_ltb b a then b else a.

Definition US_PER_SECOND : Z := 1000000.
Definition US_PER_MINUTE : Z := 60 * US_PER_SECOND.
Definition US_PER_DAY : Z := 86400 * US_PER_SECOND.

(** [timedelta(minutes=m)] and [timedelta(days=d)], in microseconds. *)
Definition timedelta_minutes (m : Z) : Z := (m * US_PER_MINUTE)%Z.
Definition timedelta_days (d : Z) : Z := (d * US_PER_DAY)%Z.

(** [delta.days]: a normalised [timedelta] keeps the floor of the days. *)
Definition td_days (delta : Z) : Z := (delta `div` US_PER_DAY)%Z.

(** [delta.total_seconds()]. *)
Definition total_seconds (delta : Z) : Qc :=
  (Qc_of_Z delta / Qc_of_Z US_PER_SECOND)%Qc.

(** ** Python string operations used by the searches *)

Definition is_upper (c : ascii) : bool :=
  let n := nat_of_ascii c in (65 <=? n) && (n <=? 90).

Definition lower_ascii (c : ascii) : ascii :=
  if is_upper c then ascii_of_nat (nat_of_ascii c + 32) else c.

(** [s.lower()] *)
Fixpoint py_lower (s : string) : string :=
  match s with
  | EmptyString => EmptyString
  | String c s' => String (lower_ascii c) (py_lower s')
  end.

(** Whitespace of [str.split()]: TAB..CR, FS..US and the space. *)
Definition is_space (c : ascii) : bool :=
  let n := nat_of_ascii c in
  ((9 <=? n) && (n <=? 13)) || ((28 <=? n) && (n <=? 32)).

(** [s.split()]: maximal runs of characters that are not whitespace.
    [cur] is the word being read, reversed. *)
Fixpoint py_split_from (cur : list ascii) (s : string) : list string :=
  match s with
  | EmptyString =>
      match cur with
      | [] => []
      | _ => [string_of_list_ascii (rev cur)]
      end
  | String c s' =>
      if is_space c then
        match cur with
        | [] => py_split_from [] s'
        | _ => string_of_list_ascii (rev cur) :: py_split_from [] s'
        end
      else py_split_from (c :: cur) s'
  end.

Definition py_split (s : string) : list string := py_split_from [] s.

Fixpoint starts_with (pat s : string) : bool :=
  match pat, s with
  | EmptyString, _ => true
  | String _ _, EmptyString => false
  | String a pat', String b s' =>
      if decide (a = b) then starts_with pat' s' else false
  end.

(** [pat in s] *)
Fixpoint py_in (pat s : string) : bool :=
  starts_with pat s ||
  match s with
  | EmptyString => false
  | String _ s' => py_in pat s'
  end.

(** [s.count(pat)]: occurrences that do not overlap, scanning from the
    left; [skip] characters are still covered by the last occurrence. *)
Fixpoint py_count_from (pat : string) (skip : nat) (s : string) : nat :=
  let next (k : nat) :=
    match s with
    | EmptyString => 0
    | String _ s' => py_count_from pat k s'
    end in
  match skip with
  | S k => next k
  | O =>
      if starts_with pat s
      then S (next (pred (String.length pat)))
      else next 0
  end.

Definition py_count (s pat : string) : nat := py_count_from pat 0 s.

(** [l[:k]] for an integer [k] that may be negative. *)
Definition py_take {A} (k : Z) (l : list A) : list A :=
  if (0 <=? k)%Z then take (Z.to_nat k) l
  else take (Z.to_nat (Z.of_nat (length l) + k)) l.

(** [l.sort(key=..., reverse=True)]: stable, descending.  [gt x y] says
    that the key of [x] is strictly greater than the key of [y]. *)
Section sort_desc.
Context {A : Type} (gt : A → A → bool).

Fixpoint insert_desc (x : A) (l : list A) : list A :=
  match l with
  | [] => [x]
  | y :: l' => if gt y x then y :: insert_desc x l' else x :: l
  end.

Definition sort_desc (l : list A) : list A := foldr insert_desc [] l.
End sort_desc.

(** ** Results of operations that may raise *)

Inductive result (A : Type) : Type :=
  | Ok (a : A)
  | ZeroDivisionError.
Arguments Ok {A} a.
Arguments ZeroDivisionError {A}.

Global Instance result_ret : MRet result := λ A a, Ok a.
Global Instance result_bind : MBind result := λ A B k r,
  match r with
  | Ok a => k a
  | ZeroDivisionError => ZeroDivisionError
  end.

(** [a / b] for an integer count [a] and a length [b]. *)
Definition py_div (a b : nat) : result Qc :=
  if decide (b = 0) then ZeroDivisionError
  else Ok (Qc_of_Z (Z.of_nat a) / Qc_of_Z (Z.of_nat b))%Qc.

(** ** Data model *)

Record MemoryItem := mkMemoryItem {
  memory_id : string;
  content : string;
  memory_type : string;
  importance : Qc;
  access_count : Z;
  created_at : Z;
  last_accessed : Z;
  decay_rate : Qc;
  tags : list string;
  context : list (string * string);
}.

Record ConsolidationRule := mkConsolidationRule {
  min_access_count : Z;
  min_importance : Qc;
  min_age_hours : Qc;
  required_tags : option (list string);
}.

Global Instance MemoryItem_inhabited : Inhabited MemoryItem :=
  populate (mkMemoryItem "" "" "" (dq 0) 0 0 0 (dq 0) [] []).

(** ** The object heap *)

Abbreviation loc := nat.
Abbreviation Heap := (list MemoryItem).

(** Allocation of a fresh object. *)
Definition alloc (h : Heap) (it : MemoryItem) : Heap * loc :=
  (h ++ [it], length h).

(** Attribute assignments on the object at [l]. *)
Definition modify (h : Heap) (l : loc) (f : MemoryItem → MemoryItem) : Heap :=
  <[l := f (h !!! l)]> h.

Definition set_access (n : Z) (t : Z) (imp : Qc) (it : MemoryItem) : MemoryItem :=
  mkMemoryItem (memory_id it) (content it) (memory_type it) imp n
    (created_at it) t (decay_rate it) (tags it) (context it).

(** ** ShortTermMemory *)

Module ShortTermMemory.

(** [items] is the [deque(maxlen=max_capacity)], oldest first;
    [item_map] the side table from ids to the same objects. *)
Record t := mk {
  max_capacity : nat;
  retention_minutes : Z;
  items : list loc;
  item_map : gmap string loc;
}.

(** [__init__]; [deque(maxlen=n)] rejects a negative [n]. *)
Definition init (max_capacity : nat) (retention_minutes : Z) : t :=
  mk max_capacity retention_minutes [] ∅.

(** [deque.append] on a bounded deque: append on the right, then drop
    from the left while the length exceeds [maxlen]. *)
Definition deque_append (maxlen : nat) (d : list loc) (l : loc) : list loc :=
  let d' := d ++ [l] in
  if decide (maxlen < length d') then drop 1 d' else d'.

(** [_cleanup_expired]: the clock reading is [now]. *)
Definition expired (h : Heap) (m : t) (now : Z) (l : loc) : bool :=
  bool_decide (timedelta_minutes (retention_minutes m)
               < now - created_at (h !!! l))%Z.

Definition _cleanup_expired (h : Heap) (m : t) (now : Z) : t :=
  let expired_ids :=
    (filter (λ kv, expired h m now kv.2 = true) (map_to_list (item_map m))).*1 in
  mk (max_capacity m) (retention_minutes m) (items m)
     (foldl (λ im k, delete k im) (item_map m) expired_ids).

(** The four readings of the clock made by one [store]. *)
Record StoreClock := mkClock {
  t_id : Z;
  t_created : Z;
  t_accessed : Z;
  t_sweep : Z;
}.

Section with_hash.
Variable sha16 : string → Z → string.

Definition store (h : Heap) (m : t)
    (content : string) (memory_type : string) (importance : Qc)
    (tags : option (list string))
    (context : option (list (string * string)))
    (clk : StoreClock) : Heap * t * loc :=
  let memory_id := sha16 content (t_id clk) in
  let item :=
    mkMemoryItem memory_id content memory_type importance 1
      (t_created clk) (t_accessed clk) (dq 0.1)
      (default [] tags) (default [] context) in
  let '(h1, l) := alloc h item in
  let m1 :=
    mk (max_capacity m) (retention_minutes m)
       (deque_append (max_capacity m) (items m) l)
       (<[memory_id := l]> (item_map m)) in
  (h1, _cleanup_expired h1 m1 (t_sweep clk), l).
End with_hash.

Definition retrieve (h : Heap) (m : t) (memory_id : string) (now : Z)
    : Heap * option loc :=
  match item_map m !! memory_id with
  | Some l =>
      let it := h !!! l in
      (modify h l
         (set_access (access_count it + 1) now
            (py_min (dq 1.0) (fadd (importance it) (dq 0.05)))),
       Some l)
  | None => (h, None)
  end.

(** One iteration of the loop of [search]: the scored match, if any. *)
Definition score (h : Heap) (query_lower : string) (l : loc)
    : result (option (loc * Qc)) :=
  let it := h !!! l in
  if py_in query_lower (py_lower (content it)) then
    relevance ← py_div (py_count (py_lower (content it)) query_lower)
                       (length (py_split (content it)));
    mret (Some (l, (relevance * importance it)%Qc))
  else mret None.

Definition search (h : Heap) (m : t) (query : string) (top_k : Z)
    : result (list loc) :=
  let query_lower := py_lower query in
  scored ← mapM (score h query_lower) (items m);
  let matches := omap id scored in
  let sorted := sort_desc (λ x y, Qc_ltb y.2 x.2) matches in
  mret (py_take top_k sorted).*1.

Definition get_all (m : t) : list loc := items m.

Definition get_important_items (h : Heap) (m : t) (threshold : Qc) : list loc :=
  filter (λ l, Qc_leb threshold (importance (h !!! l)) = true) (items m).

(** [clear]: a cleared deque keeps its [maxlen]. *)
Definition clear (m : t) : t :=
  mk (max_capacity m) (retention_minutes m) [] ∅.

End ShortTermMemory.

(** ** LongTermMemory *)

Module LongTermMemory.

(** [index], [tag_index] and [type_index] are the three dictionaries of
    the class; [storage] is the directory [storage_path]: the record
    written in [<memory_id>.json], by file stem. *)
Record t := mk {
  index : gmap string loc;
  tag_index : gmap string (gset string);
  type_index : gmap string (gset string);
  storage : gmap string MemoryItem;
}.

(** [d.setdefault(k, set()).add(x)], written in the source as a test
    for the key followed by [d[k].add(x)]. *)
Definition bucket_add (k x : string) (d : gmap string (gset string))
    : gmap string (gset string) :=
  <[k := default ∅ (d !! k) ∪ {[x]}]> d.

(** [if k in d: d[k].discard(x)] *)
Definition bucket_discard (k x : string) (d : gmap string (gset string))
    : gmap string (gset string) :=
  alter (λ s, s ∖ {[x]}) k d.

(** The "Update indices" block shared by [_load_memories] and [store]. *)
Definition update_indices (it : MemoryItem) (m : t) : t :=
  mk (index m)
     (foldl (λ ti tag, bucket_add tag (memory_id it) ti) (tag_index m) (tags it))
     (bucket_add (memory_type it) (memory_id it) (type_index m))
     (storage m).

(** [_save_memory]: the write replaces the record of the id. *)
Definition _save_memory (it : MemoryItem) (m : t) : t :=
  mk (index m) (tag_index m) (type_index m)
     (<[memory_id it := it]> (storage m)).

(** One record read by [_load_memories]: a fresh object. *)
Definition load_one (hm : Heap * t) (it : MemoryItem) : Heap * t :=
  let '(h, m) := hm in
  let '(h1, l) := alloc h it in
  (h1, update_indices it
         (mk (<[memory_id it := l]> (index m)) (tag_index m) (type_index m)
             (storage m))).

Definition _load_memories (h : Heap) (m : t) : Heap * t :=
  foldl load_one (h, m) (map_to_list (storage m)).*2.

(** [__init__] over the readable records [files] of the directory. *)
Definition init (h : Heap) (files : gmap string MemoryItem) : Heap * t :=
  _load_memories h (mk ∅ ∅ ∅ files).

Definition store (h : Heap) (m : t) (l : loc) : t :=
  let it := h !!! l in
  update_indices it
    (_save_memory it
       (mk (<[memory_id it := l]> (index m)) (tag_index m) (type_index m)
           (storage m))).

Definition retrieve (h : Heap) (m : t) (memory_id : string) (now : Z)
    : Heap * t * option loc :=
  match index m !! memory_id with
  | Some l =>
      let it := h !!! l in
      let h1 := modify h l (set_access (access_count it + 1) now (importance it)) in
      (h1, _save_memory (h1 !!! l) m, Some l)
  | None => (h, m, None)
  end.

(** The candidate ids of [search], after the tag and type filters. *)
Definition candidates (m : t) (tags : option (list string))
    (memory_type : option string) : gset string :=
  let c0 := dom (index m) in
  let c1 :=
    match tags with
    | Some ((_ :: _) as ts) =>
        c0 ∩ foldl (λ acc tag, acc ∪ default ∅ (tag_index m !! tag)) ∅ ts
    | _ => c0
    end in
  match memory_type with
  | Some ((String _ _) as k) =>
      match type_index m !! k with
      | Some ids => c1 ∩ ids
      | None => c1
      end
  | _ => c1
  end.

Definition score (h : Heap) (query_lower : string) (l : loc)
    : result (option (loc * Qc)) :=
  let it := h !!! l in
  if py_in query_lower (py_lower (content it)) then
    relevance ← py_div (py_count (py_lower (content it)) query_lower)
                       (length (py_split (content it)));
    mret (Some (l, (relevance * importance it
                    * (1 + Qc_of_Z (access_count it) * dq 0.1))%Qc))
  else mret None.

(** The key [(importance, access_count)], compared as a tuple. *)
Definition key_gt (h : Heap) (x y : loc) : bool :=
  let a := h !!! x in
  let b := h !!! y in
  Qc_ltb (importance b) (importance a)
  || (bool_decide (importance a = importance b)
      && bool_decide (access_count b < access_count a)%Z).

Definition search (h : Heap) (m : t)
    (query : option string) (tags : option (list string))
    (memory_type : option string) (min_importance : Qc) (top_k : Z)
    : result (list loc) :=
  let cands := candidates m tags memory_type in
  let items := omap (λ mid, index m !! mid) (elements cands) in
  let items :=
    filter (λ l, Qc_leb min_importance (importance (h !!! l)) = true) items in
  match query with
  | Some ((String _ _) as q) =>
      let query_lower := py_lower q in
      scored ← mapM (score h query_lower) items;
      let scored_items := omap id scored in
      let sorted := sort_desc (λ x y, Qc_ltb y.2 x.2) scored_items in
      mret (py_take top_k sorted).*1
  | _ => mret (py_take top_k (sort_desc (key_gt h) items))
  end.

(** The condition of [prune] on one item; [age] is a [timedelta]. *)
Definition decayed_importance (it : MemoryItem) (age : Z) : Qc :=
  fmul (importance it)
    (fsub (dq 1)
       (fmul (decay_rate it) (fdiv (Qc_of_Z (td_days age)) (dq 365.0)))).

Definition prunable (h : Heap) (min_importance : Qc) (max_age_days : Z)
    (now : Z) (l : loc) : bool :=
  let it := h !!! l in
  let age := (now - created_at it)%Z in
  Qc_ltb (decayed_importance it age) min_importance
  || bool_decide (timedelta_days max_age_days < age)%Z.

(** One iteration of the removal loop of [prune]. *)
Definition remove_one (h : Heap) (m : t) (mid : string) : t :=
  match index m !! mid with
  | Some l =>
      let it := h !!! l in
      mk (delete mid (index m))
         (foldl (λ ti tag, bucket_discard tag mid ti) (tag_index m) (tags it))
         (bucket_discard (memory_type it) mid (type_index m))
         (delete mid (storage m))
  | None => m
  end.

Definition to_remove (h : Heap) (m : t) (min_importance : Qc)
    (max_age_days : Z) (now : Z) : list string :=
  (filter (λ kv, prunable h min_importance max_age_days now kv.2 = true)
     (map_to_list (index m))).*1.

Definition prune (h : Heap) (m : t) (min_importance : Qc)
    (max_age_days : Z) (now : Z) : t * nat :=
  let ids := to_remove h m min_importance max_age_days now in
  (foldl (remove_one h) m ids, length ids).

(** [sum(...)] over floats, from the integer 0, and over integers.  The
    floats are added from left to right and every partial sum is
    rounded (CPython up to 3.11; later versions carry a correction
    term, which gives the same result on the lists evaluated below). *)
Definition sum_Qc (xs : list Qc) : Qc := foldl fadd (dq 0) xs.
Definition sum_Z (xs : list Z) : Z := foldl Z.add 0%Z xs.

(** The dictionary returned by [get_statistics]: for an empty index it
    has the single key [total_memories]. *)
Inductive Statistics : Type :=
  | NoMemories
  | Stats (total_memories : nat) (avg_importance : Qc) (avg_access_count : Qc)
      (memory_types : gmap string nat) (top_tags : list (string * nat)).

(** [get_statistics].  Tags with the same count come in the order of
    the dictionary. *)
Definition get_statistics (h : Heap) (m : t) : Statistics :=
  if decide (index m = ∅) then NoMemories
  else
    let items := (map_to_list (index m)).*2 in
    let n := Qc_of_Z (Z.of_nat (length items)) in
    Stats (length items)
      (fdiv (sum_Qc ((λ l, importance (h !!! l)) <$> items)) n)
      (fdiv (Qc_of_Z (sum_Z ((λ l, access_count (h !!! l)) <$> items))) n)
      (size <$> type_index m)
      (take 10 (sort_desc (λ x y : string * nat, y.2 <? x.2)
                  (prod_map id size <$> map_to_list (tag_index m)))).

End LongTermMemory.

(** ** LayeredMemorySystem *)

Module LayeredMemorySystem.

Record t := mk {
  short_term : ShortTermMemory.t;
  long_term : LongTermMemory.t;
  consolidation_rules : list ConsolidationRule;
}.

Definition default_rules : list ConsolidationRule :=
  [ mkConsolidationRule 2 (dq 0.7) (dq 0.5) None;
    mkConsolidationRule 5 (dq 0.5) (dq 1.0) None ].

Definition init (h : Heap) (stm_capacity : nat) (stm_retention_minutes : Z)
    (files : gmap string MemoryItem) : Heap * t :=
  let '(h1, ltm) := LongTermMemory.init h files in
  (h1, mk (ShortTermMemory.init stm_capacity stm_retention_minutes) ltm
          default_rules).

Section with_hash.
Variable sha16 : string → Z → string.

Definition store (h : Heap) (s : t)
    (content : string) (memory_type : string) (importance : Qc)
    (tags : option (list string))
    (context : option (list (string * string)))
    (force_long_term : bool)
    (clk : ShortTermMemory.StoreClock) : Heap * t * loc :=
  let '(h1, stm1, l) :=
    ShortTermMemory.store sha16 h (short_term s)
      content memory_type importance tags context clk in
  let ltm1 :=
    if force_long_term || Qc_leb (dq 0.8) importance
    then LongTermMemory.store h1 (long_term s) l
    else long_term s in
  (h1, mk stm1 ltm1 (consolidation_rules s), l).
End with_hash.

(** [(current_time - created_time).total_seconds() / 3600] *)
Definition age_hours (now created : Z) : Qc :=
  (total_seconds (now - created) / dq 3600)%Qc.

(** The three numeric conditions of a rule. *)
Definition rule_applies (it : MemoryItem) (age : Qc) (r : ConsolidationRule)
    : bool :=
  bool_decide (min_access_count r ≤ access_count it)%Z
  && Qc_leb (min_importance r) (importance it)
  && Qc_leb (min_age_hours r) age.

(** [any(tag in item.tags for tag in rule.required_tags)], true when the
    rule has no required tags. *)
Definition has_required_tag (it : MemoryItem) (r : ConsolidationRule) : bool :=
  match required_tags r with
  | Some ((_ :: _) as ts) => existsb (λ tag, bool_decide (tag ∈ tags it)) ts
  | _ => true
  end.

(** The loop over the rules: whether it reaches the promotion step
    (and then breaks) for this item. *)
Fixpoint qualifies (it : MemoryItem) (age : Qc)
    (rules : list ConsolidationRule) : bool :=
  match rules with
  | [] => false
  | r :: rules' =>
      if rule_applies it age r then
        if has_required_tag it r then true else qualifies it age rules'
      else qualifies it age rules'
  end.

(** The body of the loop over the items of short-term memory. *)
Definition consolidate_one (h : Heap) (rules : list ConsolidationRule)
    (now : Z) (acc : LongTermMemory.t * nat) (l : loc)
    : LongTermMemory.t * nat :=
  let '(ltm, consolidated_count) := acc in
  let it := h !!! l in
  if qualifies it (age_hours now (created_at it)) rules then
    match LongTermMemory.index ltm !! memory_id it with
    | None => (LongTermMemory.store h ltm l, S consolidated_count)
    | Some _ => acc
    end
  else acc.

Record ConsolidationStats := mkStats {
  consolidated : nat;
  stm_count : nat;
  ltm_count : nat;
  timestamp : Z;
}.

Definition consolidate_memories (h : Heap) (s : t) (now : Z)
    : t * ConsolidationStats :=
  let '(ltm, n) :=
    foldl (consolidate_one h (consolidation_rules s) now)
          (long_term s, 0) (ShortTermMemory.get_all (short_term s)) in
  (mk (short_term s) ltm (consolidation_rules s),
   mkStats n (length (ShortTermMemory.get_all (short_term s)))
     (size (LongTermMemory.index ltm)) now).

(** The loop of [retrieve] that keeps the first item of each id. *)
Fixpoint unique_by_id (h : Heap) (seen_ids : gset string) (results : list loc)
    : list loc :=
  match results with
  | [] => []
  | l :: results' =>
      let mid := memory_id (h !!! l) in
      if decide (mid ∈ seen_ids) then unique_by_id h seen_ids results'
      else l :: unique_by_id h ({[mid]} ∪ seen_ids) results'
  end.

Definition retrieve (h : Heap) (s : t) (query : string) (search_both : bool)
    : result (list loc) :=
  stm_results ← ShortTermMemory.search h (short_term s) query 5;
  ltm_results ←
    (if search_both
     then LongTermMemory.search h (long_term s) (Some query) None None (dq 0.0) 5
     else mret []);
  let results := stm_results ++ ltm_results in
  let unique_results := unique_by_id h ∅ results in
  mret (sort_desc (LongTermMemory.key_gt h) unique_results).

Record ShortTermStatus := mkShortTermStatus {
  st_count : nat;
  st_capacity : nat;
  st_utilization : Qc;
  st_avg_importance : Qc;
}.

Record MemoryStatus := mkMemoryStatus {
  status_short_term : ShortTermStatus;
  status_long_term : LongTermMemory.Statistics;
  status_consolidation_rules : nat;
}.

Definition get_memory_status (h : Heap) (s : t) : result MemoryStatus :=
  let stm_items := ShortTermMemory.get_all (short_term s) in
  let ltm_stats := LongTermMemory.get_statistics h (long_term s) in
  utilization ←
    py_div (length stm_items) (ShortTermMemory.max_capacity (short_term s));
  let avg :=
    match stm_items with
    | [] => dq 0
    | _ =>
        fdiv (LongTermMemory.sum_Qc ((λ l, importance (h !!! l)) <$> stm_items))
          (Qc_of_Z (Z.of_nat (length stm_items)))
    end in
  mret (mkMemoryStatus
          (mkShortTermStatus (length stm_items)
             (ShortTermMemory.max_capacity (short_term s)) utilization avg)
          ltm_stats (length (consolidation_rules s))).

(** [auto_maintain]: the two clock readings are those of
    [consolidate_memories] and of [prune]. *)
Definition auto_maintain (h : Heap) (s : t) (t_consolidate t_prune : Z) : t :=
  let s1 := (consolidate_memories h s t_consolidate).1 in
  mk (short_term s1)
     (LongTermMemory.prune h (long_term s1) (dq 0.1) 365 t_prune).1
     (consolidation_rules s1).

End LayeredMemorySystem.

(** ** BrainLikeAI: the bookmarks

    The two methods of [brain_like_ai.py] that work on [self.memory]
    only; [memory] is that attribute. *)

Module BrainLikeAI.

Section with_hash.
Variable sha16 : string → Z → string.

Definition create_bookmark (h : Heap) (memory : LayeredMemorySystem.t)
    (content : string) (title : string) (tags : list string)
    (importance : Qc) (clk : ShortTermMemory.StoreClock)
    : Heap * LayeredMemorySystem.t * loc :=
  let tags := tags ++ ["bookmark"; title] in
  LayeredMemorySystem.store sha16 h memory content "semantic" importance
    (Some tags) (Some [("title", title); ("bookmarked", "True")]) true clk.
End with_hash.

Definition search_bookmarks (h : Heap) (memory : LayeredMemorySystem.t)
    (query : option string) (tags : option (list string))
    : result (list loc) :=
  let search_tags := ["bookmark"] ++ default [] tags in
  LongTermMemory.search h (LayeredMemorySystem.long_term memory)
    query (Some search_tags) None (dq 0.8) 20.

End BrainLikeAI.

(** * Vocabulary of the properties and worked scenarios *)

Import ShortTermMemory LongTermMemory LayeredMemorySystem.

(** A long-term memory created on an empty directory. *)
Definition fresh_ltm : LongTermMemory.t := (LongTermMemory.init [] ∅).2.

(** ** Sequences of calls to [ShortTermMemory.store] *)

Record StoreCall := mkCall {
  c_content : string;
  c_type : string;
  c_importance : Qc;
  c_tags : option (list string);
  c_context : option (list (string * string));
  c_clock : StoreClock;
}.

Section stm_runs.
Variable sha16 : string → Z → string.

(** The object built by one call. *)
Definition new_item (c : StoreCall) : MemoryItem :=
  mkMemoryItem (sha16 (c_content c) (t_id (c_clock c))) (c_content c)
    (c_type c) (c_importance c) 1 (t_created (c_clock c))
    (t_accessed (c_clock c)) (dq 0.1)
    (default [] (c_tags c)) (default [] (c_context c)).

Definition store_call (h : Heap) (m : ShortTermMemory.t) (c : StoreCall)
    : Heap * ShortTermMemory.t * loc :=
  ShortTermMemory.store sha16 h m (c_content c) (c_type c) (c_importance c)
    (c_tags c) (c_context c) (c_clock c).

Fixpoint store_all (h : Heap) (m : ShortTermMemory.t) (cs : list StoreCall)
    : Heap * ShortTermMemory.t * list loc :=
  match cs with
  | [] => (h, m, [])
  | c :: cs' =>
      let '(h1, m1, l) := store_call h m c in
      let '(h2, m2, ls) := store_all h1 m1 cs' in
      (h2, m2, l :: ls)
  end.
End stm_runs.

(** The last [n] elements of a list. *)
Definition keep_last {A} (n : nat) (l : list A) : list A :=
  drop (length l - n) l.

(** A stand-in for the digest in the worked examples: distinct pairs of
    content and clock reading get distinct ids. *)
Definition demo_sha16 (content : string) (t : Z) : string :=
  content +:+ "@" +:+ pretty t.

Definition demo_call (content : string) (imp : Q) (t : Z) : StoreCall :=
  mkCall content "episodic" (dq imp) None None (mkClock t t t t).

(** The example of the specification: capacity 3, store A, B, C, D. *)
Definition abcd : list StoreCall :=
  [ demo_call "A" 0.9 1; demo_call "B" 0.1 2;
    demo_call "C" 0.5 3; demo_call "D" 0.2 4 ].

(** Three calls in a row, at the clock readings [t1], [t2], [t3]. *)
Definition retrieve3 (h : Heap) (m : ShortTermMemory.t) (mid : string)
    (t1 t2 t3 : Z) : Heap :=
  let h1 := (ShortTermMemory.retrieve h m mid t1).1 in
  let h2 := (ShortTermMemory.retrieve h1 m mid t2).1 in
  (ShortTermMemory.retrieve h2 m mid t3).1.

(** A working memory holding one note of importance 0.90. *)
Definition note_call : StoreCall := demo_call "note" 0.90 1000.

Definition note_heap : Heap := [new_item demo_sha16 note_call].

Definition note_stm : ShortTermMemory.t :=
  (store_call demo_sha16 [] (ShortTermMemory.init 20 30) note_call).1.2.

(** ** Placement by [LayeredMemorySystem.store] *)

(** The long-term index holds the object [l] under some id. *)
Definition held_by (m : LongTermMemory.t) (l : loc) : Prop :=
  ∃ k, LongTermMemory.index m !! k = Some l.

(** Every object referenced by the long-term index is allocated. *)
Definition ltm_closed (h : Heap) (m : LongTermMemory.t) : Prop :=
  ∀ k l, LongTermMemory.index m !! k = Some l → l < length h.

(** ** The two searches *)

(** The test [query_lower in item.content.lower()] for the object [l]. *)
Definition matched (h : Heap) (query : string) (l : loc) : Prop :=
  py_in (py_lower query) (py_lower (content (h !!! l))) = true.

(** [len(item.content.split())] *)
Definition word_count (h : Heap) (l : loc) : nat :=
  length (py_split (content (h !!! l))).

(** The objects that reach the scoring loop of [LongTermMemory.search]. *)
Definition ltm_survivors (h : Heap) (m : LongTermMemory.t)
    (tgs : option (list string)) (kind : option string) (min_imp : Qc)
    : list loc :=
  filter (λ l, Qc_leb min_imp (importance (h !!! l)) = true)
    (omap (λ mid, LongTermMemory.index m !! mid)
       (elements (LongTermMemory.candidates m tgs kind))).

(** A working memory whose only item has the empty content. *)
Definition blank_call : StoreCall := demo_call "" 0.5 1000.

Definition blank_heap : Heap := [new_item demo_sha16 blank_call].

Definition blank_stm : ShortTermMemory.t :=
  (store_call demo_sha16 [] (ShortTermMemory.init 20 30) blank_call).1.2.

(** A long-term memory whose only item is one space. *)
Definition space_item : MemoryItem :=
  mkMemoryItem "s1" " " "episodic" (dq 0.5) 1 0 0 (dq 0.1) [] [].

Definition space_ltm : LongTermMemory.t :=
  LongTermMemory.store [space_item] fresh_ltm 0.

(** ** Buckets of the secondary indices *)

(** The id [x] is in the bucket of the key [k]. *)
Definition in_bucket (d : gmap string (gset string)) (k x : string) : Prop :=
  x ∈ default ∅ (d !! k).

(** The object indexed under [x] carries the tag [t] / has the type [k]. *)
Definition tagged (h : Heap) (m : LongTermMemory.t) (t x : string) : Prop :=
  ∃ l, index m !! x = Some l ∧ t ∈ tags (h !!! l).

Definition typed (h : Heap) (m : LongTermMemory.t) (k x : string) : Prop :=
  ∃ l, index m !! x = Some l ∧ memory_type (h !!! l) = k.

(** The item of the specification's example, created at time 0. *)
Definition old_item : MemoryItem :=
  mkMemoryItem "old" "an old memory" "episodic" (dq 0.2) 1 0 0 (dq 0.1)
    ["history"] [].

Definition old_ltm : LongTermMemory.t :=
  LongTermMemory.store [old_item] fresh_ltm 0.

Definition day400 : Z := timedelta_days 400.

(** An item of importance 0.584 seen 525 days after its creation: in
    real numbers its decayed importance would be 0.5. *)
Definition fade_item : MemoryItem :=
  mkMemoryItem "fade" "a fading memory" "episodic" (dq 0.584) 1 0 0 (dq 0.1)
    [] [].


Definition day525 : Z := timedelta_days 525.

(** Three items tagged [a], [b] and [a, b]. *)
Definition item_X : MemoryItem :=
  mkMemoryItem "X" "x" "semantic" (dq 0.5) 1 0 0 (dq 0.1) ["a"] [].

Definition item_Y : MemoryItem :=
  mkMemoryItem "Y" "y" "semantic" (dq 0.5) 1 0 0 (dq 0.1) ["b"] [].

Definition item_Z : MemoryItem :=
  mkMemoryItem "Z" "z" "semantic" (dq 0.5) 1 0 0 (dq 0.1) ["a"; "b"] [].

Definition xyz_heap : Heap := [item_X; item_Y; item_Z].

Definition xyz_ltm : LongTermMemory.t :=
  LongTermMemory.store xyz_heap
    (LongTermMemory.store xyz_heap (LongTermMemory.store xyz_heap fresh_ltm 0) 1)
    2.

(** A long-term memory whose only item is semantic. *)
Definition fact_item : MemoryItem :=
  mkMemoryItem "f1" "water boils at 100 degrees" "semantic" (dq 0.9) 1 0 0
    (dq 0.1) ["physics"] [].

Definition fact_ltm : LongTermMemory.t :=
  LongTermMemory.store [fact_item] fresh_ltm 0.

(** ** Consistency of the indices *)

(** Every id of a bucket is in the primary map, and the id of every
    stored item is in the bucket of each of its tags and of its type. *)
Definition index_consistent (h : Heap) (m : LongTermMemory.t) : Prop :=
  (∀ t x, in_bucket (tag_index m) t x → is_Some (index m !! x))
  ∧ (∀ k x, in_bucket (type_index m) k x → is_Some (index m !! x))
  ∧ (∀ x l, index m !! x = Some l →
       (∀ t, t ∈ tags (h !!! l) → in_bucket (tag_index m) t (memory_id (h !!! l)))
       ∧ in_bucket (type_index m) (memory_type (h !!! l)) (memory_id (h !!! l))).

(** The buckets hold an id for the tags and the type of the indexed
    object, and for no other key. *)
Definition index_exact (h : Heap) (m : LongTermMemory.t) : Prop :=
  (∀ x l, index m !! x = Some l → l < length h ∧ memory_id (h !!! l) = x)
  ∧ (∀ t x, in_bucket (tag_index m) t x ↔ tagged h m t x)
  ∧ (∀ k x, in_bucket (type_index m) k x ↔ typed h m k x).

(** [store] of the object [l] does not replace an item that has other
    tags or another type. *)
Definition no_retag (h : Heap) (m : LongTermMemory.t) (l : loc) : Prop :=
  ∀ l', index m !! memory_id (h !!! l) = Some l' →
    (∀ t, t ∈ tags (h !!! l') ↔ t ∈ tags (h !!! l))
    ∧ memory_type (h !!! l') = memory_type (h !!! l).

(** The records of the directory are those written by [_save_memory]:
    the file [<id>.json] holds the item of that id. *)
Definition saved_by_store (files : gmap string MemoryItem) : Prop :=
  ∀ stem it, files !! stem = Some it → memory_id it = stem.

(** The operations on a long-term memory and on the objects it shares:
    [store] of an allocated object, [retrieve], [prune], the creation of
    an object and the attribute assignments of the two [retrieve]s. *)
Inductive ltm_step (guard : Heap → LongTermMemory.t → loc → Prop)
    : Heap * LongTermMemory.t → Heap * LongTermMemory.t → Prop :=
  | step_store h m l :
      l < length h → guard h m l →
      ltm_step guard (h, m) (h, LongTermMemory.store h m l)
  | step_retrieve h m mid now :
      ltm_step guard (h, m) (LongTermMemory.retrieve h m mid now).1
  | step_prune h m min_imp max_age now :
      ltm_step guard (h, m) (h, (prune h m min_imp max_age now).1)
  | step_alloc h m it :
      ltm_step guard (h, m) (h ++ [it], m)
  | step_access h m l n t imp :
      ltm_step guard (h, m) (modify h l (set_access n t imp), m).

(** The states reached from a load of the directory. *)
Inductive ltm_reachable (guard : Heap → LongTermMemory.t → loc → Prop)
    (files_ok : gmap string MemoryItem → Prop)
    : Heap * LongTermMemory.t → Prop :=
  | reach_init h files :
      files_ok files → ltm_reachable guard files_ok (LongTermMemory.init h files)
  | reach_step s s' :
      ltm_reachable guard files_ok s → ltm_step guard s s' →
      ltm_reachable guard files_ok s'.

Definition any_store : Heap → LongTermMemory.t → loc → Prop := λ _ _ _, True.

Definition any_files : gmap string MemoryItem → Prop := λ _, True.

(** The same id stored twice with different tags, then pruned. *)
Definition retag_1 : MemoryItem :=
  mkMemoryItem "m" "draft" "episodic" (dq 0.05) 1 0 0 (dq 0.1) ["a"] [].

Definition retag_2 : MemoryItem :=
  mkMemoryItem "m" "draft" "episodic" (dq 0.05) 1 0 0 (dq 0.1) ["b"] [].

Definition retag_heap : Heap := [retag_1; retag_2].

Definition retag_ltm : LongTermMemory.t :=
  (prune retag_heap
     (LongTermMemory.store retag_heap
        (LongTermMemory.store [retag_1] fresh_ltm 0) 1)
     (dq 0.1) 365 0).1.

(** Objects keep their id, tags and type; the heap only grows. *)
Definition heap_extends (h h' : Heap) : Prop :=
  length h ≤ length h'
  ∧ ∀ l, l < length h →
      memory_id (h' !!! l) = memory_id (h !!! l)
      ∧ tags (h' !!! l) = tags (h !!! l)
      ∧ memory_type (h' !!! l) = memory_type (h !!! l).

(** The items that the loop over the rules sends to promotion at [now]. *)
Definition promotable (h : Heap) (rules : list ConsolidationRule) (now : Z)
    (l : loc) : Prop :=
  qualifies (h !!! l) (age_hours now (created_at (h !!! l))) rules = true.

(** A system holding one idea of importance 0.7 stored at time 0 and
    retrieved once: its access count is 2 and its importance 0.75. *)
Definition idea_clock : StoreClock := mkClock 0 0 0 0.

Definition idea_stored : Heap * LayeredMemorySystem.t * loc :=
  let '(h0, s0) := LayeredMemorySystem.init [] 20 30 ∅ in
  LayeredMemorySystem.store demo_sha16 h0 s0 "idea" "episodic" (dq 0.7)
    None None false idea_clock.

Definition idea_sys : LayeredMemorySystem.t := idea_stored.1.2.

Definition idea_heap : Heap :=
  (ShortTermMemory.retrieve idea_stored.1.1 (short_term idea_sys) "idea@0"
     US_PER_SECOND).1.

(** 24 and 30 minutes after the creation of the idea. *)
Definition minute24 : Z := timedelta_minutes 24.

Definition minute30 : Z := timedelta_minutes 30.

(** ** Further scenarios *)

(** A system created with the defaults on an empty directory. *)
Definition demo_sys : LayeredMemorySystem.t :=
  (LayeredMemorySystem.init [] 20 30 ∅).2.

(** A full working memory of capacity 3 holding A, B and C. *)
Definition abc_state : Heap * ShortTermMemory.t * list loc :=
  store_all demo_sha16 [] (ShortTermMemory.init 3 30)
    [ demo_call "A" 0.9 1; demo_call "B" 0.1 2; demo_call "C" 0.5 3 ].

Definition abc_heap : Heap := abc_state.1.1.

Definition abc_stm : ShortTermMemory.t := abc_state.1.2.

Definition call_D : StoreCall := demo_call "D" 0.2 4.

(** X, Y and Z stored one after the other, then a prune. *)
Definition xyz_pruned : LongTermMemory.t :=
  (prune xyz_heap xyz_ltm (dq 0.1) 365 day400).1.

(** ** The binary64 operations of the Standard Library

    The operations of IEEE 754 binary64, the format of a Python
    [float], as the Standard Library specifies them, to compare the
    rounding of the model with them.  A decimal literal with few digits
    is the correctly rounded quotient of two integers. *)

Definition b64_of_Z (n : Z) : spec_float := binary_normalize 53 1024 n 0 false.

(** The literal [n / 10^k]. *)
Definition b64_lit (n k : Z) : spec_float :=
  SFdiv 53 1024 (b64_of_Z n) (b64_of_Z (10 ^ k)).

Definition b64_min (a b : spec_float) : spec_float :=
  if SFltb b a then b else a.

(** [min(1.0, importance + 0.05)] *)
Definition b64_bump (imp : spec_float) : spec_float :=
  b64_min (b64_lit 10 1) (SFadd 53 1024 imp (b64_lit 5 2)).

(** The rational that a finite binary64 number denotes. *)
Definition b64_value (f : spec_float) : Qc :=
  match f with
  | S754_finite s m e =>
      Q2Qc ((if s then -1 else 1) * inject_Z (Z.pos m) * 2 ^ e)%Q
  | _ => Q2Qc 0
  end.

(** ** Vocabulary of the further properties *)

(** [n] calls of [ShortTermMemory.retrieve] for the same id, at the
    clock readings [ts]. *)
Fixpoint retrieve_all (h : Heap) (m : ShortTermMemory.t) (mid : string)
    (ts : list Z) : Heap :=
  match ts with
  | [] => h
  | t :: ts' => retrieve_all (ShortTermMemory.retrieve h m mid t).1 m mid ts'
  end.

(** The deque of a working memory respects its [maxlen]. *)
Definition stm_bounded (m : ShortTermMemory.t) : Prop :=
  length (items m) ≤ max_capacity m.

(** The score that [ShortTermMemory.search] gives to a matching object. *)
Definition stm_score (h : Heap) (query : string) (l : loc) : Qc :=
  (Qc_of_Z (Z.of_nat (py_count (py_lower (content (h !!! l))) (py_lower query)))
   / Qc_of_Z (Z.of_nat (word_count h l))
   * importance (h !!! l))%Qc.

(** The key [(importance, access_count)] of [a] is at least that of [b]. *)
Definition key_ge (h : Heap) (a b : loc) : Prop :=
  (importance (h !!! b) < importance (h !!! a))%Qc
  ∨ (importance (h !!! a) = importance (h !!! b)
     ∧ (access_count (h !!! b) ≤ access_count (h !!! a))%Z).

(** One update of the importance by [ShortTermMemory.retrieve]. *)
Definition bump (imp : Qc) : Qc := py_min (dq 1.0) (fadd imp (dq 0.05)).

(** A store whose sweep reads the clock one microsecond after the
    creation, into a working memory that retains nothing. *)
Definition late_call : StoreCall :=
  mkCall "late" "episodic" (dq 0.5) None None (mkClock 10 10 10 11).
Definition no_retention_stm : ShortTermMemory.t := ShortTermMemory.init 3 0.

(** ** Runs of the methods of [LayeredMemorySystem]

    The methods that change the system: [store] (also reached through
    [BrainLikeAI.create_bookmark]), [consolidate_memories] and
    [auto_maintain].  [retrieve] and [get_memory_status] only read. *)

Section lms_runs.
Variable sha16 : string → Z → string.

Inductive lms_step
    : Heap * LayeredMemorySystem.t → Heap * LayeredMemorySystem.t → Prop :=
  | lms_step_store h s text mtype imp tgs ctx force clk :
      lms_step (h, s)
        (LayeredMemorySystem.store sha16 h s text mtype imp tgs ctx force clk).1
  | lms_step_consolidate h s now :
      lms_step (h, s) (h, (consolidate_memories h s now).1)
  | lms_step_maintain h s t_consolidate t_prune :
      lms_step (h, s) (h, auto_maintain h s t_consolidate t_prune).

(** The states reached from the creation of the system. *)
Inductive lms_reachable : Heap * LayeredMemorySystem.t → Prop :=
  | lms_reach_init h stm_capacity stm_retention_minutes files :
      lms_reachable
        (LayeredMemorySystem.init h stm_capacity stm_retention_minutes files)
  | lms_reach_step s s' :
      lms_reachable s → lms_step s s' → lms_reachable s'.
End lms_runs.

(** Every item of working memory is allocated and was never accessed
    after its creation. *)
Definition stm_untouched (h : Heap) (m : ShortTermMemory.t) : Prop :=
  ∀ l, l ∈ items m → l < length h ∧ access_count (h !!! l) = 1%Z.

(** ** The directory and the objects in memory *)

(** The directory holds, for every indexed id, the current state of its
    object, and no other record. *)
Definition ltm_synced (h : Heap) (m : LongTermMemory.t) : Prop :=
  (∀ x l, index m !! x = Some l →
     l < length h ∧ memory_id (h !!! l) = x ∧ storage m !! x = Some (h !!! l))
  ∧ (∀ x, is_Some (storage m !! x) → is_Some (index m !! x)).

(** The operations of [LongTermMemory] itself and the creation of
    objects; no attribute is assigned from outside the class. *)
Inductive ltm_own_step
    : Heap * LongTermMemory.t → Heap * LongTermMemory.t → Prop :=
  | own_store h m l :
      l < length h → ltm_own_step (h, m) (h, LongTermMemory.store h m l)
  | own_retrieve h m mid now :
      ltm_own_step (h, m) (LongTermMemory.retrieve h m mid now).1
  | own_prune h m min_imp max_age now :
      ltm_own_step (h, m) (h, (prune h m min_imp max_age now).1)
  | own_alloc h m it :
      ltm_own_step (h, m) (h ++ [it], m).

Inductive ltm_own_reachable : Heap * LongTermMemory.t → Prop :=
  | own_init h files :
      saved_by_store files → ltm_own_reachable (LongTermMemory.init h files)
  | own_step s s' :
      ltm_own_reachable s → ltm_own_step s s' → ltm_own_reachable s'.

(** One important note stored through the layered system. *)
Definition memo_stored : Heap * LayeredMemorySystem.t * loc :=
  LayeredMemorySystem.store demo_sha16 [] demo_sys "memo" "semantic" (dq 0.9)
    None None false idea_clock.

Definition memo_heap : Heap := memo_stored.1.1.

Definition memo_sys : LayeredMemorySystem.t := memo_stored.1.2.

(** The score of [LongTermMemory.search] for a text query. *)
Definition ltm_score (h : Heap) (query : string) (l : loc) : Qc :=
  (Qc_of_Z (Z.of_nat (py_count (py_lower (content (h !!! l))) (py_lower query)))
   / Qc_of_Z (Z.of_nat (word_count h l)) * importance (h !!! l)
   * (1 + Qc_of_Z (access_count (h !!! l)) * dq 0.1))%Qc.

(** ** Bookmarks *)

(** The object built by [create_bookmark]. *)
Definition bookmark_item (sha16 : string → Z → string)
    (text title : string) (tgs : list string) (imp : Qc) (clk : StoreClock)
    : MemoryItem :=
  new_item sha16
    (mkCall text "semantic" imp (Some (tgs ++ ["bookmark"; title]))
       (Some [("title", title); ("bookmarked", "True")]) clk).

(** A bookmark created with the importance 0.75. *)
Definition faint_bookmark : Heap * LayeredMemorySystem.t * loc :=
  BrainLikeAI.create_bookmark demo_sha16 [] demo_sys "see page 4" "p4" []
    (dq 0.75) idea_clock.

(** A system holding a plain fact tagged [physics]. *)

Definition fact_sys : LayeredMemorySystem.t :=
  LayeredMemorySystem.mk (ShortTermMemory.init 20 30) fact_ltm default_rules.

(** A system whose long-term memory holds the old item. *)
Definition old_sys : LayeredMemorySystem.t :=
  LayeredMemorySystem.mk (ShortTermMemory.init 20 30) old_ltm default_rules.

(** ** Well-formed working memories *)

(** The ring buffer holds distinct allocated objects, and every id of
    the side table maps to an allocated object of that id. *)
Definition stm_wf (h : Heap) (m : ShortTermMemory.t) : Prop :=
  NoDup (items m)
  ∧ (∀ l, l ∈ items m → l < length h)
  ∧ (∀ mid l, item_map m !! mid = Some l →
       l < length h ∧ memory_id (h !!! l) = mid).

(** ** Statistics *)

(** Three items of importance 0.1. *)
Definition tenth (mid : string) : MemoryItem :=
  mkMemoryItem mid "a tenth" "episodic" (dq 0.1) 1 0 0 (dq 0.1) [] [].

Definition tenth_heap : Heap := [tenth "t1"; tenth "t2"; tenth "t3"].

Definition tenth_ltm : LongTermMemory.t :=
  LongTermMemory.store tenth_heap
    (LongTermMemory.store tenth_heap
       (LongTermMemory.store tenth_heap fresh_ltm 0) 1) 2.

(** A working memory holding one item of importance 0.35. *)
Definition dim_call : StoreCall := demo_call "dim" 0.35 1000.

Definition dim_heap : Heap := [new_item demo_sha16 dim_call].

Definition dim_stm : ShortTermMemory.t :=
  (store_call demo_sha16 [] (ShortTermMemory.init 20 30) dim_call).1.2.

(** * Properties *)

(** ** Rounding to binary64 is monotone *)

Lemma floor_bounds q :
  (inject_Z (Qfloor q) <= q)%Q ∧ (q < inject_Z (Qfloor q + 1))%Q.
Proof. split; [apply Qfloor_le|apply Qlt_floor]. Qed.

Lemma rhe_range q :
  (Qfloor q ≤ round_half_even q ≤ Qfloor q + 1)%Z.
Proof.
  unfold round_half_even. destruct (_ ?= _)%Q; [destruct (Z.even _)|..]; lia.
Qed.

Lemma rhe_inject n : round_half_even (inject_Z n) = n.
Proof.
  unfold round_half_even. rewrite Qfloor_Z.
  destruct (Qcompare_spec (inject_Z n - inject_Z n) (1 # 2)) as [H|H|H];
    [lra|done|lra].
Qed.

Lemma rhe_mono a b : (a <= b)%Q → (round_half_even a ≤ round_half_even b)%Z.
Proof.
  intros Hab.
  pose proof (Qfloor_resp_le _ _ Hab) as Hf.
  destruct (Z_lt_le_dec (Qfloor a) (Qfloor b)) as [Hlt|Hge].
  { pose proof (rhe_range a). pose proof (rhe_range b). lia. }
  assert (Heq : Qfloor a = Qfloor b) by lia.
  unfold round_half_even. rewrite <- Heq.
  set (f := Qfloor a) in *.
  destruct (Qcompare_spec (a - inject_Z f) (1 # 2)) as [Ha|Ha|Ha];
    destruct (Qcompare_spec (b - inject_Z f) (1 # 2)) as [Hb|Hb|Hb];
    try (destruct (Z.even f)); try lia; lra.
Qed.

Lemma rhe_ge n a : (inject_Z n <= a)%Q → (n ≤ round_half_even a)%Z.
Proof. intros H%rhe_mono. by rewrite rhe_inject in H. Qed.

Lemma rhe_le n a : (a <= inject_Z n)%Q → (round_half_even a ≤ n)%Z.
Proof. intros H%rhe_mono. by rewrite rhe_inject in H. Qed.

(** Powers of two. *)

Lemma pow2_pos e : (0 < 2 ^ e)%Q.
Proof. by apply Qpower_0_lt. Qed.

Lemma pow2_plus a b : (2 ^ (a + b) == 2 ^ a * 2 ^ b)%Q.
Proof. by apply Qpower_plus. Qed.

Lemma pow2_le a b : (a ≤ b)%Z → (2 ^ a <= 2 ^ b)%Q.
Proof. intros. by apply Qpower_le_compat_l. Qed.

Lemma pow2_lt_inv a b : (2 ^ a < 2 ^ b)%Q → (a < b)%Z.
Proof. intros. by apply (Qpower_lt_compat_l_inv 2). Qed.

Lemma pow2_Z n : (0 ≤ n)%Z → (2 ^ n == inject_Z (2 ^ n))%Q.
Proof. intros. by rewrite Zpower_Qpower. Qed.

Lemma ilog2_spec q :
  (0 < q)%Q → (2 ^ ilog2 q <= q)%Q ∧ (q < 2 ^ (ilog2 q + 1))%Q.
Proof.
  intros Hq. unfold ilog2.
  destruct q as [n d]. cbn [Qnum Qden].
  assert (Hn : (0 < n)%Z).
  { unfold Qlt in Hq. cbn in Hq. lia. }
  set (ln := Z.log2 n). set (ld := Z.log2 (Z.pos d)).
  destruct (Z.log2_spec n Hn) as [Hn1 Hn2]. fold ln in Hn1, Hn2.
  destruct (Z.log2_spec (Z.pos d)) as [Hd1 Hd2]; [lia|]. fold ld in Hd1, Hd2.
  assert (Hln : (0 ≤ ln)%Z) by apply Z.log2_nonneg.
  assert (Hld : (0 ≤ ld)%Z) by apply Z.log2_nonneg.
  assert (Hq' : (n # d == inject_Z n / inject_Z (Z.pos d))%Q)
    by apply Qmake_Qdiv.
  assert (Hdpos : (0 < inject_Z (Z.pos d))%Q).
  { change 0%Q with (inject_Z 0). rewrite <- Zlt_Qlt. lia. }
  assert (Hk : ∀ j, (2 ^ (ln - ld + j) == inject_Z (2 ^ ln) * 2 ^ j / inject_Z (2 ^ ld))%Q).
  { intros j. rewrite pow2_plus, Qpower_minus by done.
    rewrite !pow2_Z by done. field.
    intros H0. pose proof (pow2_pos ld) as Hp. rewrite pow2_Z in Hp by done. lra. }
  assert (Hpl : (0 < inject_Z (2 ^ ld))%Q).
  { rewrite <- pow2_Z by done. apply pow2_pos. }
  (* bounds: 2^(k-1) < q < 2^(k+1) *)
  assert (Hup : (n # d < 2 ^ (ln - ld + 1))%Q).
  { rewrite Hk, Hq'. change (2 ^ 1)%Q with 2%Q.
    apply Qlt_shift_div_l; [done|].
    unfold Qdiv. rewrite <- Qmult_assoc, (Qmult_comm (/ _)), Qmult_assoc.
    apply Qlt_shift_div_r; [done|].
    change 2%Q with (inject_Z 2). rewrite <- !inject_Z_mult, <- Zlt_Qlt.
    rewrite Z.pow_succ_r in Hn2 by done. nia. }
  assert (Hlow : (2 ^ (ln - ld + -1) < n # d)%Q).
  { rewrite Hk, Hq'. change (2 ^ (-1))%Q with (1 # 2)%Q.
    apply Qlt_shift_div_r; [done|].
    unfold Qdiv. rewrite <- Qmult_assoc, (Qmult_comm (/ _)), Qmult_assoc.
    apply Qlt_shift_div_l; [done|].
    assert (inject_Z (2 ^ ln) * inject_Z (Z.pos d) < 2 * (inject_Z n * inject_Z (2 ^ ld)))%Q; [|lra].
    change 2%Q with (inject_Z 2). rewrite <- !inject_Z_mult, <- Zlt_Qlt.
    rewrite Z.pow_succ_r in Hd2 by done. nia. }
  destruct (Qle_bool (2 ^ (ln - ld)) (n # d)) eqn:Hb.
  - apply Qle_bool_iff in Hb. done.
  - assert (Hlt : (n # d < 2 ^ (ln - ld))%Q).
    { apply Qnot_le_lt. intros H%Qle_bool_iff. congruence. }
    replace (ln - ld - 1 + 1)%Z with (ln - ld)%Z by lia.
    split; [|done]. apply Qlt_le_weak.
    by replace (ln - ld - 1)%Z with (ln - ld + -1)%Z by lia.
Qed.

Lemma ilog2_mono x y : (0 < x)%Q → (x <= y)%Q → (ilog2 x ≤ ilog2 y)%Z.
Proof.
  intros Hx Hxy.
  destruct (ilog2_spec x Hx) as [Hx1 _].
  destruct (ilog2_spec y) as [_ Hy2]; [lra|].
  assert (H : (2 ^ ilog2 x < 2 ^ (ilog2 y + 1))%Q) by lra.
  apply pow2_lt_inv in H. lia.
Qed.

Lemma scale_unscale m e : (inject_Z m * 2 ^ e / 2 ^ e == inject_Z m)%Q.
Proof. field. pose proof (pow2_pos e). lra. Qed.

Lemma round_pos_lower x :
  (0 < x)%Q → (-1074 < ulp_exp x)%Z → (2 ^ (ulp_exp x + 52) <= round_pos x)%Q.
Proof.
  intros Hx He. unfold round_pos.
  set (e := ulp_exp x) in *.
  assert (Hl : (e = ilog2 x - 52)%Z) by (unfold e, ulp_exp in *; lia).
  destruct (ilog2_spec x Hx) as [Hx1 _].
  rewrite pow2_plus, (Qmult_comm (2 ^ e)).
  apply Qmult_le_compat_r; [|apply Qlt_le_weak, pow2_pos].
  rewrite (pow2_Z 52) by lia. rewrite <- Zle_Qle. apply rhe_ge.
  rewrite <- (pow2_Z 52) by lia.
  apply Qle_shift_div_l; [apply pow2_pos|].
  rewrite <- pow2_plus. by replace (52 + e)%Z with (ilog2 x) by lia.
Qed.

Lemma round_pos_upper x :
  (0 < x)%Q → (round_pos x <= 2 ^ (ulp_exp x + 53))%Q.
Proof.
  intros Hx. unfold round_pos.
  set (e := ulp_exp x) in *.
  assert (Hl : (ilog2 x - 52 ≤ e)%Z) by (unfold e, ulp_exp; lia).
  destruct (ilog2_spec x Hx) as [_ Hx2].
  rewrite pow2_plus, (Qmult_comm (2 ^ e)).
  apply Qmult_le_compat_r; [|apply Qlt_le_weak, pow2_pos].
  rewrite (pow2_Z 53) by lia. rewrite <- Zle_Qle. apply rhe_le.
  rewrite <- (pow2_Z 53) by lia.
  apply Qle_shift_div_r; [apply pow2_pos|].
  rewrite <- pow2_plus. apply Qlt_le_weak.
  eapply Qlt_le_trans; [exact Hx2|]. apply pow2_le. lia.
Qed.

Lemma round_pos_nonneg x : (0 < x)%Q → (0 <= round_pos x)%Q.
Proof.
  intros Hx. unfold round_pos.
  apply Qmult_le_0_compat; [|apply Qlt_le_weak, pow2_pos].
  change 0%Q with (inject_Z 0). rewrite <- Zle_Qle. apply rhe_ge.
  change (inject_Z 0) with 0%Q.
  apply Qle_shift_div_l; [apply pow2_pos|]. lra.
Qed.

Lemma round_pos_mono x y :
  (0 < x)%Q → (x <= y)%Q → (round_pos x <= round_pos y)%Q.
Proof.
  intros Hx Hxy.
  assert (Hy : (0 < y)%Q) by lra.
  pose proof (ilog2_mono x y Hx Hxy) as Hl.
  destruct (Z_lt_le_dec (ulp_exp x) (ulp_exp y)) as [Hlt|Hge].
  - eapply Qle_trans; [apply (round_pos_upper x Hx)|].
    eapply Qle_trans; [|apply (round_pos_lower y Hy)].
    + apply pow2_le. lia.
    + unfold ulp_exp in *. lia.
  - assert (He : ulp_exp x = ulp_exp y) by (unfold ulp_exp in *; lia).
    unfold round_pos. rewrite He.
    apply Qmult_le_compat_r; [|apply Qlt_le_weak, pow2_pos].
    rewrite <- Zle_Qle. apply rhe_mono.
    apply Qmult_le_compat_r; [done|].
    apply Qlt_le_weak, Qinv_lt_0_compat, pow2_pos.
Qed.

Lemma round_b64_mono x y : (x <= y)%Q → (round_b64 x <= round_b64 y)%Q.
Proof.
  intros Hxy. unfold round_b64.
  destruct (Qcompare_spec x 0) as [Hx|Hx|Hx];
    destruct (Qcompare_spec y 0) as [Hy|Hy|Hy]; try lra.
  - by apply round_pos_nonneg.
  - pose proof (round_pos_nonneg (- x)). lra.
  - assert (round_pos (- y) <= round_pos (- x))%Q; [|lra].
    apply round_pos_mono; lra.
  - pose proof (round_pos_nonneg (- x)). pose proof (round_pos_nonneg y). lra.
  - by apply round_pos_mono.
Qed.

Lemma rnd_mono (x y : Qc) : (x ≤ y)%Qc → (rnd x ≤ rnd y)%Qc.
Proof.
  intros Hxy. unfold rnd, Qcle, Q2Qc. cbn [this].
  rewrite !Qred_correct. by apply round_b64_mono.
Qed.

(** ** The ring buffer of working memory *)

Lemma keep_last_length {A} n (l : list A) :
  length (keep_last n l) = min n (length l).
Proof. unfold keep_last. rewrite length_drop. lia. Qed.

Lemma keep_last_app {A} n (a b : list A) :
  keep_last n (keep_last n a ++ b) = keep_last n (a ++ b).
Proof.
  unfold keep_last.
  rewrite <- (drop_app_le a b (length a - n)) by lia.
  rewrite drop_drop. f_equal.
  rewrite length_drop, !length_app. lia.
Qed.

Lemma deque_append_keep_last n d l :
  length d ≤ n → deque_append n d l = keep_last n (d ++ [l]).
Proof.
  intros Hd. unfold deque_append, keep_last.
  rewrite length_app. simpl.
  case_decide as Hlt.
  - f_equal. lia.
  - replace (length d + 1 - n) with 0 by lia. done.
Qed.


Lemma store_call_spec sha16 h m c :
  ∃ im, store_call sha16 h m c =
    (h ++ [new_item sha16 c],
     ShortTermMemory.mk (max_capacity m) (retention_minutes m)
       (deque_append (max_capacity m) (items m) (length h)) im,
     length h).
Proof. unfold store_call, ShortTermMemory.store, _cleanup_expired. simpl. eauto. Qed.

Lemma store_all_spec sha16 cs : ∀ h m,
  length (items m) ≤ max_capacity m →
  ∃ m', store_all sha16 h m cs =
          (h ++ (new_item sha16 <$> cs), m', seq (length h) (length cs))
        ∧ max_capacity m' = max_capacity m
        ∧ items m' =
            keep_last (max_capacity m) (items m ++ seq (length h) (length cs)).
Proof.
  induction cs as [|c cs IH]; intros h m Hlen.
  - exists m. simpl. rewrite !app_nil_r. repeat split.
    unfold keep_last. by replace (length (items m) - max_capacity m) with 0 by lia.
  - cbn [store_all]. destruct (store_call_spec sha16 h m c) as [im ->].
    set (m1 := ShortTermMemory.mk _ _ _ im).
    destruct (IH (h ++ [new_item sha16 c]) m1) as (m' & -> & Hcap & Hit).
    { simpl. rewrite deque_append_keep_last by done.
      rewrite keep_last_length. lia. }
    exists m'. rewrite length_app in *. simpl in *.
    replace (length h + 1) with (S (length h)) in * by lia.
    rewrite <- app_assoc. simpl. repeat split; [done|].
    rewrite Hit, deque_append_keep_last by done.
    rewrite keep_last_app, <- app_assoc. done.
Qed.

(** C1. Storing [capacity + 1] items into a working memory of capacity
    [capacity] leaves exactly [capacity] items in the ring buffer: the
    first-stored object is absent and the other objects are there, in
    the order of insertion, whatever the importance of each item (the
    objects keep the content and the importance they were stored with). *)
Theorem C1_store_capacity_plus_one sha16 h m cs :
  length (items m) ≤ max_capacity m →
  length cs = S (max_capacity m) →
  ∃ h' m' l0 ls,
    store_all sha16 h m cs = (h', m', (l0 :: ls))
    ∧ get_all m' = ls
    ∧ length (get_all m') = max_capacity m
    ∧ (l0 ∉ get_all m')
    ∧ (∀ i c, cs !! i = Some c →
         ∃ l, (l0 :: ls) !! i = Some l
              ∧ content (h' !!! l) = c_content c
              ∧ importance (h' !!! l) = c_importance c).
Proof.
  intros Hinv Hcs.
  destruct (store_all_spec sha16 cs h m Hinv) as (m' & Hrun & _ & Hit).
  rewrite Hcs in Hrun, Hit. simpl in Hrun, Hit.
  assert (Hrest : items m' = seq (S (length h)) (max_capacity m)).
  { rewrite Hit. unfold keep_last. rewrite length_app. simpl.
    rewrite length_seq.
    replace (length (items m) + S (max_capacity m) - max_capacity m)
      with (length (items m) + 1) by lia.
    rewrite drop_app_add. done. }
  exists (h ++ (new_item sha16 <$> cs)), m', (length h),
    (seq (S (length h)) (max_capacity m)).
  unfold get_all. rewrite Hrest, length_seq. repeat split; [done|..].
  - rewrite elem_of_seq. lia.
  - intros i c Hi. exists (length h + i).
    assert (i < S (max_capacity m)) by (rewrite <- Hcs; by eapply lookup_lt_Some).
    split.
    + change (length h :: seq (S (length h)) (max_capacity m))
        with (seq (length h) (S (max_capacity m))).
      by apply lookup_seq_lt.
    + rewrite list_lookup_total_alt, lookup_app_r by lia.
      replace (length h + i - length h) with i by lia.
      rewrite list_lookup_fmap, Hi. done.
Qed.

Example store_abcd :
  let '(h, m, _) := store_all demo_sha16 [] (ShortTermMemory.init 3 30) abcd in
  (λ l, content (h !!! l)) <$> get_all m = ["B"; "C"; "D"].
Proof. vm_compute. reflexivity. Qed.

Lemma C1_witness :
  length (items (ShortTermMemory.init 3 30)) ≤ 3
  ∧ length abcd = 4
  ∧ ∃ h' m' l0 ls,
      store_all demo_sha16 [] (ShortTermMemory.init 3 30) abcd = (h', m', (l0 :: ls))
      ∧ get_all m' = ls
      ∧ length (get_all m') = 3
      ∧ (l0 ∉ get_all m')
      ∧ (∀ i c, abcd !! i = Some c →
           ∃ l, (l0 :: ls) !! i = Some l
                ∧ content (h' !!! l) = c_content c
                ∧ importance (h' !!! l) = c_importance c).
Proof.
  split; [simpl; lia|]. split; [reflexivity|].
  apply (C1_store_capacity_plus_one demo_sha16 [] (ShortTermMemory.init 3 30) abcd);
    [simpl; lia | reflexivity].
Defined.

(** ** Access semantics of [ShortTermMemory.retrieve] *)

Lemma py_min_spec a b :
  (py_min a b ≤ a)%Qc ∧ (py_min a b ≤ b)%Qc
  ∧ (py_min a b = a ∨ py_min a b = b).
Proof.
  unfold py_min, Qc_ltb. case_bool_decide as Hlt.
  - split; [by apply Qclt_le_weak|]. split; [apply Qcle_refl | by right].
  - split; [apply Qcle_refl|]. split; [by apply Qcnot_lt_le | by left].
Qed.

Lemma retrieve_hit h m mid now l it :
  item_map m !! mid = Some l →
  h !! l = Some it →
  ShortTermMemory.retrieve h m mid now =
    (<[l := set_access (access_count it + 1) now
              (py_min (dq 1.0) (fadd (importance it) (dq 0.05))) it]> h,
     Some l).
Proof.
  intros Hm Hl. unfold ShortTermMemory.retrieve, modify. rewrite Hm.
  by rewrite (list_lookup_total_correct _ _ _ Hl).
Qed.

Lemma importance_090_1 :
  py_min (dq 1.0) (fadd (dq 0.90) (dq 0.05)) = dq 0.9500000000000001.
Proof. apply Qc_is_canon. vm_compute. reflexivity. Qed.

Lemma importance_090_above : (dq 0.95 < dq 0.9500000000000001)%Qc.
Proof. by vm_compute. Qed.

Lemma importance_090_3 :
  py_min (dq 1.0)
    (fadd (py_min (dq 1.0)
             (fadd (py_min (dq 1.0) (fadd (dq 0.90) (dq 0.05))) (dq 0.05)))
       (dq 0.05)) = dq 1.0.
Proof. apply Qc_is_canon. vm_compute. reflexivity. Qed.

(** The statement C4 of the specification fails as it stands: one
    [retrieve] of an item of importance 0.90 leaves the binary64 sum of
    0.9 and 0.05, which is not 0.95. *)
Lemma C4_first_call_is_not_095 :
  item_map note_stm !! "note@1000" = Some 0
  ∧ importance (note_heap !!! 0) = dq 0.90
  ∧ importance
      ((ShortTermMemory.retrieve note_heap note_stm "note@1000" 2000).1 !!! 0)
    ≠ dq 0.95.
Proof.
  split; [vm_compute; reflexivity|]. split; [reflexivity|].
  intros Heq. apply (f_equal this) in Heq. vm_compute in Heq.
  discriminate Heq.
Qed.

(** C4, amended.  For an item found in the side table, [retrieve]
    returns it after adding exactly 1 to [access_count], setting
    [last_accessed] to the clock reading and replacing [importance] by
    the minimum of 1.0 and the binary64 sum [importance + 0.05];
    nothing else changes.  An item of importance 0.90 has importance
    0.9500000000000001, above 0.95, after one call and exactly 1.0
    after three. *)
Theorem C4_retrieve_access h m mid now l it :
  item_map m !! mid = Some l →
  h !! l = Some it →
  ∃ h' it',
    ShortTermMemory.retrieve h m mid now = (h', Some l)
    ∧ h' !! l = Some it'
    ∧ access_count it' = (access_count it + 1)%Z
    ∧ last_accessed it' = now
    ∧ importance it' = py_min (dq 1.0) (fadd (importance it) (dq 0.05))
    ∧ (importance it' ≤ dq 1.0)%Qc
    ∧ (memory_id it', content it', memory_type it', created_at it',
       decay_rate it', tags it', context it')
      = (memory_id it, content it, memory_type it, created_at it,
         decay_rate it, tags it, context it)
    ∧ (∀ l', l' ≠ l → h' !! l' = h !! l')
    ∧ (importance it = dq 0.90 →
       importance it' = dq 0.9500000000000001
       ∧ (dq 0.95 < importance it')%Qc
       ∧ ∀ t2 t3, importance (retrieve3 h m mid now t2 t3 !!! l) = dq 1.0).
Proof.
  intros Hm Hl. eexists _, _. split; [by apply retrieve_hit|].
  assert (Hlt : l < length h) by by eapply lookup_lt_Some.
  split; [by apply list_lookup_insert_eq|]. simpl.
  repeat split.
  - apply py_min_spec.
  - intros l' Hne. by apply list_lookup_insert_ne.
  - rewrite H. apply importance_090_1.
  - rewrite H, importance_090_1. apply importance_090_above.
  - intros t2 t3. unfold retrieve3. cbv zeta.
    rewrite (retrieve_hit h m mid now l it Hm Hl). cbn [fst].
    erewrite (retrieve_hit _ m mid t2 l) by (done || by apply list_lookup_insert_eq).
    cbn [fst].
    erewrite (retrieve_hit _ m mid t3 l);
      [|done|apply list_lookup_insert_eq; by rewrite length_insert].
    cbn [fst]. rewrite list_lookup_total_insert_eq by (by rewrite !length_insert).
    simpl. rewrite H. apply importance_090_3.
Qed.

Lemma C4_witness :
  item_map note_stm !! "note@1000" = Some 0
  ∧ note_heap !! 0 = Some (new_item demo_sha16 note_call)
  ∧ ∃ h' it',
      ShortTermMemory.retrieve note_heap note_stm "note@1000" 2000 = (h', Some 0)
      ∧ h' !! 0 = Some it'
      ∧ access_count it' = 2%Z
      ∧ last_accessed it' = 2000%Z
      ∧ importance it' = dq 0.9500000000000001
      ∧ ∀ t2 t3,
          importance (retrieve3 note_heap note_stm "note@1000" 2000 t2 t3 !!! 0)
          = dq 1.0.
Proof.
  assert (Hm : item_map note_stm !! "note@1000" = Some 0) by (vm_compute; reflexivity).
  assert (Hl : note_heap !! 0 = Some (new_item demo_sha16 note_call)) by reflexivity.
  split; [exact Hm|]. split; [exact Hl|].
  destruct (C4_retrieve_access note_heap note_stm "note@1000" 2000 0 _ Hm Hl)
    as (h' & it' & Hr & Hh & Hac & Hla & _ & _ & _ & _ & Himp).
  destruct (Himp eq_refl) as (H1 & _ & H3).
  exists h', it'. repeat split; assumption.
Defined.

(** ** Placement by [LayeredMemorySystem.store] *)

Lemma ltm_store_index h m l :
  LongTermMemory.index (LongTermMemory.store h m l)
  = <[memory_id (h !!! l) := l]> (LongTermMemory.index m).
Proof. done. Qed.

(** C5. [LayeredMemorySystem.store] always runs [ShortTermMemory.store]
    on the working memory, so that the created object is the newest
    element of the ring buffer (of positive capacity); it is stored in
    long-term memory in the same call exactly when [force_long_term] is
    set or [importance >= 0.8], and long-term memory is otherwise left
    as it was.  In particular 0.8 is mirrored and 0.79 is not. *)
Theorem C5_store_placement sha16 h s text mtype imp tgs ctx force clk :
  ∃ h' s' l,
    LayeredMemorySystem.store sha16 h s text mtype imp tgs ctx force clk
      = (h', s', l)
    ∧ ShortTermMemory.store sha16 h (LayeredMemorySystem.short_term s)
        text mtype imp tgs ctx clk
      = (h', LayeredMemorySystem.short_term s', l)
    ∧ (content (h' !!! l), importance (h' !!! l)) = (text, imp)
    ∧ (0 < max_capacity (LayeredMemorySystem.short_term s) →
       list.last (get_all (LayeredMemorySystem.short_term s')) = Some l)
    ∧ (force = true ∨ (dq 0.8 ≤ imp)%Qc →
       LayeredMemorySystem.long_term s'
       = LongTermMemory.store h' (LayeredMemorySystem.long_term s) l)
    ∧ (¬ (force = true ∨ (dq 0.8 ≤ imp)%Qc) →
       LayeredMemorySystem.long_term s' = LayeredMemorySystem.long_term s)
    ∧ (ltm_closed h (LayeredMemorySystem.long_term s) →
       held_by (LayeredMemorySystem.long_term s') l
       ↔ force = true ∨ (dq 0.8 ≤ imp)%Qc)
    ∧ (ltm_closed h (LayeredMemorySystem.long_term s) →
       force = false →
       (imp = dq 0.8 → held_by (LayeredMemorySystem.long_term s') l)
       ∧ (imp = dq 0.79 → ¬ held_by (LayeredMemorySystem.long_term s') l)).
Proof.
  unfold LayeredMemorySystem.store.
  destruct (ShortTermMemory.store sha16 h _ text mtype imp tgs ctx clk)
    as [[h' stm'] l] eqn:Hst.
  unfold ShortTermMemory.store, alloc in Hst. injection Hst as <- <- <-.
  set (it := mkMemoryItem _ _ _ _ _ _ _ _ _ _).
  assert (Hdec : force || Qc_leb (dq 0.8) imp = true
                 ↔ force = true ∨ (dq 0.8 ≤ imp)%Qc).
  { unfold Qc_leb. rewrite orb_true_iff, bool_decide_eq_true. done. }
  assert (Hiff : ltm_closed h (LayeredMemorySystem.long_term s) →
    held_by (if force || Qc_leb (dq 0.8) imp
             then LongTermMemory.store (h ++ [it])
                    (LayeredMemorySystem.long_term s) (length h)
             else LayeredMemorySystem.long_term s) (length h)
    ↔ force = true ∨ (dq 0.8 ≤ imp)%Qc).
  { intros Hcl. rewrite <- Hdec.
    destruct (force || Qc_leb (dq 0.8) imp).
    - split; [done|]. intros _. eexists. rewrite ltm_store_index.
      apply lookup_insert_eq.
    - split; [|done]. intros [k Hk]. apply Hcl in Hk. lia. }
  eexists _, _, _. split; [reflexivity|]. simpl.
  split; [reflexivity|].
  split; [by rewrite list_lookup_total_middle|].
  split.
  { intros Hcap. unfold get_all, deque_append. simpl. case_decide.
    - rewrite length_app in *. simpl in *.
      destruct (items (LayeredMemorySystem.short_term s)) as [|x d]; simpl in *.
      + lia.
      + by rewrite drop_0, last_snoc.
    - by rewrite last_snoc. }
  split. { intros Hc. apply Hdec in Hc. by rewrite Hc. }
  split. { intros Hc. rewrite <- Hdec in Hc. by destruct (force || _). }
  split; [exact Hiff|].
  intros Hcl ->. split.
  - intros ->. apply Hiff; [done|]. right. by vm_compute.
  - intros -> Hheld. apply Hiff in Hheld; [|done].
    destruct Hheld as [?|Hle]; [done|]. by vm_compute in Hle.
Qed.

(** ** The Python primitives on sample inputs *)

Example py_string_samples :
  py_lower "Neural NETworks" = "neural networks"
  ∧ py_split "  forward pass, backward  pass "
    = ["forward"; "pass,"; "backward"; "pass"]
  ∧ py_split "   " = []
  ∧ py_in "net" "neural networks" = true
  ∧ py_in "" "" = true
  ∧ py_in "x" "" = false
  ∧ py_count "aaaa" "aa" = 2
  ∧ py_count "abc" "" = 4
  ∧ py_count "a b a" "a" = 2.
Proof. repeat split. Qed.

Example py_list_samples :
  py_take 2 [1; 2; 3] = [1; 2]
  ∧ py_take (-1) [1; 2; 3] = [1; 2]
  ∧ py_take (-5) [1; 2; 3] = []
  ∧ sort_desc (λ x y : nat * nat, y.2 <? x.2) [(0, 1); (1, 3); (2, 1); (3, 3)]
    = [(1, 3); (3, 3); (0, 1); (2, 1)].
Proof. repeat split. Qed.

(** ** Sorting, slicing and the error monad *)

Lemma insert_desc_perm {A} (gt : A → A → bool) x l :
  insert_desc gt x l ≡ₚ x :: l.
Proof.
  induction l as [|y l IH]; simpl; [done|].
  destruct (gt y x); [|done].
  rewrite IH. apply Permutation_swap.
Qed.

Lemma sort_desc_perm {A} (gt : A → A → bool) l : sort_desc gt l ≡ₚ l.
Proof.
  induction l as [|x l IH]; simpl; [done|].
  by rewrite insert_desc_perm, IH.
Qed.

Lemma py_take_subseteq {A} k (l : list A) : py_take k l ⊆ l.
Proof. unfold py_take. destruct (0 <=? k)%Z; apply subseteq_take. Qed.

Lemma Forall2_elem_r {A B} (P : A → B → Prop) l k y :
  Forall2 P l k → y ∈ k → ∃ x, x ∈ l ∧ P x y.
Proof.
  induction 1 as [|x y' l k Hxy _ IH].
  - by intros ?%elem_of_nil.
  - intros [->|Hy]%elem_of_cons.
    + exists x. split; [by left|done].
    + destruct (IH Hy) as (x' & ? & ?). exists x'. split; [by right|done].
Qed.

Lemma py_take_all {A} k (l : list A) :
  (Z.of_nat (length l) ≤ k)%Z → py_take k l = l.
Proof.
  intros Hk. unfold py_take.
  rewrite (proj2 (Z.leb_le 0 k)) by lia.
  apply take_ge. lia.
Qed.

Lemma mapM_cons {A B} (f : A → result B) x l :
  mapM f (x :: l) =
    match f x with
    | Ok y => match mapM f l with
              | Ok ys => Ok (y :: ys)
              | ZeroDivisionError => ZeroDivisionError
              end
    | ZeroDivisionError => ZeroDivisionError
    end.
Proof. done. Qed.

Lemma mapM_Ok {A B} (f : A → result B) l ys :
  mapM f l = Ok ys ↔ Forall2 (λ x y, f x = Ok y) l ys.
Proof.
  revert ys. induction l as [|x l IH]; intros ys.
  - split.
    + intros [= <-]. constructor.
    + by inversion 1.
  - rewrite mapM_cons. split.
    + destruct (f x) as [y|] eqn:Hfx; [|done].
      destruct (mapM f l) as [ys'|] eqn:Hl; [|done].
      intros [= <-]. constructor; [done|]. by apply IH.
    + inversion 1 as [|? y ? ys' Hy Hys]; subst.
      apply IH in Hys. by rewrite Hy, Hys.
Qed.

Lemma mapM_total {A B} (f : A → result B) l :
  Forall (λ x, ∃ y, f x = Ok y) l → ∃ ys, mapM f l = Ok ys.
Proof.
  induction 1 as [|x l [y Hy] _ [ys Hys]].
  - by eexists.
  - rewrite mapM_cons, Hy, Hys. by eexists.
Qed.


Lemma stm_score_cases h q l :
  (¬ matched h q l ∧ ShortTermMemory.score h (py_lower q) l = Ok None)
  ∨ (matched h q l ∧ word_count h l = 0
     ∧ ShortTermMemory.score h (py_lower q) l = ZeroDivisionError)
  ∨ (matched h q l ∧ word_count h l ≠ 0
     ∧ ShortTermMemory.score h (py_lower q) l =
         Ok (Some (l, (Qc_of_Z (Z.of_nat (py_count (py_lower (content (h !!! l)))
                                                    (py_lower q)))
                       / Qc_of_Z (Z.of_nat (word_count h l))
                       * importance (h !!! l))%Qc))).
Proof.
  unfold matched, word_count, ShortTermMemory.score, py_div.
  destruct (py_in _ _); [|left; split; [by intros ?|done]].
  right. case_decide as Hw.
  - left. by rewrite Hw.
  - right. done.
Qed.

Lemma ltm_score_cases h q l :
  (¬ matched h q l ∧ LongTermMemory.score h (py_lower q) l = Ok None)
  ∨ (matched h q l ∧ word_count h l = 0
     ∧ LongTermMemory.score h (py_lower q) l = ZeroDivisionError)
  ∨ (matched h q l ∧ word_count h l ≠ 0
     ∧ LongTermMemory.score h (py_lower q) l =
         Ok (Some (l, (Qc_of_Z (Z.of_nat (py_count (py_lower (content (h !!! l)))
                                                    (py_lower q)))
                       / Qc_of_Z (Z.of_nat (word_count h l))
                       * importance (h !!! l)
                       * (1 + Qc_of_Z (access_count (h !!! l)) * dq 0.1))%Qc))).
Proof.
  unfold matched, word_count, LongTermMemory.score, py_div.
  destruct (py_in _ _); [|left; split; [by intros ?|done]].
  right. case_decide as Hw.
  - left. by rewrite Hw.
  - right. done.
Qed.

Lemma stm_search_total h m q k :
  (∀ l, l ∈ items m → matched h q l → word_count h l ≠ 0) →
  ∃ r, ShortTermMemory.search h m q k = Ok r.
Proof.
  intros Hsafe. unfold ShortTermMemory.search.
  destruct (mapM_total (ShortTermMemory.score h (py_lower q)) (items m)) as [ys ->].
  - apply list.Forall_forall. intros l Hl.
    destruct (stm_score_cases h q l) as [[_ ->]|[(Hm & Hw & _)|(_ & _ & ->)]];
      [by eexists| |by eexists].
    by destruct (Hsafe l Hl Hm).
  - simpl. by eexists.
Qed.

Lemma ltm_survivor_indexed h m tgs kind min_imp l :
  l ∈ ltm_survivors h m tgs kind min_imp →
  ∃ mid, mid ∈ LongTermMemory.candidates m tgs kind
         ∧ LongTermMemory.index m !! mid = Some l
         ∧ (min_imp ≤ importance (h !!! l))%Qc.
Proof.
  unfold ltm_survivors. rewrite list_elem_of_filter, list_elem_of_omap.
  intros [Himp (mid & Hmid & Hl)]. exists mid.
  apply elem_of_elements in Hmid.
  unfold Qc_leb in Himp. by apply bool_decide_eq_true in Himp.
Qed.

Lemma ltm_search_total h m q tgs kind min_imp k :
  (∀ mid l, LongTermMemory.index m !! mid = Some l →
            matched h q l → word_count h l ≠ 0) →
  ∃ r, LongTermMemory.search h m (Some q) tgs kind min_imp k = Ok r.
Proof.
  intros Hsafe. unfold LongTermMemory.search.
  fold (ltm_survivors h m tgs kind min_imp).
  destruct q as [|a q]; [by eexists|].
  destruct (mapM_total (LongTermMemory.score h (py_lower (String a q)))
              (ltm_survivors h m tgs kind min_imp)) as [ys ->].
  - apply list.Forall_forall. intros l Hl.
    destruct (ltm_survivor_indexed _ _ _ _ _ _ Hl) as (mid & _ & Hix & _).
    destruct (ltm_score_cases h (String a q) l)
      as [[_ ->]|[(Hm & Hw & _)|(_ & _ & ->)]]; [by eexists| |by eexists].
    by destruct (Hsafe mid l Hix Hm).
  - simpl. by eexists.
Qed.

(** C10. Both searches compute the relevance of a matching item as the
    number of occurrences of the query divided by the number of words of
    the content.  The division cannot fail when every item that the
    query matches has at least one word; without this, the divisor is
    zero for some input: the empty query matches an item with the empty
    content, which has no word. *)
Theorem C10_search_division :
  (∀ h q l,
     matched h q l → word_count h l ≠ 0 →
     ∃ rel,
       py_div (py_count (py_lower (content (h !!! l))) (py_lower q))
              (word_count h l) = Ok rel
       ∧ ShortTermMemory.score h (py_lower q) l
         = Ok (Some (l, (rel * importance (h !!! l))%Qc))
       ∧ LongTermMemory.score h (py_lower q) l =
           Ok (Some (l, (rel * importance (h !!! l)
                         * (1 + Qc_of_Z (access_count (h !!! l)) * dq 0.1))%Qc)))
  ∧ (∀ h m q k,
       (∀ l, l ∈ items m → matched h q l → word_count h l ≠ 0) →
       ∃ r, ShortTermMemory.search h m q k = Ok r)
  ∧ (∀ h m q tgs kind min_imp k,
       (∀ mid l, LongTermMemory.index m !! mid = Some l →
                 matched h q l → word_count h l ≠ 0) →
       ∃ r, LongTermMemory.search h m (Some q) tgs kind min_imp k = Ok r)
  ∧ (matched blank_heap "" 0 ∧ word_count blank_heap 0 = 0
     ∧ ShortTermMemory.search blank_heap blank_stm "" 5 = ZeroDivisionError)
  ∧ (matched [space_item] " " 0 ∧ word_count [space_item] 0 = 0
     ∧ LongTermMemory.search [space_item] space_ltm (Some " ") None None (dq 0.0) 10
       = ZeroDivisionError).
Proof.
  split.
  { intros h q l Hm Hw. unfold py_div. rewrite decide_False by done.
    eexists. split; [done|].
    destruct (stm_score_cases h q l) as [[? _]|[(_ & ? & _)|(_ & _ & ->)]];
      [done..|].
    destruct (ltm_score_cases h q l) as [[? _]|[(_ & ? & _)|(_ & _ & ->)]];
      done. }
  split; [exact stm_search_total|].
  split; [exact ltm_search_total|].
  split; (split; [reflexivity|]; split; [reflexivity|]; vm_compute; reflexivity).
Qed.

(** ** The two eviction policies of working memory *)

Lemma foldl_delete_lookup {V} (ks : list string) (im : gmap string V) k :
  foldl (λ im k, delete k im) im ks !! k
  = if decide (k ∈ ks) then None else im !! k.
Proof.
  revert im. induction ks as [|k' ks IH]; intros im; cbn [foldl].
  - case_decide as Hin; [by apply elem_of_nil in Hin|done].
  - rewrite IH. destruct (decide (k ∈ ks)) as [Hin|Hnin].
    + rewrite (decide_True (P := k ∈ k' :: ks)); [done|by right].
    + destruct (decide (k = k')) as [->|Hne].
      * rewrite lookup_delete_eq, (decide_True (P := k' ∈ k' :: ks)); [done|by left].
      * rewrite lookup_delete_ne, (decide_False (P := k ∈ k' :: ks)); [done| |done].
        by intros [?|?]%elem_of_cons.
Qed.

Lemma cleanup_item_map h m now mid l :
  item_map (_cleanup_expired h m now) !! mid = Some l
  ↔ item_map m !! mid = Some l ∧ expired h m now l = false.
Proof.
  unfold _cleanup_expired. cbn [item_map]. rewrite foldl_delete_lookup.
  case_decide as Hin.
  - apply list_elem_of_fmap in Hin as ([k' l'] & -> & Hin).
    apply list_elem_of_filter in Hin as [Hexp Hin].
    apply elem_of_map_to_list in Hin. simpl in *.
    split; [done|]. intros [Hl Hne]. congruence.
  - split.
    + intros Hl. split; [done|].
      destruct (expired h m now l) eqn:Hexp; [|done].
      destruct Hin. apply list_elem_of_fmap. exists (mid, l). split; [done|].
      apply list_elem_of_filter. split; [done|]. by apply elem_of_map_to_list.
    + by intros [? _].
Qed.


Lemma cleanup_items h m now : items (_cleanup_expired h m now) = items m.
Proof. done. Qed.



(** ** The secondary indices of long-term memory *)

Lemma in_bucket_add d k x k' x' :
  in_bucket (bucket_add k x d) k' x' ↔ in_bucket d k' x' ∨ (k' = k ∧ x' = x).
Proof.
  unfold in_bucket, bucket_add. destruct (decide (k' = k)) as [->|Hne].
  - rewrite lookup_insert_eq. simpl. set_solver.
  - rewrite lookup_insert_ne by done. naive_solver.
Qed.

Lemma in_bucket_discard d k x k' x' :
  in_bucket (bucket_discard k x d) k' x'
  ↔ in_bucket d k' x' ∧ ¬ (k' = k ∧ x' = x).
Proof.
  unfold in_bucket, bucket_discard. destruct (decide (k' = k)) as [->|Hne].
  - rewrite lookup_alter_eq. destruct (d !! k); simpl; set_solver.
  - rewrite lookup_alter_ne by done. naive_solver.
Qed.

Lemma in_bucket_add_all ts x d k' x' :
  in_bucket (foldl (λ ti tag, bucket_add tag x ti) d ts) k' x'
  ↔ in_bucket d k' x' ∨ (k' ∈ ts ∧ x' = x).
Proof.
  revert d. induction ts as [|t ts IH]; intros d; cbn [foldl].
  - set_solver.
  - rewrite IH, in_bucket_add. set_solver.
Qed.

Lemma in_bucket_discard_all ts x d k' x' :
  in_bucket (foldl (λ ti tag, bucket_discard tag x ti) d ts) k' x'
  ↔ in_bucket d k' x' ∧ ¬ (k' ∈ ts ∧ x' = x).
Proof.
  revert d. induction ts as [|t ts IH]; intros d; cbn [foldl].
  - set_solver.
  - rewrite IH, in_bucket_discard. set_solver.
Qed.

Lemma in_bucket_union_all d ts (acc : gset string) x :
  x ∈ foldl (λ acc tag, acc ∪ default ∅ (d !! tag)) acc ts
  ↔ x ∈ acc ∨ ∃ t, t ∈ ts ∧ in_bucket d t x.
Proof.
  revert acc. induction ts as [|t ts IH]; intros acc; cbn [foldl].
  - set_solver.
  - rewrite IH. unfold in_bucket. set_solver.
Qed.

(** *** [store] *)

Lemma store_tag_index h m l t x :
  in_bucket (tag_index (LongTermMemory.store h m l)) t x
  ↔ in_bucket (tag_index m) t x
    ∨ (t ∈ tags (h !!! l) ∧ x = memory_id (h !!! l)).
Proof.
  unfold LongTermMemory.store, update_indices. cbn [tag_index].
  apply in_bucket_add_all.
Qed.

Lemma store_type_index h m l k x :
  in_bucket (type_index (LongTermMemory.store h m l)) k x
  ↔ in_bucket (type_index m) k x
    ∨ (k = memory_type (h !!! l) ∧ x = memory_id (h !!! l)).
Proof.
  unfold LongTermMemory.store, update_indices. cbn [type_index].
  apply in_bucket_add.
Qed.


Lemma remove_one_index h m mid :
  index (remove_one h m mid) = delete mid (index m).
Proof.
  unfold remove_one. destruct (index m !! mid) eqn:Hm; [done|].
  by rewrite delete_id.
Qed.

Lemma remove_one_storage h m mid :
  is_Some (index m !! mid) →
  storage (remove_one h m mid) = delete mid (storage m).
Proof. unfold remove_one. by intros [l ->]. Qed.

Lemma remove_one_tag_index h m mid t x :
  in_bucket (tag_index (remove_one h m mid)) t x
  ↔ in_bucket (tag_index m) t x ∧ ¬ (x = mid ∧ tagged h m t mid).
Proof.
  unfold remove_one, tagged. destruct (index m !! mid) as [l|] eqn:Hm.
  - cbn [tag_index]. rewrite in_bucket_discard_all. naive_solver.
  - naive_solver.
Qed.

Lemma remove_one_type_index h m mid k x :
  in_bucket (type_index (remove_one h m mid)) k x
  ↔ in_bucket (type_index m) k x ∧ ¬ (x = mid ∧ typed h m k mid).
Proof.
  unfold remove_one, typed. destruct (index m !! mid) as [l|] eqn:Hm.
  - cbn [type_index]. rewrite in_bucket_discard. naive_solver.
  - naive_solver.
Qed.

Lemma remove_all_index h ids : ∀ m x,
  index (foldl (remove_one h) m ids) !! x
  = if decide (x ∈ ids) then None else index m !! x.
Proof.
  induction ids as [|mid ids IH]; intros m x; cbn [foldl].
  - case_decide as Hin; [by apply elem_of_nil in Hin|done].
  - rewrite IH, remove_one_index.
    destruct (decide (x ∈ ids)) as [Hin|Hnin].
    + rewrite (decide_True (P := x ∈ mid :: ids)); [done|by right].
    + destruct (decide (x = mid)) as [->|Hne].
      * rewrite lookup_delete_eq, (decide_True (P := mid ∈ mid :: ids));
          [done|by left].
      * rewrite lookup_delete_ne, (decide_False (P := x ∈ mid :: ids)); [done| |done].
        by intros [?|?]%elem_of_cons.
Qed.

Lemma remove_all_tag_index h ids : ∀ m t x,
  in_bucket (tag_index (foldl (remove_one h) m ids)) t x
  ↔ in_bucket (tag_index m) t x ∧ ¬ (x ∈ ids ∧ tagged h m t x).
Proof.
  induction ids as [|mid ids IH]; intros m t x; cbn [foldl].
  - set_solver.
  - rewrite IH, remove_one_tag_index. unfold tagged.
    rewrite remove_one_index. rewrite elem_of_cons.
    destruct (decide (x = mid)) as [->|Hne].
    + rewrite lookup_delete_eq. naive_solver.
    + rewrite lookup_delete_ne by done. naive_solver.
Qed.

Lemma remove_all_type_index h ids : ∀ m k x,
  in_bucket (type_index (foldl (remove_one h) m ids)) k x
  ↔ in_bucket (type_index m) k x ∧ ¬ (x ∈ ids ∧ typed h m k x).
Proof.
  induction ids as [|mid ids IH]; intros m k x; cbn [foldl].
  - set_solver.
  - rewrite IH, remove_one_type_index. unfold typed.
    rewrite remove_one_index. rewrite elem_of_cons.
    destruct (decide (x = mid)) as [->|Hne].
    + rewrite lookup_delete_eq. naive_solver.
    + rewrite lookup_delete_ne by done. naive_solver.
Qed.

Lemma remove_all_storage h ids : ∀ m x,
  x ∈ ids → is_Some (index m !! x) →
  storage (foldl (remove_one h) m ids) !! x = None.
Proof.
  induction ids as [|mid ids IH]; intros m x Hin Hx; cbn [foldl].
  - by apply elem_of_nil in Hin.
  - destruct (decide (x = mid)) as [->|Hne].
    + clear Hin IH. assert (Hst : storage (remove_one h m mid) !! mid = None).
      { rewrite remove_one_storage by done. apply lookup_delete_eq. }
      revert Hst. generalize (remove_one h m mid). clear m Hx.
      induction ids as [|k ids IH]; intros m Hst; cbn [foldl]; [done|].
      apply IH. unfold remove_one.
      destruct (index m !! k); [|done]. cbn [storage].
      destruct (decide (mid = k)) as [->|?].
      * apply lookup_delete_eq.
      * by rewrite lookup_delete_ne.
    + apply IH.
      * apply elem_of_cons in Hin as [?|?]; done.
      * rewrite remove_one_index. by rewrite lookup_delete_ne.
Qed.

Lemma elem_of_to_remove h m min_imp max_age now x :
  x ∈ to_remove h m min_imp max_age now
  ↔ ∃ l, index m !! x = Some l ∧ prunable h min_imp max_age now l = true.
Proof.
  unfold to_remove. rewrite list_elem_of_fmap. split.
  - intros ([k l] & -> & Hin). apply list_elem_of_filter in Hin as [Hp Hin].
    apply elem_of_map_to_list in Hin. by exists l.
  - intros (l & Hl & Hp). exists (x, l). split; [done|].
    apply list_elem_of_filter. split; [done|]. by apply elem_of_map_to_list.
Qed.

Lemma prunable_spec h min_imp max_age now l :
  prunable h min_imp max_age now l = true
  ↔ (decayed_importance (h !!! l) (now - created_at (h !!! l)) < min_imp)%Qc
    ∨ (timedelta_days max_age < now - created_at (h !!! l))%Z.
Proof.
  unfold prunable, Qc_ltb.
  by rewrite orb_true_iff, !bool_decide_eq_true.
Qed.

Lemma prune_index h m min_imp max_age now x l :
  index m !! x = Some l →
  index (prune h m min_imp max_age now).1 !! x
  = if prunable h min_imp max_age now l then None else Some l.
Proof.
  intros Hx. unfold prune. cbn [fst]. rewrite remove_all_index.
  destruct (prunable h min_imp max_age now l) eqn:Hp.
  - rewrite decide_True; [done|]. apply elem_of_to_remove. eauto.
  - rewrite decide_False; [done|].
    intros (l' & Hl' & Hp')%elem_of_to_remove. congruence.
Qed.


(** ** [LongTermMemory.search] *)

Lemma search_no_query h m tgs kind min_imp k :
  LongTermMemory.search h m None tgs kind min_imp k
  = Ok (py_take k (sort_desc (key_gt h) (ltm_survivors h m tgs kind min_imp))).
Proof. done. Qed.

Lemma candidates_indexed m tgs kind : candidates m tgs kind ⊆ dom (index m).
Proof.
  unfold candidates.
  destruct tgs as [[|? ?]|], kind as [[|? ?]|]; try destruct (type_index m !! _);
    set_solver.
Qed.

Lemma elem_of_ltm_survivors h m tgs kind min_imp l :
  l ∈ ltm_survivors h m tgs kind min_imp
  ↔ ∃ mid, mid ∈ candidates m tgs kind
           ∧ index m !! mid = Some l
           ∧ (min_imp ≤ importance (h !!! l))%Qc.
Proof.
  split; [apply ltm_survivor_indexed|].
  intros (mid & Hc & Hl & Himp). unfold ltm_survivors.
  apply list_elem_of_filter. split.
  - unfold Qc_leb. by apply bool_decide_eq_true.
  - apply list_elem_of_omap. exists mid. split; [|done].
    by apply elem_of_elements.
Qed.

Lemma omap_length_le {A B} (f : A → option B) l :
  length (omap f l) ≤ length l.
Proof.
  induction l as [|x l IH]; [done|].
  change (omap f (x :: l))
    with (match f x with Some y => y :: omap f l | None => omap f l end).
  destruct (f x); simpl; lia.
Qed.

Lemma ltm_survivors_length h m tgs kind min_imp :
  length (ltm_survivors h m tgs kind min_imp) ≤ size (index m).
Proof.
  unfold ltm_survivors.
  etrans; [apply length_filter|].
  etrans; [apply omap_length_le|].
  rewrite <- size_dom.
  apply (subseteq_size (candidates m tgs kind)), candidates_indexed.
Qed.

Lemma candidates_tags m t0 ts :
  candidates m (Some (t0 :: ts)) None
  = dom (index m) ∩ ⋃ ((λ t, default ∅ (tag_index m !! t)) <$> (t0 :: ts)).
Proof.
  unfold candidates. f_equal. apply set_eq. intros x.
  rewrite in_bucket_union_all, elem_of_union_list. unfold in_bucket. split.
  - intros [Hemp|(t & Ht & Hx)]; [by apply not_elem_of_empty in Hemp|].
    eexists. split; [|done]. apply list_elem_of_fmap. by exists t.
  - intros (X & (t & -> & Ht)%list_elem_of_fmap & Hx). right. by exists t.
Qed.

(** C6. With tags given (and no type, no query), the candidates of
    [search] are the indexed ids intersected with the union of the
    buckets of the requested tags: the result only holds items indexed
    under at least one requested tag and, when [top_k] does not truncate,
    every such item of sufficient importance; an item that carries one
    requested tag and is indexed under it qualifies.  With X tagged [a],
    Y tagged [b] and Z tagged [a, b], the search for [a, b] returns
    all three. *)
Theorem C6_tag_search_union h m t0 ts min_imp k :
  candidates m (Some (t0 :: ts)) None
  = dom (index m) ∩ ⋃ ((λ t, default ∅ (tag_index m !! t)) <$> (t0 :: ts))
  ∧ ∃ r,
      LongTermMemory.search h m None (Some (t0 :: ts)) None min_imp k = Ok r
      ∧ (∀ l, l ∈ r →
           ∃ x t, index m !! x = Some l ∧ t ∈ t0 :: ts
                  ∧ in_bucket (tag_index m) t x
                  ∧ (min_imp ≤ importance (h !!! l))%Qc)
      ∧ ((Z.of_nat (size (index m)) ≤ k)%Z →
         ∀ x l t, index m !! x = Some l →
                  t ∈ t0 :: ts →
                  in_bucket (tag_index m) t x →
                  (min_imp ≤ importance (h !!! l))%Qc →
                  l ∈ r)
      ∧ (index_exact h m →
         (∀ l, l ∈ r → ∃ t, t ∈ t0 :: ts ∧ t ∈ tags (h !!! l))
         ∧ ((Z.of_nat (size (index m)) ≤ k)%Z →
            ∀ x l t, index m !! x = Some l →
                     t ∈ t0 :: ts →
                     t ∈ tags (h !!! l) →
                     (min_imp ≤ importance (h !!! l))%Qc →
                     l ∈ r))
      ∧ ∃ r3,
          LongTermMemory.search xyz_heap xyz_ltm None (Some ["a"; "b"]) None
            (dq 0.0) 10 = Ok r3
          ∧ r3 ≡ₚ [0; 1; 2].
Proof.
  split; [apply candidates_tags|].
  assert (Hc : ∀ x, x ∈ candidates m (Some (t0 :: ts)) None
                    ↔ is_Some (index m !! x)
                      ∧ ∃ t, t ∈ t0 :: ts ∧ in_bucket (tag_index m) t x).
  { intros x. rewrite candidates_tags, elem_of_intersection, elem_of_dom.
    rewrite elem_of_union_list. unfold in_bucket. split.
    - intros [? (X & (t & -> & Ht)%list_elem_of_fmap & Hx)]. eauto.
    - intros [? (t & Ht & Hx)]. split; [done|].
      eexists. split; [|done]. apply list_elem_of_fmap. by exists t. }
  assert (Hsound : ∀ l,
            l ∈ py_take k (sort_desc (key_gt h)
                             (ltm_survivors h m (Some (t0 :: ts)) None min_imp)) →
            ∃ x t, index m !! x = Some l ∧ t ∈ t0 :: ts
                   ∧ in_bucket (tag_index m) t x
                   ∧ (min_imp ≤ importance (h !!! l))%Qc).
  { intros l Hl. apply py_take_subseteq in Hl. rewrite sort_desc_perm in Hl.
    apply elem_of_ltm_survivors in Hl as (x & Hx & Hl & Himp).
    apply Hc in Hx as [_ (t & Ht & Hb)]. by exists x, t. }
  assert (Hcomplete : (Z.of_nat (size (index m)) ≤ k)%Z →
            ∀ x l t, index m !! x = Some l → t ∈ t0 :: ts →
                     in_bucket (tag_index m) t x →
                     (min_imp ≤ importance (h !!! l))%Qc →
                     l ∈ py_take k (sort_desc (key_gt h)
                            (ltm_survivors h m (Some (t0 :: ts)) None min_imp))).
  { intros Hk x l t Hl Ht Hb Himp.
    rewrite py_take_all.
    2:{ rewrite (Permutation_length (sort_desc_perm _ _)).
        pose proof (ltm_survivors_length h m (Some (t0 :: ts)) None min_imp). lia. }
    rewrite sort_desc_perm. apply elem_of_ltm_survivors.
    exists x. split; [|done]. apply Hc. split; [by eexists|]. by exists t. }
  eexists. split; [apply search_no_query|].
  split; [exact Hsound|]. split; [exact Hcomplete|]. split.
  - intros (_ & Htag & _). split.
    + intros l (x & t & Hl & Ht & Hb & _)%Hsound.
      apply Htag in Hb as (l' & Hl' & Htl). exists t. split; [done|]. congruence.
    + intros Hk x l t Hl Ht Htl Himp. apply (Hcomplete Hk x l t); try done.
      apply Htag. by exists l.
  - exists [1; 2; 0]. split; [vm_compute; reflexivity|].
    apply (Permutation_app_comm [1; 2] [0]).
Qed.

(** The type filter of [search]: the intersection with the bucket of the
    type when there is one, and no filter at all otherwise. *)
Lemma candidates_type m a k :
  candidates m None (Some (String a k))
  = match type_index m !! String a k with
    | Some ids => dom (index m) ∩ ids
    | None => dom (index m)
    end.
Proof. done. Qed.

(** C2. A search for the type [episodic] in a long-term memory that
    holds one [semantic] item and never indexed an episodic one returns
    the semantic item: without a bucket for the requested type the
    candidates are not intersected at all.  A search for an unknown tag
    returns nothing. *)
Theorem C2_unindexed_type_not_filtered :
  type_index fact_ltm !! "episodic" = None
  ∧ candidates fact_ltm None (Some "episodic") = dom (index fact_ltm)
  ∧ LongTermMemory.search [fact_item] fact_ltm None None (Some "episodic")
      (dq 0.0) 10 = Ok [0]
  ∧ memory_type ([fact_item] !!! 0) = "semantic"
  ∧ LongTermMemory.search [fact_item] fact_ltm None (Some ["chemistry"]) None
      (dq 0.0) 10 = Ok [].
Proof. repeat split; vm_compute; reflexivity. Qed.

Lemma index_exact_consistent h m : index_exact h m → index_consistent h m.
Proof.
  intros (Hkey & Htag & Htyp). split; [|split].
  - intros t x (l & Hl & _)%Htag. by eexists.
  - intros k x (l & Hl & _)%Htyp. by eexists.
  - intros x l Hl. destruct (Hkey x l Hl) as [_ ->]. split.
    + intros t Ht. apply Htag. by exists l.
    + apply Htyp. by exists l.
Qed.

Lemma heap_extends_alloc h it : heap_extends h (h ++ [it]).
Proof.
  split; [rewrite length_app; lia|].
  intros l Hl. by rewrite lookup_total_app_l.
Qed.

Lemma heap_extends_modify h l n t imp :
  heap_extends h (modify h l (set_access n t imp)).
Proof.
  unfold modify. split; [by rewrite length_insert|].
  intros l' Hl'. destruct (decide (l' = l)) as [->|Hne].
  - by rewrite list_lookup_total_insert_eq.
  - by rewrite list_lookup_total_insert_ne.
Qed.

Lemma index_exact_heap h h' m :
  heap_extends h h' → index_exact h m → index_exact h' m.
Proof.
  intros [Hlen Hsame] (Hkey & Htag & Htyp). split; [|split].
  - intros x l Hl. destruct (Hkey x l Hl) as [Hlt Hid].
    destruct (Hsame l Hlt) as (-> & _ & _). split; [lia|done].
  - intros t x. rewrite Htag. unfold tagged. split.
    + intros (l & Hl & Ht). exists l. split; [done|].
      destruct (Hkey x l Hl) as [Hlt _].
      destruct (Hsame l Hlt) as (_ & -> & _). done.
    + intros (l & Hl & Ht). exists l. split; [done|].
      destruct (Hkey x l Hl) as [Hlt _].
      destruct (Hsame l Hlt) as (_ & <- & _). done.
  - intros k x. rewrite Htyp. unfold typed. split.
    + intros (l & Hl & Ht). exists l. split; [done|].
      destruct (Hkey x l Hl) as [Hlt _].
      destruct (Hsame l Hlt) as (_ & _ & ->). done.
    + intros (l & Hl & Ht). exists l. split; [done|].
      destruct (Hkey x l Hl) as [Hlt _].
      destruct (Hsame l Hlt) as (_ & _ & <-). done.
Qed.

(** An object put under its id in the three indices. *)
Lemma index_exact_put h m m' l :
  index m' = <[memory_id (h !!! l) := l]> (index m) →
  (∀ t x, in_bucket (tag_index m') t x
          ↔ in_bucket (tag_index m) t x
            ∨ (t ∈ tags (h !!! l) ∧ x = memory_id (h !!! l))) →
  (∀ k x, in_bucket (type_index m') k x
          ↔ in_bucket (type_index m) k x
            ∨ (k = memory_type (h !!! l) ∧ x = memory_id (h !!! l))) →
  l < length h → no_retag h m l → index_exact h m → index_exact h m'.
Proof.
  intros Hix Hti Hky Hl Hguard (Hkey & Htag & Htyp). split; [|split].
  - intros x l'. rewrite Hix. destruct (decide (memory_id (h !!! l) = x)) as [<-|Hne].
    + rewrite lookup_insert_eq. by intros [= <-].
    + rewrite lookup_insert_ne by done. apply Hkey.
  - intros t x. rewrite Hti, Htag. unfold tagged. rewrite Hix.
    destruct (decide (memory_id (h !!! l) = x)) as [<-|Hne].
    + rewrite lookup_insert_eq. split.
      * intros [(l' & Hl' & Ht)|[Ht _]]; exists l; (split; [done|]); [|done].
        by apply (Hguard l' Hl').
      * intros (l' & [= <-] & Ht). by right.
    + rewrite lookup_insert_ne by done. naive_solver.
  - intros k x. rewrite Hky, Htyp. unfold typed. rewrite Hix.
    destruct (decide (memory_id (h !!! l) = x)) as [<-|Hne].
    + rewrite lookup_insert_eq. split.
      * intros [(l' & Hl' & Ht)|[Ht _]]; exists l; (split; [done|]); [|done].
        destruct (Hguard l' Hl') as [_ <-]. done.
      * intros (l' & [= <-] & Ht). by right.
    + rewrite lookup_insert_ne by done. naive_solver.
Qed.

Lemma index_exact_store h m l :
  l < length h → no_retag h m l → index_exact h m →
  index_exact h (LongTermMemory.store h m l).
Proof.
  intros. eapply (index_exact_put h m); try done.
  - apply store_tag_index.
  - apply store_type_index.
Qed.

Lemma index_exact_retrieve h m mid now :
  index_exact h m →
  index_exact (LongTermMemory.retrieve h m mid now).1.1
    (LongTermMemory.retrieve h m mid now).1.2.
Proof.
  intros Hex. unfold LongTermMemory.retrieve.
  destruct (index m !! mid) as [l|]; [|done].
  cbn [fst snd].
  apply (index_exact_heap h); [apply heap_extends_modify|].
  exact Hex.
Qed.

Lemma index_exact_prune h m min_imp max_age now :
  index_exact h m → index_exact h (prune h m min_imp max_age now).1.
Proof.
  intros (Hkey & Htag & Htyp). unfold prune. cbn [fst].
  set (ids := to_remove h m min_imp max_age now).
  split; [|split].
  - intros x l. rewrite remove_all_index. case_decide; [done|]. apply Hkey.
  - intros t x. rewrite remove_all_tag_index, Htag. unfold tagged.
    rewrite remove_all_index. case_decide; naive_solver.
  - intros k x. rewrite remove_all_type_index, Htyp. unfold typed.
    rewrite remove_all_index. case_decide; naive_solver.
Qed.

Lemma load_one_exact h m it :
  index m !! memory_id it = None →
  index_exact h m →
  index_exact (load_one (h, m) it).1 (load_one (h, m) it).2
  ∧ ∀ x, index (load_one (h, m) it).2 !! x
         = if decide (memory_id it = x) then Some (length h) else index m !! x.
Proof.
  intros Hfresh Hex. unfold load_one, alloc. cbn [fst snd].
  assert (Hnew : (h ++ [it]) !!! length h = it) by by apply list_lookup_total_middle.
  split.
  - eapply (index_exact_put (h ++ [it]) m _ (length h)).
    + rewrite Hnew. reflexivity.
    + intros t x. rewrite Hnew. unfold update_indices. cbn [tag_index].
      apply in_bucket_add_all.
    + intros k x. rewrite Hnew. unfold update_indices. cbn [type_index].
      apply in_bucket_add.
    + rewrite length_app. simpl. lia.
    + intros l'. rewrite Hnew, Hfresh. done.
    + eapply index_exact_heap; [apply heap_extends_alloc|done].
  - intros x. unfold update_indices. cbn [index].
    case_decide as Hx.
    + subst x. apply lookup_insert_eq.
    + by apply lookup_insert_ne.
Qed.

Lemma load_all_exact its : ∀ h m,
  NoDup (memory_id <$> its) →
  (∀ it, it ∈ its → index m !! memory_id it = None) →
  index_exact h m →
  index_exact (foldl load_one (h, m) its).1 (foldl load_one (h, m) its).2.
Proof.
  induction its as [|it its IH]; intros h m Hnd Hfresh Hex; cbn [foldl]; [done|].
  rewrite fmap_cons in Hnd.
  pose proof (NoDup_cons_1_1 _ _ Hnd) as Hnotin.
  pose proof (NoDup_cons_1_2 _ _ Hnd) as Hnd'.
  destruct (load_one_exact h m it) as [Hex1 Hix1]; [apply Hfresh; by left|done|].
  destruct (load_one (h, m) it) as [h1 m1] eqn:Hload. cbn [fst snd] in *.
  apply IH; [done| |done].
  intros it' Hit'. rewrite Hix1. rewrite decide_False.
  - apply Hfresh. by right.
  - intros Heq. apply Hnotin. rewrite Heq. apply list_elem_of_fmap. by exists it'.
Qed.

Lemma init_exact h files :
  saved_by_store files →
  index_exact (LongTermMemory.init h files).1 (LongTermMemory.init h files).2.
Proof.
  intros Hsaved. unfold LongTermMemory.init, _load_memories. cbn [storage].
  apply load_all_exact.
  - replace (memory_id <$> (map_to_list files).*2) with ((map_to_list files).*1).
    + apply NoDup_fst_map_to_list.
    + rewrite <- list_fmap_compose. apply list_fmap_ext.
      intros i [k it] Hk. simpl.
      apply list_elem_of_lookup_2, elem_of_map_to_list in Hk.
      symmetry. by apply Hsaved.
  - intros it _. apply lookup_empty.
  - split; [|split].
    + intros x l. cbn [index]. by rewrite lookup_empty.
    + intros t x. unfold in_bucket, tagged. cbn [tag_index index].
      rewrite !lookup_empty. simpl. split.
      * by intros ?%not_elem_of_empty.
      * by intros (l & ? & _).
    + intros k x. unfold in_bucket, typed. cbn [type_index index].
      rewrite !lookup_empty. simpl. split.
      * by intros ?%not_elem_of_empty.
      * by intros (l & ? & _).
Qed.

Lemma ltm_step_exact s s' :
  ltm_step no_retag s s' → index_exact s.1 s.2 → index_exact s'.1 s'.2.
Proof.
  intros Hstep Hex. destruct Hstep; cbn [fst snd] in *.
  - by apply index_exact_store.
  - by apply index_exact_retrieve.
  - by apply index_exact_prune.
  - eapply index_exact_heap; [apply heap_extends_alloc|done].
  - eapply index_exact_heap; [apply heap_extends_modify|done].
Qed.

(** The statement C8 of the specification fails as it stands: two
    stores of one id under different tags followed by a prune leave the
    id in the bucket of the first tag although the primary map no longer
    has it. *)
Lemma C8_stale_bucket_after_prune :
  ¬ (∀ h m, ltm_reachable any_store any_files (h, m) → index_consistent h m).
Proof.
  intros Hclaim.
  assert (Hreach : ltm_reachable any_store any_files (retag_heap, retag_ltm)).
  { eapply reach_step; [|apply step_prune].
    eapply reach_step;
      [|apply (step_store any_store retag_heap _ 1); [simpl; lia|done]].
    eapply reach_step; [|apply (step_alloc any_store [retag_1] _ retag_2)].
    eapply reach_step; [|apply (step_store any_store [retag_1] _ 0); [simpl; lia|done]].
    eapply reach_step; [|apply (step_alloc any_store [] _ retag_1)].
    assert (Hinit : LongTermMemory.init [] ∅ = ([], fresh_ltm)) by reflexivity.
    rewrite <- Hinit. by apply reach_init. }
  destruct (Hclaim _ _ Hreach) as [Htag _].
  assert (Hin : in_bucket (tag_index retag_ltm) "a" "m") by (vm_compute; reflexivity).
  destruct (Htag "a" "m" Hin) as [l Hl].
  vm_compute in Hl. discriminate.
Qed.

(** C8 (amended). In every run that loads records written by
    [_save_memory] and never stores an id that is already present with
    other tags or another type, the indices are consistent after every
    operation: each id of a bucket is in the primary map, and the id of
    each stored item is in the bucket of each of its tags and of its
    type. *)
Theorem C8_index_consistency h m :
  ltm_reachable no_retag saved_by_store (h, m) → index_consistent h m.
Proof.
  intros Hreach. apply index_exact_consistent.
  change (index_exact (h, m).1 (h, m).2).
  induction Hreach as [h0 files Hfiles|s s' _ IH Hstep].
  - by apply init_exact.
  - by eapply ltm_step_exact.
Qed.

(** ** Consolidation *)

Lemma Qc_of_Z_mono a b : (a ≤ b)%Z → (Qc_of_Z a ≤ Qc_of_Z b)%Qc.
Proof.
  intros Hab. unfold Qcle, Qc_of_Z, Q2Qc. cbn [this].
  apply Qred_le. by rewrite <- Zle_Qle.
Qed.

Lemma age_hours_mono t t' created :
  (t ≤ t')%Z → (age_hours t created ≤ age_hours t' created)%Qc.
Proof.
  intros Ht. unfold age_hours, total_seconds, Qcdiv.
  apply Qcmult_le_compat_r; [|by vm_compute].
  apply Qcmult_le_compat_r; [|by vm_compute].
  apply Qc_of_Z_mono. lia.
Qed.

Lemma rule_applies_mono it age age' r :
  (age ≤ age')%Qc → rule_applies it age r = true → rule_applies it age' r = true.
Proof.
  intros Hle. unfold rule_applies, Qc_leb.
  rewrite !andb_true_iff, !bool_decide_eq_true.
  intros [[? ?] ?]. repeat split; [done..|].
  by eapply Qcle_trans.
Qed.

Lemma qualifies_mono it age age' rules :
  (age ≤ age')%Qc →
  qualifies it age rules = true → qualifies it age' rules = true.
Proof.
  intros Hle. induction rules as [|r rules IH]; cbn [qualifies]; [done|].
  destruct (rule_applies it age r) eqn:Hr.
  - rewrite (rule_applies_mono it age age' r Hle Hr).
    destruct (has_required_tag it r); [done|exact IH].
  - intros Hq. specialize (IH Hq).
    destruct (rule_applies it age' r); [|done].
    by destruct (has_required_tag it r).
Qed.

Lemma consolidate_one_index h rules now ltm n l x y :
  index ltm !! x = Some y →
  index (consolidate_one h rules now (ltm, n) l).1 !! x = Some y.
Proof.
  intros Hx. unfold consolidate_one.
  destruct (qualifies _ _ _); [|done].
  destruct (index ltm !! memory_id (h !!! l)) eqn:Hid; [done|].
  cbn [fst]. rewrite ltm_store_index, lookup_insert_ne; [done|].
  intros <-. congruence.
Qed.

Lemma consolidate_all_index h rules now ls : ∀ ltm n x y,
  index ltm !! x = Some y →
  index (foldl (consolidate_one h rules now) (ltm, n) ls).1 !! x = Some y.
Proof.
  induction ls as [|l ls IH]; intros ltm n x y Hx; cbn [foldl]; [done|].
  pose proof (consolidate_one_index h rules now ltm n l x y Hx) as H1.
  destruct (consolidate_one h rules now (ltm, n) l) as [ltm1 n1].
  by apply IH.
Qed.

Lemma consolidate_all_promoted h rules now ls : ∀ ltm n l,
  l ∈ ls → promotable h rules now l →
  is_Some (index (foldl (consolidate_one h rules now) (ltm, n) ls).1
             !! memory_id (h !!! l)).
Proof.
  induction ls as [|l' ls IH]; intros ltm n l Hin Hq; cbn [foldl].
  - by apply elem_of_nil in Hin.
  - apply elem_of_cons in Hin as [->|Hin].
    + assert (Hone : is_Some (index (consolidate_one h rules now (ltm, n) l').1
                                !! memory_id (h !!! l'))).
      { unfold consolidate_one. unfold promotable in Hq. rewrite Hq.
        destruct (index ltm !! memory_id (h !!! l')) eqn:Hid.
        - cbn [fst]. by rewrite Hid.
        - cbn [fst]. rewrite ltm_store_index, lookup_insert_eq. by eexists. }
      destruct Hone as [y Hy].
      destruct (consolidate_one h rules now (ltm, n) l') as [ltm1 n1].
      exists y. by apply consolidate_all_index.
    + destruct (consolidate_one h rules now (ltm, n) l') as [ltm1 n1].
      by apply IH.
Qed.

Lemma consolidate_all_nothing h rules now ls : ∀ ltm n,
  (∀ l, l ∈ ls → promotable h rules now l →
        is_Some (index ltm !! memory_id (h !!! l))) →
  foldl (consolidate_one h rules now) (ltm, n) ls = (ltm, n).
Proof.
  induction ls as [|l ls IH]; intros ltm n Hpresent; cbn [foldl]; [done|].
  assert (Hone : consolidate_one h rules now (ltm, n) l = (ltm, n)).
  { unfold consolidate_one.
    destruct (qualifies _ _ _) eqn:Hq; [|done].
    destruct (Hpresent l) as [y ->]; [by left|exact Hq|done]. }
  rewrite Hone. apply IH. intros l' Hl'. apply Hpresent. by right.
Qed.

(** The statement C3 of the specification fails as it stands: an item
    that is younger than the minimum age of its rule at the first call
    and old enough at the second call is promoted by the second call. *)
Lemma C3_second_call_promotes :
  let r1 := consolidate_memories idea_heap idea_sys minute24 in
  let r2 := consolidate_memories idea_heap r1.1 minute30 in
  (access_count (idea_heap !!! 0), consolidated r1.2, ltm_count r1.2) = (2%Z, 0, 0)
  ∧ (consolidated r2.2, ltm_count r2.2) = (1, 1)
  ∧ ¬ (ltm_count r2.2 ≤ ltm_count r1.2).
Proof. vm_compute. repeat split. lia. Qed.

(** C3 (amended). Two calls of [consolidate_memories] in a row, at the
    clock readings [t1] and [t2]: every item that qualified at the first
    call is in long-term memory after it, and the second call never
    stores again under an id that is already there.  When no item of
    working memory qualifies at [t2] without having qualified at [t1]
    (so when the clock reading of the second call is not later than that
    of the first), the second call promotes nothing and leaves long-term
    memory, hence its count, as the first call left it. *)
Theorem C3_consolidate_twice h s t1 t2 :
  let r1 := consolidate_memories h s t1 in
  let r2 := consolidate_memories h r1.1 t2 in
  let rules := consolidation_rules s in
  (∀ l, l ∈ ShortTermMemory.get_all (short_term s) →
        promotable h rules t1 l →
        is_Some (index (long_term r1.1) !! memory_id (h !!! l)))
  ∧ (∀ x l, index (long_term r1.1) !! x = Some l →
            index (long_term r2.1) !! x = Some l)
  ∧ ((∀ l, l ∈ ShortTermMemory.get_all (short_term s) →
           promotable h rules t2 l → promotable h rules t1 l) →
     long_term r2.1 = long_term r1.1
     ∧ consolidated r2.2 = 0
     ∧ ltm_count r2.2 = ltm_count r1.2)
  ∧ ((t2 ≤ t1)%Z →
     long_term r2.1 = long_term r1.1
     ∧ consolidated r2.2 = 0
     ∧ ltm_count r2.2 = ltm_count r1.2).
Proof.
  intros r1 r2 rules.
  unfold consolidate_memories in r1.
  destruct (foldl _ (long_term s, 0) _) as [ltm1 n1] eqn:Hfirst.
  assert (Hprom : ∀ l, l ∈ ShortTermMemory.get_all (short_term s) →
                    promotable h rules t1 l →
                    is_Some (index ltm1 !! memory_id (h !!! l))).
  { intros l Hl Hq.
    pose proof (consolidate_all_promoted h rules t1 _ (long_term s) 0 l Hl Hq) as Hp.
    fold rules in Hfirst. by rewrite Hfirst in Hp. }
  assert (Hsame : (∀ l, l ∈ ShortTermMemory.get_all (short_term s) →
                     promotable h rules t2 l → promotable h rules t1 l) →
                  long_term r2.1 = long_term r1.1
                  ∧ consolidated r2.2 = 0 ∧ ltm_count r2.2 = ltm_count r1.2).
  { intros Hno. unfold r2, r1, consolidate_memories. cbn [fst snd short_term
      long_term consolidation_rules].
    rewrite (consolidate_all_nothing h rules t2 _ ltm1 0); [done|].
    intros l Hl Hq. apply Hprom; [done|]. by apply Hno. }
  split; [exact Hprom|]. split; [|split; [exact Hsame|]].
  - intros x l Hx. unfold r2, r1, consolidate_memories in *.
    cbn [fst snd short_term long_term consolidation_rules] in *.
    pose proof (consolidate_all_index h rules t2
                  (ShortTermMemory.get_all (short_term s)) ltm1 0 x l Hx) as Hi.
    by destruct (foldl _ (ltm1, 0) _).
  - intros Ht. apply Hsame. intros l _. unfold promotable.
    apply qualifies_mono, age_hours_mono, Ht.
Qed.

(** ** Instances of the theorems on the worked scenarios *)

Lemma C5_witness :
  0 < max_capacity (short_term demo_sys)
  ∧ ltm_closed [] (long_term demo_sys)
  ∧ ∃ h' s' l,
      LayeredMemorySystem.store demo_sha16 [] demo_sys "fact" "semantic"
        (dq 0.8) None None false idea_clock = (h', s', l)
      ∧ list.last (get_all (short_term s')) = Some l
      ∧ held_by (long_term s') l.
Proof.
  assert (Hcap : 0 < max_capacity (short_term demo_sys)) by (vm_compute; lia).
  assert (Hcl : ltm_closed [] (long_term demo_sys)).
  { intros k l Hk. vm_compute in Hk. discriminate. }
  split; [exact Hcap|]. split; [exact Hcl|].
  destruct (C5_store_placement demo_sha16 [] demo_sys "fact" "semantic"
              (dq 0.8) None None false idea_clock)
    as (h' & s' & l & Hs & _ & _ & Hlast & _ & _ & _ & Hex).
  exists h', s', l. split; [exact Hs|]. split; [exact (Hlast Hcap)|].
  exact (proj1 (Hex Hcl eq_refl) eq_refl).
Defined.


Lemma C10_witness :
  (∀ l, l ∈ items abc_stm → matched abc_heap "b" l →
        word_count abc_heap l ≠ 0)
  ∧ ∃ r, ShortTermMemory.search abc_heap abc_stm "b" 5 = Ok r.
Proof.
  assert (Hsafe : ∀ l, l ∈ items abc_stm → matched abc_heap "b" l →
                       word_count abc_heap l ≠ 0).
  { intros l Hl _. apply list_elem_of_In in Hl. vm_compute in Hl.
    destruct Hl as [<-|[<-|[<-|[]]]]; vm_compute; lia. }
  split; [exact Hsafe|].
  exact (proj1 (proj2 C10_search_division) abc_heap abc_stm "b" 5%Z Hsafe).
Defined.


Lemma C6_witness :
  (Z.of_nat (size (index xyz_ltm)) ≤ 10)%Z
  ∧ index xyz_ltm !! "Z" = Some 2
  ∧ in_bucket (tag_index xyz_ltm) "b" "Z"
  ∧ ∃ r,
      LongTermMemory.search xyz_heap xyz_ltm None (Some ["a"; "b"]) None
        (dq 0.0) 10 = Ok r
      ∧ 2 ∈ r.
Proof.
  assert (Hk : (Z.of_nat (size (index xyz_ltm)) ≤ 10)%Z)
    by (vm_compute; discriminate).
  assert (Hix : index xyz_ltm !! "Z" = Some 2) by (vm_compute; reflexivity).
  assert (Hb : in_bucket (tag_index xyz_ltm) "b" "Z") by (vm_compute; reflexivity).
  split; [exact Hk|]. split; [exact Hix|]. split; [exact Hb|].
  destruct (C6_tag_search_union xyz_heap xyz_ltm "a" ["b"] (dq 0.0) 10)
    as (_ & r & Hr & _ & Hall & _).
  exists r. split; [exact Hr|].
  apply (Hall Hk "Z" 2 "b" Hix); [|exact Hb|].
  - right. left.
  - vm_compute. discriminate.
Defined.

Lemma C8_witness :
  ltm_reachable no_retag saved_by_store (xyz_heap, xyz_pruned)
  ∧ index_consistent xyz_heap xyz_pruned.
Proof.
  assert (Hfresh : ∀ h m l, index m !! memory_id (h !!! l) = None → no_retag h m l).
  { intros h m l Hnone l' Hl'. rewrite Hnone in Hl'. discriminate. }
  assert (Hreach : ltm_reachable no_retag saved_by_store (xyz_heap, xyz_pruned)).
  { eapply reach_step; [|apply step_prune].
    eapply reach_step;
      [|apply (step_store no_retag xyz_heap _ 2);
        [simpl; lia|apply Hfresh; vm_compute; reflexivity]].
    eapply reach_step;
      [|apply (step_store no_retag xyz_heap _ 1);
        [simpl; lia|apply Hfresh; vm_compute; reflexivity]].
    eapply reach_step;
      [|apply (step_store no_retag xyz_heap _ 0);
        [simpl; lia|apply Hfresh; vm_compute; reflexivity]].
    eapply reach_step; [|apply (step_alloc no_retag [item_X; item_Y] _ item_Z)].
    eapply reach_step; [|apply (step_alloc no_retag [item_X] _ item_Y)].
    eapply reach_step; [|apply (step_alloc no_retag [] _ item_X)].
    assert (Hinit : LongTermMemory.init [] ∅ = ([], fresh_ltm)) by reflexivity.
    rewrite <- Hinit. apply reach_init.
    intros stem it Hs. rewrite lookup_empty in Hs. discriminate. }
  split; [exact Hreach|].
  exact (C8_index_consistency xyz_heap xyz_pruned Hreach).
Defined.

Lemma C3_witness :
  (minute30 ≤ minute30)%Z
  ∧ let r1 := consolidate_memories idea_heap idea_sys minute30 in
    let r2 := consolidate_memories idea_heap r1.1 minute30 in
    consolidated r1.2 = 1
    ∧ long_term r2.1 = long_term r1.1
    ∧ consolidated r2.2 = 0
    ∧ ltm_count r2.2 = ltm_count r1.2.
Proof.
  assert (Ht : (minute30 ≤ minute30)%Z) by lia.
  split; [exact Ht|].
  destruct (C3_consolidate_twice idea_heap idea_sys minute30 minute30)
    as (_ & _ & _ & Hsame).
  destruct (Hsame Ht) as (H1 & H2 & H3).
  split; [vm_compute; reflexivity|].
  split; [exact H1|]. split; [exact H2|exact H3].
Defined.

(** ** The rounding and IEEE 754

    With the binary64 operations of the Standard Library the first
    update of 0.90 is the float that follows 0.95 (it prints as
    0.9500000000000001); the second and the third are exactly 1.0. *)
Lemma binary64_importance_bump :
  b64_bump (b64_lit 90 2) = SFsucc 53 1024 (b64_lit 95 2)
  ∧ b64_bump (b64_bump (b64_lit 90 2)) = b64_lit 10 1
  ∧ b64_bump (b64_bump (b64_bump (b64_lit 90 2))) = b64_lit 10 1
  ∧ SFleb (b64_lit 8 1) (b64_lit 8 1) = true
  ∧ SFleb (b64_lit 8 1) (b64_lit 79 2) = false.
Proof. repeat split; vm_compute; reflexivity. Qed.

(** The literals and the operations of the model give the values of the
    IEEE 754 operations of the Standard Library on the worked examples:
    the importance updates of 0.90 and of 0.35, the decayed importance
    of the item of importance 0.584 after 525 days, and the average of
    three importances 0.1. *)
Lemma binary64_rounding_agrees :
  b64_value (b64_lit 90 2) = dq 0.90
  ∧ b64_value (b64_lit 5 2) = dq 0.05
  ∧ b64_value (b64_lit 584 3) = dq 0.584
  ∧ b64_value (SFadd 53 1024 (b64_lit 90 2) (b64_lit 5 2))
    = fadd (dq 0.90) (dq 0.05)
  ∧ b64_value (SFadd 53 1024 (b64_lit 35 2) (b64_lit 5 2))
    = fadd (dq 0.35) (dq 0.05)
  ∧ b64_value
      (SFmul 53 1024 (b64_lit 584 3)
         (SFsub 53 1024 (b64_of_Z 1)
            (SFmul 53 1024 (b64_lit 1 1)
               (SFdiv 53 1024 (b64_of_Z 525) (b64_lit 3650 1)))))
    = decayed_importance fade_item day525
  ∧ b64_value
      (SFdiv 53 1024
         (SFadd 53 1024
            (SFadd 53 1024 (SFadd 53 1024 (b64_of_Z 0) (b64_lit 1 1))
               (b64_lit 1 1))
            (b64_lit 1 1))
         (b64_of_Z 3))
    = fdiv (LongTermMemory.sum_Qc [dq 0.1; dq 0.1; dq 0.1]) (Qc_of_Z 3).
Proof. repeat split; apply Qc_is_canon; vm_compute; reflexivity. Qed.

(** * Further properties of the code *)

(** ** Working memory *)

(** X1. After any run of [store] calls on a working memory whose deque
    respects its bound, the ring buffer holds the objects it had followed
    by the new ones, cut to the last [max_capacity] of them: it never
    exceeds the capacity, and the newest objects are kept in the order
    of insertion. *)
Theorem stm_store_run sha16 h m cs :
  stm_bounded m →
  ∃ h' m' ls,
    store_all sha16 h m cs = (h', m', ls)
    ∧ length ls = length cs
    ∧ get_all m' = keep_last (max_capacity m) (get_all m ++ ls)
    ∧ length (get_all m') = min (max_capacity m) (length (get_all m) + length cs)
    ∧ stm_bounded m'
    ∧ max_capacity m' = max_capacity m.
Proof.
  intros Hb.
  destruct (store_all_spec sha16 cs h m Hb) as (m' & Hrun & Hcap & Hit).
  eexists _, m', _. split; [exact Hrun|].
  rewrite length_seq. split; [done|].
  unfold get_all, stm_bounded. rewrite Hit. split; [done|].
  rewrite keep_last_length, length_app, length_seq, Hcap.
  split; [done|]. split; [lia|done].
Qed.

Lemma stm_store_run_witness :
  stm_bounded abc_stm
  ∧ ∃ h' m' ls,
      store_all demo_sha16 abc_heap abc_stm [call_D; demo_call "E" 0.3 5]
        = (h', m', ls)
      ∧ get_all m' = [2; 3; 4]
      ∧ stm_bounded m'.
Proof.
  assert (Hb : stm_bounded abc_stm) by (vm_compute; lia).
  split; [exact Hb|].
  destruct (stm_store_run demo_sha16 abc_heap abc_stm
              [call_D; demo_call "E" 0.3 5] Hb)
    as (h' & m' & ls & Hrun & _ & Hall & _ & Hb' & _).
  exists h', m', ls. split; [exact Hrun|]. split; [|exact Hb'].
  rewrite Hall. vm_compute in Hrun. injection Hrun as _ _ <-.
  vm_compute. reflexivity.
Defined.

(** ** Arithmetic

    Goals on [Qc] without literals are moved to [Q], where [lra] and
    [nra] decide them. *)

Lemma Qc_eq_this (a b : Qc) : a = b ↔ (this a == this b)%Q.
Proof. split; [by intros ->|apply Qc_is_canon]. Qed.

Ltac qc_to_Q :=
  rewrite ?Qc_eq_this in *;
  unfold Qc_of_Z in *;
  unfold Qcle, Qclt, Qcdiv, Qcminus in *;
  repeat (progress (unfold Qcopp, Qcplus, Qcmult, Qcinv, Q2Qc in *;
                    cbn [this] in *;
                    rewrite ?Qred_correct in * )).

Lemma dq_0 : dq 0 = 0%Qc.
Proof. apply Qc_is_canon. vm_compute. reflexivity. Qed.

Lemma dq_1 : dq 1 = 1%Qc.
Proof. apply Qc_is_canon. vm_compute. reflexivity. Qed.

Lemma dq_1_0 : dq 1.0 = 1%Qc.
Proof. apply Qc_is_canon. vm_compute. reflexivity. Qed.

Lemma is_b64_one : is_b64 (dq 1.0).
Proof. apply Qc_is_canon. vm_compute. reflexivity. Qed.

Lemma rnd_ge c x : is_b64 c → (c ≤ x)%Qc → (c ≤ rnd x)%Qc.
Proof. intros Hc Hx%rnd_mono. by rewrite Hc in Hx. Qed.

Lemma rnd_le c x : is_b64 c → (x ≤ c)%Qc → (rnd x ≤ c)%Qc.
Proof. intros Hc Hx%rnd_mono. by rewrite Hc in Hx. Qed.

Lemma py_min_l a b : (a ≤ b)%Qc → py_min a b = a.
Proof.
  intros Hab. unfold py_min, Qc_ltb. rewrite bool_decide_eq_false_2; [done|].
  by apply Qcle_not_lt.
Qed.

Lemma py_min_r a b : (b < a)%Qc → py_min a b = b.
Proof.
  intros Hab. unfold py_min, Qc_ltb. by rewrite bool_decide_eq_true_2.
Qed.

(** *** The importance update *)

Lemma bump_le_one x : (bump x ≤ dq 1.0)%Qc.
Proof. unfold bump. apply py_min_spec. Qed.

Lemma bump_at_cap x : (dq 1.0 ≤ x)%Qc → bump x = dq 1.0.
Proof.
  intros Hx. unfold bump, fadd. apply py_min_l, rnd_ge; [apply is_b64_one|].
  assert (H5 : (0 ≤ dq 0.05)%Qc) by by vm_compute.
  rewrite <- (Qcplus_0_r (dq 1.0)). by apply Qcplus_le_compat.
Qed.

Lemma bump_ge x : is_b64 x → (x ≤ dq 1.0)%Qc → (x ≤ bump x)%Qc.
Proof.
  intros Hb Hx. unfold bump.
  destruct (py_min_spec (dq 1.0) (fadd x (dq 0.05))) as (_ & _ & [-> | ->]);
    [done|].
  unfold fadd. apply rnd_ge; [done|].
  assert (H5 : (0 ≤ dq 0.05)%Qc) by by vm_compute.
  rewrite <- (Qcplus_0_r x) at 1. apply Qcplus_le_compat; [|done].
  apply Qcle_refl.
Qed.

Lemma bump_iter_le n x : (Nat.iter (S n) bump x ≤ dq 1.0)%Qc.
Proof. rewrite Nat.iter_succ. apply bump_le_one. Qed.

Lemma bump_iter_cap n x : (dq 1.0 ≤ x)%Qc → Nat.iter (S n) bump x = dq 1.0.
Proof.
  intros Hx. induction n as [|n IH].
  - by apply bump_at_cap.
  - rewrite Nat.iter_succ, IH. apply bump_at_cap, Qcle_refl.
Qed.

(** ** Repeated retrieval *)

Lemma retrieve_all_spec m mid l ts : ∀ h it,
  item_map m !! mid = Some l →
  h !! l = Some it →
  retrieve_all h m mid ts
  = <[l := set_access (access_count it + Z.of_nat (length ts))
             (default (last_accessed it) (list.last ts))
             (Nat.iter (length ts) bump (importance it)) it]> h.
Proof.
  induction ts as [|t ts IH]; intros h it Hm Hl.
  - simpl. rewrite Z.add_0_r. destruct it. symmetry. by apply list_insert_id.
  - cbn [retrieve_all]. rewrite (retrieve_hit h m mid t l it Hm Hl). cbn [fst].
    assert (Hlt : l < length h) by by eapply lookup_lt_Some.
    erewrite IH; [|done|by apply list_lookup_insert_eq].
    rewrite list_insert_insert_eq. f_equal.
    unfold set_access. cbn [memory_id content memory_type access_count
      created_at last_accessed decay_rate tags context importance length].
    f_equal.
    + rewrite Nat.iter_succ_r. done.
    + lia.
    + destruct ts as [|t' ts]; [done|]. rewrite !last_cons.
      by destruct (list.last ts).
Qed.

(** X2. [n >= 1] calls of [ShortTermMemory.retrieve] for an id of the
    side table add [n] to [access_count], leave the last clock reading
    in [last_accessed] and apply [n] times the update
    [min(1.0, importance + 0.05)], the sum being rounded to binary64
    each time.  The result never exceeds 1.0, and it is exactly 1.0
    when the importance was at least 1.0: an item stored with an
    importance above 1.0 (the value is not validated) has its
    importance lowered to 1.0 by the first retrieval. *)
Theorem stm_retrieve_repeated h m mid t ts l it :
  item_map m !! mid = Some l →
  h !! l = Some it →
  ∃ it',
    retrieve_all h m mid (t :: ts) !! l = Some it'
    ∧ access_count it' = (access_count it + Z.of_nat (S (length ts)))%Z
    ∧ list.last (t :: ts) = Some (last_accessed it')
    ∧ importance it' = Nat.iter (S (length ts)) bump (importance it)
    ∧ (importance it' ≤ dq 1.0)%Qc
    ∧ ((dq 1.0 ≤ importance it)%Qc → importance it' = dq 1.0)
    ∧ ((dq 1.0 < importance it)%Qc → (importance it' < importance it)%Qc)
    ∧ (∀ l', l' ≠ l → retrieve_all h m mid (t :: ts) !! l' = h !! l').
Proof.
  intros Hm Hl.
  assert (Hlt : l < length h) by by eapply lookup_lt_Some.
  rewrite (retrieve_all_spec m mid l (t :: ts) h it Hm Hl).
  eexists. split; [by apply list_lookup_insert_eq|].
  cbn [set_access access_count last_accessed importance length].
  split; [done|]. split.
  { destruct (list.last (t :: ts)) eqn:Hlast; [done|].
    by apply last_None in Hlast. }
  split; [done|]. split; [apply bump_iter_le|]. split; [apply bump_iter_cap|].
  split.
  - intros Hbig. rewrite bump_iter_cap; [done|]. by apply Qclt_le_weak.
  - intros l' Hne. by apply list_lookup_insert_ne.
Qed.

Lemma stm_retrieve_repeated_witness :
  item_map note_stm !! "note@1000" = Some 0
  ∧ note_heap !! 0 = Some (new_item demo_sha16 note_call)
  ∧ ∃ it',
      retrieve_all note_heap note_stm "note@1000" [2000; 3000]%Z !! 0 = Some it'
      ∧ access_count it' = 3%Z
      ∧ last_accessed it' = 3000%Z
      ∧ importance it' = Nat.iter 2 bump (dq 0.90)
      ∧ Nat.iter 2 bump (dq 0.90) = dq 1.0
      ∧ Nat.iter 4 bump (dq 0.30) = dq 0.49999999999999994.
Proof.
  assert (Hm : item_map note_stm !! "note@1000" = Some 0) by (vm_compute; reflexivity).
  assert (Hl : note_heap !! 0 = Some (new_item demo_sha16 note_call)) by reflexivity.
  split; [exact Hm|]. split; [exact Hl|].
  destruct (stm_retrieve_repeated note_heap note_stm "note@1000" 2000 [3000%Z] 0 _ Hm Hl)
    as (it' & Hh & Hac & Hla & Himp & _).
  exists it'. split; [exact Hh|]. split; [exact Hac|].
  split; [by injection Hla|]. split; [exact Himp|].
  split; apply Qc_is_canon; vm_compute; reflexivity.
Defined.

(** ** The sweep of a store *)

(** X3. After a [store], the side table holds no entry that the sweep
    of that call found older than [retention_minutes], and no entry
    that it did not hold before except the new one.  The new item itself
    is resolvable by id after the call exactly when the sweep read the
    clock at most [retention_minutes] after [created_at] was read;
    otherwise it is already gone from the side table, although it is the
    newest element of the ring buffer. *)
Theorem stm_store_sweep sha16 h m c :
  ∃ h' m' l,
    store_call sha16 h m c = (h', m', l)
    ∧ (∀ mid x, item_map m' !! mid = Some x →
         (t_sweep (c_clock c) - created_at (h' !!! x)
          ≤ timedelta_minutes (retention_minutes m))%Z)
    ∧ (item_map m' !! memory_id (new_item sha16 c) = Some l
       ↔ (t_sweep (c_clock c) - t_created (c_clock c)
          ≤ timedelta_minutes (retention_minutes m))%Z)
    ∧ (∀ mid x, item_map m' !! mid = Some x →
         mid ≠ memory_id (new_item sha16 c) → item_map m !! mid = Some x)
    ∧ (0 < max_capacity m → list.last (get_all m') = Some l).
Proof.
  unfold store_call, ShortTermMemory.store, alloc. fold (new_item sha16 c).
  set (m1 := ShortTermMemory.mk _ _ _ _).
  set (h1 := h ++ [new_item sha16 c]).
  eexists _, _, _. split; [reflexivity|].
  assert (Hexp : ∀ x, expired h1 m1 (t_sweep (c_clock c)) x = false
                      ↔ (t_sweep (c_clock c) - created_at (h1 !!! x)
                         ≤ timedelta_minutes (retention_minutes m))%Z).
  { intros x. unfold expired. rewrite bool_decide_eq_false. cbn [retention_minutes m1].
    lia. }
  split.
  { intros mid x Hx. apply cleanup_item_map in Hx as [_ Hx]. by apply Hexp. }
  split.
  { rewrite cleanup_item_map. unfold m1 at 1. cbn [item_map].
    change (sha16 (c_content c) (t_id (c_clock c)))
      with (memory_id (new_item sha16 c)).
    rewrite lookup_insert_eq, Hexp.
    unfold h1. rewrite list_lookup_total_middle by done.
    cbn [created_at new_item]. naive_solver. }
  split.
  { intros mid x Hx Hne. apply cleanup_item_map in Hx as [Hx _].
    unfold m1 in Hx. cbn [item_map] in Hx.
    by rewrite lookup_insert_ne in Hx. }
  intros Hcap. unfold get_all. rewrite cleanup_items. unfold m1. cbn [items].
  unfold deque_append. case_decide.
  - destruct (items m) as [|x d]; simpl in *; [lia|].
    by rewrite drop_0, last_snoc.
  - by rewrite last_snoc.
Qed.

Lemma stm_store_sweep_witness :
  0 < max_capacity no_retention_stm
  ∧ ∃ h' m' l,
      store_call demo_sha16 [] no_retention_stm late_call = (h', m', l)
      ∧ list.last (get_all m') = Some l
      ∧ item_map m' !! "late@10" ≠ Some l.
Proof.
  assert (Hcap : 0 < max_capacity no_retention_stm) by (vm_compute; lia).
  split; [exact Hcap|].
  destruct (stm_store_sweep demo_sha16 [] no_retention_stm late_call)
    as (h' & m' & l & Hs & _ & Hnew & _ & Hlast).
  exists h', m', l. split; [exact Hs|]. split; [exact (Hlast Hcap)|].
  intros Hin. apply Hnew in Hin. vm_compute in Hin. by apply Hin.
Defined.

(** ** Order and size of search results *)

Section sort_desc_sorted.
Context {A : Type} (gt : A → A → bool).
Hypothesis gt_asym : ∀ x y, gt x y = true → gt y x = false.
Hypothesis not_gt_trans :
  ∀ x y z, gt y x = false → gt z y = false → gt z x = false.

Lemma insert_desc_sorted x l :
  StronglySorted (λ a b, gt b a = false) l →
  StronglySorted (λ a b, gt b a = false) (insert_desc gt x l).
Proof.
  induction 1 as [|y l Hl IH Hy]; cbn [insert_desc].
  - repeat constructor.
  - destruct (gt y x) eqn:Hyx.
    + constructor; [done|].
      rewrite (insert_desc_perm gt x l). constructor; [by apply gt_asym|done].
    + constructor; [by constructor|].
      constructor; [done|].
      eapply Forall_impl; [exact Hy|]. intros z Hz. by eapply not_gt_trans.
Qed.

Lemma sort_desc_sorted l :
  StronglySorted (λ a b, gt b a = false) (sort_desc gt l).
Proof.
  induction l as [|x l IH]; cbn [sort_desc foldr]; [constructor|].
  by apply insert_desc_sorted.
Qed.
End sort_desc_sorted.

Lemma py_take_sorted {A} (R : relation A) k l :
  StronglySorted R l → StronglySorted R (py_take k l).
Proof.
  intros Hl. unfold py_take.
  destruct (0 <=? k)%Z;
    [rewrite <- (take_drop (Z.to_nat k) l) in Hl
    |rewrite <- (take_drop (Z.to_nat (Z.of_nat (length l) + k)) l) in Hl];
    by apply StronglySorted_app_1_l in Hl.
Qed.

Lemma py_take_length {A} k (l : list A) :
  (0 ≤ k)%Z → length (py_take k l) ≤ Z.to_nat k.
Proof.
  intros Hk. unfold py_take. rewrite (proj2 (Z.leb_le 0 k) Hk).
  rewrite length_take. lia.
Qed.

Lemma sorted_with {A} (R : relation A) (P : A → Prop) l :
  StronglySorted R l → Forall P l →
  StronglySorted (λ a b, P a ∧ P b ∧ R a b) l.
Proof.
  induction 1 as [|x l Hl IH Hx]; intros HP; [constructor|].
  apply Forall_cons in HP as [HPx HP].
  constructor; [by apply IH|].
  apply list.Forall_forall. intros y Hy. split; [done|]. split.
  - by eapply (proj1 (list.Forall_forall _ _) HP).
  - by eapply (proj1 (list.Forall_forall _ _) Hx).
Qed.

Lemma Forall2_elem_l {A B} (P : A → B → Prop) l k x :
  Forall2 P l k → x ∈ l → ∃ y, y ∈ k ∧ P x y.
Proof.
  induction 1 as [|x' y l k Hxy _ IH].
  - by intros ?%elem_of_nil.
  - intros [->|Hx]%elem_of_cons.
    + exists y. split; [by left|done].
    + destruct (IH Hx) as (y' & ? & ?). exists y'. split; [by right|done].
Qed.

Lemma Qc_ltb_asym x y : Qc_ltb x y = true → Qc_ltb y x = false.
Proof.
  unfold Qc_ltb. rewrite bool_decide_eq_true, bool_decide_eq_false.
  intros Hxy Hyx. by apply (Qclt_not_le _ _ Hxy), Qclt_le_weak.
Qed.

Lemma Qc_ltb_false x y : Qc_ltb x y = false ↔ (y ≤ x)%Qc.
Proof.
  unfold Qc_ltb. rewrite bool_decide_eq_false. split.
  - apply Qcnot_lt_le.
  - intros Hle Hlt. by apply (Qclt_not_le _ _ Hlt).
Qed.

(** The matches of [ShortTermMemory.search] before sorting. *)
Lemma stm_scored h m q (scored : list (option (loc * Qc))) :
  mapM (ShortTermMemory.score h (py_lower q)) (items m) = Ok scored →
  (∀ p, p ∈ omap id scored →
        p.1 ∈ items m ∧ matched h q p.1 ∧ word_count h p.1 ≠ 0
        ∧ p.2 = stm_score h q p.1)
  ∧ (∀ l, l ∈ items m → matched h q l → (l, stm_score h q l) ∈ omap id scored).
Proof.
  intros Hsc. apply mapM_Ok in Hsc. split.
  - intros p (o & Ho & Hid)%list_elem_of_omap. simpl in Hid. subst o.
    destruct (Forall2_elem_r _ _ _ _ Hsc Ho) as (l & Hl & Hscore). simpl in Hscore.
    destruct (stm_score_cases h q l) as [[_ Hs]|[(_ & _ & Hs)|(Hm & Hw & Hs)]];
      rewrite Hs in Hscore; simplify_eq. done.
  - intros l Hl Hm.
    destruct (Forall2_elem_l _ _ _ _ Hsc Hl) as (o & Ho & Hscore). simpl in Hscore.
    apply list_elem_of_omap. exists o. split; [done|].
    destruct (stm_score_cases h q l) as [[Hn _]|[(_ & _ & Hs)|(_ & _ & Hs)]];
      [done|rewrite Hs in Hscore; simplify_eq..]. done.
Qed.

Lemma stm_search_sound h m q k r :
  ShortTermMemory.search h m q k = Ok r →
  (∀ l, l ∈ r → l ∈ items m ∧ matched h q l)
  ∧ ((0 ≤ k)%Z → length r ≤ Z.to_nat k).
Proof.
  unfold ShortTermMemory.search.
  destruct (mapM _ (items m)) as [scored|] eqn:Hsc; [|done].
  destruct (stm_scored h m q scored Hsc) as [Hsound _].
  intros [= <-]. split.
  - intros l ([l' sc] & -> & Hx)%list_elem_of_fmap.
    apply py_take_subseteq in Hx. rewrite sort_desc_perm in Hx.
    destruct (Hsound _ Hx) as (? & ? & _). done.
  - intros Hk. rewrite length_fmap. by apply py_take_length.
Qed.



(** ** Consolidation under the methods of the layered system *)

Lemma elem_of_deque_append n d x l :
  l ∈ deque_append n d x → l ∈ d ∨ l = x.
Proof.
  unfold deque_append. intros Hl.
  assert (Hl' : l ∈ d ++ [x]).
  { case_decide; [|done]. by eapply subseteq_drop. }
  apply elem_of_app in Hl' as [?|Hx]; [by left|].
  right. by apply list_elem_of_singleton in Hx.
Qed.

Lemma lms_store_spec sha16 h s text mtype imp tgs ctx force clk :
  ∃ im ltm,
    LayeredMemorySystem.store sha16 h s text mtype imp tgs ctx force clk
    = (h ++ [new_item sha16 (mkCall text mtype imp tgs ctx clk)],
       LayeredMemorySystem.mk
         (ShortTermMemory.mk (max_capacity (short_term s))
            (retention_minutes (short_term s))
            (deque_append (max_capacity (short_term s))
               (items (short_term s)) (length h))
            im)
         ltm (consolidation_rules s),
       length h).
Proof.
  unfold LayeredMemorySystem.store, ShortTermMemory.store, alloc,
    _cleanup_expired, new_item. cbn. eauto.
Qed.

Lemma lookup_total_alloc_old (h : Heap) it l :
  l < length h → (h ++ [it]) !!! l = h !!! l.
Proof. intros Hl. by rewrite lookup_total_app_l. Qed.

Lemma lookup_total_alloc_new (h : Heap) it : (h ++ [it]) !!! length h = it.
Proof. by rewrite list_lookup_total_middle. Qed.

Lemma qualifies_default_untouched it age :
  access_count it = 1%Z → qualifies it age default_rules = false.
Proof.
  intros Hit. unfold default_rules, qualifies, rule_applies. cbn.
  rewrite Hit. by rewrite !bool_decide_eq_false_2 by lia.
Qed.

Lemma consolidate_untouched h s now :
  consolidation_rules s = default_rules →
  stm_untouched h (short_term s) →
  consolidate_memories h s now
  = (s, mkStats 0 (length (items (short_term s)))
          (size (index (long_term s))) now).
Proof.
  intros Hrules Hun. unfold consolidate_memories.
  rewrite consolidate_all_nothing.
  - by destruct s.
  - intros l Hl Hp. unfold promotable in Hp.
    destruct (Hun l Hl) as [_ Hacc].
    by rewrite Hrules, qualifies_default_untouched in Hp.
Qed.

Lemma lms_reachable_untouched sha16 hs :
  lms_reachable sha16 hs →
  consolidation_rules hs.2 = default_rules ∧ stm_untouched hs.1 (short_term hs.2).
Proof.
  induction 1 as [h cap ret files|[h s] hs' _ [Hrules Hun] Hstep].
  - unfold LayeredMemorySystem.init.
    destruct (LongTermMemory.init h files) as [h1 ltm].
    split; [done|]. by intros l ?%elem_of_nil.
  - simpl in Hrules, Hun. inversion Hstep as [h0 s0 text mtype imp tgs ctx force clk|
                                              h0 s0 now|h0 s0 t1 t2]; subst.
    + destruct (lms_store_spec sha16 h s text mtype imp tgs ctx force clk)
        as (im & ltm & ->). cbn. split; [done|].
      intros l [Hl| ->]%elem_of_deque_append.
      * destruct (Hun l Hl) as [Hlt Hacc]. rewrite length_app. cbn.
        split; [lia|]. by rewrite lookup_total_alloc_old.
      * rewrite length_app. cbn. split; [lia|].
        by rewrite lookup_total_alloc_new.
    + rewrite consolidate_untouched by done. done.
    + unfold auto_maintain. rewrite consolidate_untouched by done. done.
Qed.

(** X5. In a system driven through the methods of [LayeredMemorySystem]
    alone ([store], [retrieve], [consolidate_memories], [auto_maintain],
    [get_memory_status]), with any arguments and clock readings,
    [consolidate_memories] never promotes an item: every item of working
    memory keeps the access count 1 of its creation and both default
    rules ask for more.  The call returns [consolidated = 0] and leaves
    the system as it is. *)
Theorem lms_never_promotes sha16 h s now :
  lms_reachable sha16 (h, s) →
  consolidate_memories h s now
  = (s, mkStats 0 (length (get_all (short_term s)))
          (size (index (long_term s))) now)
  ∧ ∀ l, l ∈ get_all (short_term s) → access_count (h !!! l) = 1%Z.
Proof.
  intros [Hrules Hun]%lms_reachable_untouched. simpl in Hrules, Hun. split.
  - by apply consolidate_untouched.
  - intros l Hl. by destruct (Hun l Hl).
Qed.

Lemma lms_never_promotes_witness :
  lms_reachable demo_sha16 idea_stored.1
  ∧ consolidated
      (consolidate_memories idea_stored.1.1 idea_sys (timedelta_days 7)).2 = 0.
Proof.
  assert (Hr : lms_reachable demo_sha16 (idea_stored.1.1, idea_sys)).
  { eapply lms_reach_step; [apply (lms_reach_init demo_sha16 [] 20 30 ∅)|].
    exact (lms_step_store demo_sha16 [] demo_sys "idea" "episodic" (dq 0.7)
             None None false idea_clock). }
  split; [exact Hr|].
  destruct (lms_never_promotes demo_sha16 _ _ (timedelta_days 7) Hr) as [-> _].
  reflexivity.
Defined.

(** ** Loading the directory *)

Lemma load_all_spec its : ∀ h m,
  NoDup (memory_id <$> its) →
  (foldl load_one (h, m) its).1 = h ++ its
  ∧ storage (foldl load_one (h, m) its).2 = storage m
  ∧ (∀ i it, its !! i = Some it →
       index (foldl load_one (h, m) its).2 !! memory_id it = Some (length h + i))
  ∧ (∀ x, x ∉ memory_id <$> its →
       index (foldl load_one (h, m) its).2 !! x = index m !! x).
Proof.
  induction its as [|it its IH]; intros h m Hnd; cbn [foldl].
  { rewrite app_nil_r. split; [done|]. split; [done|]. split; [|done].
    by intros i it ?. }
  rewrite fmap_cons in Hnd.
  pose proof (NoDup_cons_1_1 _ _ Hnd) as Hnotin.
  pose proof (NoDup_cons_1_2 _ _ Hnd) as Hnd'.
  assert (Hload : load_one (h, m) it
                  = (h ++ [it],
                     update_indices it
                       (LongTermMemory.mk (<[memory_id it := length h]> (index m))
                          (tag_index m) (type_index m) (storage m)))) by done.
  rewrite Hload. clear Hload.
  destruct (IH (h ++ [it])
              (update_indices it
                 (LongTermMemory.mk (<[memory_id it := length h]> (index m))
                    (tag_index m) (type_index m) (storage m))) Hnd')
    as (Hh & Hst & Hix & Hother).
  split; [by rewrite Hh, <- app_assoc|].
  split; [by rewrite Hst|]. split.
  - intros [|i] it' Hi.
    + simpl in Hi. simplify_eq. rewrite Hother by done.
      cbn [update_indices index]. rewrite lookup_insert_eq. f_equal. lia.
    + simpl in Hi. rewrite (Hix i it' Hi). rewrite length_app. cbn. f_equal. lia.
  - intros x Hx. rewrite fmap_cons in Hx.
    apply not_elem_of_cons in Hx as [Hne Hx]. rewrite Hother by done.
    cbn [update_indices index]. by rewrite lookup_insert_ne.
Qed.

Lemma saved_ids files :
  saved_by_store files →
  memory_id <$> (map_to_list files).*2 = (map_to_list files).*1.
Proof.
  intros Hsaved. rewrite <- list_fmap_compose. apply list_fmap_ext.
  intros i [k it] Hk. simpl.
  apply list_elem_of_lookup_2, elem_of_map_to_list in Hk. by apply Hsaved.
Qed.

Lemma init_spec h files :
  saved_by_store files →
  (LongTermMemory.init h files).1 = h ++ (map_to_list files).*2
  ∧ storage (LongTermMemory.init h files).2 = files
  ∧ (∀ x it, files !! x = Some it →
       ∃ l, index (LongTermMemory.init h files).2 !! x = Some l
            ∧ length h ≤ l
            ∧ (LongTermMemory.init h files).1 !!! l = it)
  ∧ (∀ x, files !! x = None → index (LongTermMemory.init h files).2 !! x = None).
Proof.
  intros Hsaved. unfold LongTermMemory.init, _load_memories. cbn [storage].
  destruct (load_all_spec (map_to_list files).*2 h (LongTermMemory.mk ∅ ∅ ∅ files))
    as (Hh & Hst & Hix & Hother).
  { rewrite saved_ids by done. apply NoDup_fst_map_to_list. }
  split; [done|]. split; [done|]. split.
  - intros x it Hx. apply elem_of_map_to_list, list_elem_of_lookup_1 in Hx as [i Hi].
    assert (Hi' : (map_to_list files).*2 !! i = Some it)
      by by rewrite list_lookup_fmap, Hi.
    exists (length h + i). rewrite <- (Hsaved x it) at 1.
    + split; [by apply Hix|]. split; [lia|]. rewrite Hh.
      rewrite lookup_total_app_r by lia.
      replace (length h + i - length h) with i by lia.
      by apply list_lookup_total_correct.
    + apply elem_of_map_to_list. by eapply list_elem_of_lookup_2.
  - intros x Hx. rewrite Hother; [done|].
    rewrite saved_ids by done.
    intros ([k it] & -> & Hk)%list_elem_of_fmap.
    apply elem_of_map_to_list in Hk. simpl in Hx. congruence.
Qed.

(** X6. Creating a [LongTermMemory] on a directory whose files are
    those written by [_save_memory] indexes exactly the ids of the
    files, each under a fresh object equal to its record, with the id in
    the buckets of the record's tags and type and of no other key; the
    directory and the objects that existed before are left as they
    were. *)
Theorem ltm_init_round_trip h files :
  saved_by_store files →
  storage (LongTermMemory.init h files).2 = files
  ∧ (∀ l, l < length h → (LongTermMemory.init h files).1 !!! l = h !!! l)
  ∧ (∀ x, files !! x = None → index (LongTermMemory.init h files).2 !! x = None)
  ∧ (∀ x it, files !! x = Some it →
       ∃ l, index (LongTermMemory.init h files).2 !! x = Some l
            ∧ length h ≤ l
            ∧ (LongTermMemory.init h files).1 !!! l = it
            ∧ (∀ t, in_bucket (tag_index (LongTermMemory.init h files).2) t x
                    ↔ t ∈ tags it)
            ∧ (∀ k, in_bucket (type_index (LongTermMemory.init h files).2) k x
                    ↔ k = memory_type it)).
Proof.
  intros Hsaved.
  destruct (init_spec h files Hsaved) as (Hh & Hst & Hix & Hnone).
  destruct (init_exact h files Hsaved) as (_ & Htag & Htyp).
  split; [done|]. split; [|split; [done|]].
  - intros l Hl. rewrite Hh. by apply lookup_total_app_l.
  - intros x it Hx. destruct (Hix x it Hx) as (l & Hl & Hfresh & Hobj).
    exists l. split; [done|]. split; [done|]. split; [done|]. split.
    + intros t. rewrite Htag. unfold tagged. rewrite <- Hobj. naive_solver.
    + intros k. rewrite Htyp. unfold typed. rewrite <- Hobj. naive_solver.
Qed.

Lemma ltm_init_round_trip_witness :
  saved_by_store (storage fact_ltm)
  ∧ ∃ l, index (LongTermMemory.init [] (storage fact_ltm)).2 !! "f1" = Some l
         ∧ (LongTermMemory.init [] (storage fact_ltm)).1 !!! l = fact_item.
Proof.
  assert (Hs : saved_by_store (storage fact_ltm)).
  { intros stem it Hit. change (storage fact_ltm) with
      (<["f1" := fact_item]> (∅ : gmap string MemoryItem)) in Hit.
    apply lookup_insert_Some in Hit as [[<- <-]|[_ Hit]]; [done|].
    by rewrite lookup_empty in Hit. }
  split; [exact Hs|].
  destruct (ltm_init_round_trip [] (storage fact_ltm) Hs) as (_ & _ & _ & Hix).
  destruct (Hix "f1" fact_item) as (l & Hl & _ & Hobj & _);
    [vm_compute; reflexivity|].
  exists l. split; [exact Hl|exact Hobj].
Defined.

(** ** The directory follows the operations of the long-term memory *)

Lemma ltm_store_storage h m l :
  storage (LongTermMemory.store h m l)
  = <[memory_id (h !!! l) := h !!! l]> (storage m).
Proof. done. Qed.

Lemma modify_lookup_same (h : Heap) l f :
  l < length h → modify h l f !!! l = f (h !!! l).
Proof. intros Hl. unfold modify. by rewrite list_lookup_total_insert_eq. Qed.

Lemma modify_lookup_other (h : Heap) l l' f :
  l' ≠ l → modify h l f !!! l' = h !!! l'.
Proof. intros Hl. unfold modify. by rewrite list_lookup_total_insert_ne. Qed.

Lemma modify_length (h : Heap) l f : length (modify h l f) = length h.
Proof. unfold modify. by rewrite length_insert. Qed.

Lemma remove_all_storage_other h ids : ∀ m x,
  x ∉ ids → storage (foldl (remove_one h) m ids) !! x = storage m !! x.
Proof.
  induction ids as [|mid ids IH]; intros m x Hx; cbn [foldl]; [done|].
  apply not_elem_of_cons in Hx as [Hne Hx]. rewrite IH by done.
  unfold remove_one. destruct (index m !! mid); [|done].
  cbn [storage]. by rewrite lookup_delete_ne.
Qed.

Lemma ltm_synced_init h files :
  saved_by_store files →
  ltm_synced (LongTermMemory.init h files).1 (LongTermMemory.init h files).2.
Proof.
  intros Hsaved.
  destruct (init_spec h files Hsaved) as (_ & Hst & Hix & Hnone).
  destruct (init_exact h files Hsaved) as (Hkey & _ & _).
  split.
  - intros x l Hl. destruct (Hkey x l Hl) as [Hlt Hid].
    split; [done|]. split; [done|]. rewrite Hst.
    destruct (files !! x) as [it|] eqn:Hx.
    + destruct (Hix x it Hx) as (l' & Hl' & _ & Hobj). by simplify_eq.
    + rewrite (Hnone x Hx) in Hl. done.
  - intros x [it Hx]. rewrite Hst in Hx.
    destruct (Hix x it Hx) as (l & Hl & _). by exists l.
Qed.

Lemma ltm_synced_store h m l :
  l < length h → ltm_synced h m → ltm_synced h (LongTermMemory.store h m l).
Proof.
  intros Hl [Hsync Hdom]. split.
  - intros x l'. rewrite ltm_store_index, ltm_store_storage.
    destruct (decide (memory_id (h !!! l) = x)) as [<-|Hne].
    + rewrite !lookup_insert_eq. by intros [= <-].
    + rewrite !lookup_insert_ne by done. apply Hsync.
  - intros x. rewrite ltm_store_index, ltm_store_storage.
    destruct (decide (memory_id (h !!! l) = x)) as [<-|Hne].
    + by rewrite !lookup_insert_eq.
    + rewrite !lookup_insert_ne by done. apply Hdom.
Qed.

Lemma ltm_synced_retrieve h m mid now :
  ltm_synced h m →
  ltm_synced (LongTermMemory.retrieve h m mid now).1.1
    (LongTermMemory.retrieve h m mid now).1.2.
Proof.
  intros [Hsync Hdom]. unfold LongTermMemory.retrieve.
  destruct (index m !! mid) as [l|] eqn:Hmid; [|done]. cbn [fst snd].
  destruct (Hsync mid l Hmid) as (Hl & Hid & _).
  rewrite modify_lookup_same by done.
  set (f := set_access (access_count (h !!! l) + 1) now (importance (h !!! l))).
  assert (Hid' : memory_id (f (h !!! l)) = mid) by done.
  unfold _save_memory. rewrite Hid'.
  split; cbn [index storage].
  - intros x l' Hx. rewrite modify_length.
    destruct (Hsync x l' Hx) as (Hl' & Hidx & Hst').
    destruct (decide (l' = l)) as [->|Hne].
    + rewrite modify_lookup_same by done. rewrite Hid in Hidx. subst x.
      by rewrite lookup_insert_eq.
    + rewrite modify_lookup_other by done.
      rewrite lookup_insert_ne; [done|]. intros <-. congruence.
  - intros x. destruct (decide (mid = x)) as [<-|Hne].
    + by rewrite Hmid.
    + rewrite lookup_insert_ne by done. apply Hdom.
Qed.

Lemma ltm_synced_prune h m min_imp max_age now :
  ltm_synced h m → ltm_synced h (prune h m min_imp max_age now).1.
Proof.
  intros [Hsync Hdom]. unfold prune. cbn [fst].
  set (ids := to_remove h m min_imp max_age now). split.
  - intros x l. rewrite remove_all_index. case_decide as Hx; [done|].
    rewrite remove_all_storage_other by done. apply Hsync.
  - intros x Hst. rewrite remove_all_index.
    destruct (decide (x ∈ ids)) as [Hx|Hx].
    + rewrite remove_all_storage in Hst; [by destruct Hst|done|].
      apply elem_of_to_remove in Hx as (l & -> & _). done.
    + rewrite remove_all_storage_other in Hst by done. by apply Hdom.
Qed.

Lemma ltm_synced_alloc h m it : ltm_synced h m → ltm_synced (h ++ [it]) m.
Proof.
  intros [Hsync Hdom]. split; [|done].
  intros x l Hx. destruct (Hsync x l Hx) as (Hl & Hid & Hst).
  rewrite length_app, lookup_total_alloc_old by done. split; [lia|done].
Qed.

Lemma ltm_own_reachable_synced s : ltm_own_reachable s → ltm_synced s.1 s.2.
Proof.
  induction 1 as [h files Hsaved|s s' _ IH Hstep].
  - by apply ltm_synced_init.
  - destruct Hstep; cbn [fst snd] in *.
    + by apply ltm_synced_store.
    + by apply ltm_synced_retrieve.
    + by apply ltm_synced_prune.
    + by apply ltm_synced_alloc.
Qed.

Lemma ltm_synced_saved h m : ltm_synced h m → saved_by_store (storage m).
Proof.
  intros [Hsync Hdom] x it Hx.
  destruct (Hdom x) as [l Hl]; [done|].
  destruct (Hsync x l Hl) as (_ & Hid & Hst). congruence.
Qed.

Lemma ltm_synced_restart h m h0 :
  ltm_synced h m →
  (∀ x, index m !! x = None →
        index (LongTermMemory.init h0 (storage m)).2 !! x = None)
  ∧ (∀ x l, index m !! x = Some l →
       ∃ l', index (LongTermMemory.init h0 (storage m)).2 !! x = Some l'
             ∧ (LongTermMemory.init h0 (storage m)).1 !!! l' = h !!! l).
Proof.
  intros Hs. pose proof (ltm_synced_saved h m Hs) as Hsaved.
  destruct Hs as [Hsync Hdom].
  destruct (init_spec h0 (storage m) Hsaved) as (_ & _ & Hix & Hnone).
  split.
  - intros x Hx. apply Hnone.
    destruct (storage m !! x) eqn:Hst; [|done].
    destruct (Hdom x) as [l Hl]; [done|congruence].
  - intros x l Hl. destruct (Hsync x l Hl) as (_ & _ & Hst).
    destruct (Hix x _ Hst) as (l' & Hl' & _ & Hobj). by exists l'.
Qed.

(** X7. After any sequence of [store], [retrieve] and [prune] on a
    long-term memory loaded from its directory, the directory holds the
    current state of exactly the indexed items: a new [LongTermMemory]
    created on it indexes the same ids, each with an object equal, field
    by field, to the one in memory (access count and last access
    included), and buckets for the tags and type of these objects only. *)
Theorem ltm_restart_reproduces h m h0 :
  ltm_own_reachable (h, m) →
  saved_by_store (storage m)
  ∧ (∀ x, index m !! x = None →
          index (LongTermMemory.init h0 (storage m)).2 !! x = None)
  ∧ (∀ x l, index m !! x = Some l →
       storage m !! x = Some (h !!! l)
       ∧ ∃ l', index (LongTermMemory.init h0 (storage m)).2 !! x = Some l'
               ∧ (LongTermMemory.init h0 (storage m)).1 !!! l' = h !!! l
               ∧ (∀ t, in_bucket
                         (tag_index (LongTermMemory.init h0 (storage m)).2) t x
                       ↔ t ∈ tags (h !!! l))).
Proof.
  intros Hs%ltm_own_reachable_synced. cbn [fst snd] in Hs.
  pose proof (ltm_synced_saved h m Hs) as Hsaved.
  destruct (ltm_synced_restart h m h0 Hs) as [Hnone Hsome].
  destruct (init_exact h0 (storage m) Hsaved) as (_ & Htag & _).
  split; [done|]. split; [done|].
  intros x l Hl. split; [by apply Hs|].
  destruct (Hsome x l Hl) as (l' & Hl' & Hobj).
  exists l'. split; [done|]. split; [done|].
  intros t. rewrite Htag. unfold tagged. rewrite <- Hobj. naive_solver.
Qed.

Lemma memo_reachable : ltm_own_reachable (memo_heap, long_term memo_sys).
Proof.
  eapply own_step; [eapply own_step; [apply (own_init [] ∅)|]|].
  - by intros stem it ?.
  - apply (own_alloc [] fresh_ltm
             (new_item demo_sha16
                (mkCall "memo" "semantic" (dq 0.9) None None idea_clock))).
  - apply (own_store memo_heap fresh_ltm 0). vm_compute. lia.
Qed.

Lemma ltm_restart_reproduces_witness :
  ltm_own_reachable (memo_heap, long_term memo_sys)
  ∧ ∃ l', index (LongTermMemory.init [] (storage (long_term memo_sys))).2
            !! "memo@0" = Some l'
          ∧ (LongTermMemory.init [] (storage (long_term memo_sys))).1 !!! l'
            = memo_heap !!! 0.
Proof.
  split; [exact memo_reachable|].
  destruct (ltm_restart_reproduces memo_heap (long_term memo_sys) []
              memo_reachable) as (_ & _ & Hsome).
  destruct (Hsome "memo@0" 0) as (_ & l' & Hl' & Hobj & _);
    [vm_compute; reflexivity|].
  exists l'. split; [exact Hl'|exact Hobj].
Defined.

(** X8. An item held by both memories is one object.  A
    [ShortTermMemory.retrieve] of it raises the access count and the
    importance that the long-term index sees, but writes no file: the
    directory keeps the previous state, which is what a restart loads.
    The next [LongTermMemory.retrieve] writes the object with both
    updates. *)
Theorem stm_retrieve_not_persisted h stm m x l now h0 :
  ltm_own_reachable (h, m) →
  index m !! x = Some l →
  item_map stm !! x = Some l →
  let h1 := (ShortTermMemory.retrieve h stm x now).1 in
  access_count (h1 !!! l) = (access_count (h !!! l) + 1)%Z
  ∧ importance (h1 !!! l) = bump (importance (h !!! l))
  ∧ storage m !! x = Some (h !!! l)
  ∧ ¬ ltm_synced h1 m
  ∧ (∃ l', index (LongTermMemory.init h0 (storage m)).2 !! x = Some l'
           ∧ (LongTermMemory.init h0 (storage m)).1 !!! l' = h !!! l)
  ∧ (∀ now2,
       let r := LongTermMemory.retrieve h1 m x now2 in
       r.2 = Some l
       ∧ storage r.1.2 !! x = Some (r.1.1 !!! l)
       ∧ access_count (r.1.1 !!! l) = (access_count (h !!! l) + 2)%Z
       ∧ importance (r.1.1 !!! l) = bump (importance (h !!! l))).
Proof.
  intros Hs%ltm_own_reachable_synced Hx Hstm. cbn [fst snd] in Hs.
  destruct (ltm_synced_restart h m h0 Hs) as [_ Hsome].
  destruct Hs as [Hsync Hdom].
  destruct (Hsync x l Hx) as (Hl & Hid & Hst).
  unfold ShortTermMemory.retrieve. rewrite Hstm. cbn [fst snd].
  set (f := set_access (access_count (h !!! l) + 1) now
              (py_min (dq 1.0) (fadd (importance (h !!! l)) (dq 0.05)))).
  assert (Hobj : modify h l f !!! l = f (h !!! l))
    by by apply modify_lookup_same.
  split; [by rewrite Hobj|]. split; [by rewrite Hobj|]. split; [done|].
  split; [|split].
  - intros [Hsync' _]. destruct (Hsync' x l Hx) as (_ & _ & Hst').
    rewrite Hst, Hobj in Hst'. injection Hst' as Heq.
    apply (f_equal access_count) in Heq. simpl in Heq. lia.
  - by apply Hsome.
  - intros now2. unfold LongTermMemory.retrieve. rewrite Hx. cbn [fst snd].
    rewrite modify_lookup_same by by rewrite modify_length.
    rewrite Hobj. unfold _save_memory. cbn [storage].
    split; [done|]. split.
    + change (memory_id _) with (memory_id (h !!! l)). rewrite Hid.
      by rewrite lookup_insert_eq.
    + split; [simpl; lia|done].
Qed.

Lemma stm_retrieve_not_persisted_witness :
  ltm_own_reachable (memo_heap, long_term memo_sys)
  ∧ index (long_term memo_sys) !! "memo@0" = Some 0
  ∧ item_map (short_term memo_sys) !! "memo@0" = Some 0
  ∧ importance
      ((ShortTermMemory.retrieve memo_heap (short_term memo_sys) "memo@0" 60).1
         !!! 0) = bump (dq 0.9)
  ∧ storage (long_term memo_sys) !! "memo@0" = Some (memo_heap !!! 0).
Proof.
  assert (Hx : index (long_term memo_sys) !! "memo@0" = Some 0)
    by (vm_compute; reflexivity).
  assert (Hstm : item_map (short_term memo_sys) !! "memo@0" = Some 0)
    by (vm_compute; reflexivity).
  split; [exact memo_reachable|]. split; [exact Hx|]. split; [exact Hstm|].
  destruct (stm_retrieve_not_persisted memo_heap (short_term memo_sys)
              (long_term memo_sys) "memo@0" 0 60 [] memo_reachable Hx Hstm)
    as (_ & Himp & Hst & _).
  split; [exact Himp|exact Hst].
Defined.

(** ** What [prune] reports and what it leaves *)

Lemma to_remove_NoDup h m min_imp max_age now :
  NoDup (to_remove h m min_imp max_age now).
Proof.
  unfold to_remove.
  eapply sublist_NoDup; [apply (NoDup_fst_map_to_list (index m))|].
  apply fmap_sublist, sublist_filter.
Qed.

Lemma remove_all_size h ids : ∀ m,
  NoDup ids → (∀ x, x ∈ ids → is_Some (index m !! x)) →
  size (index (foldl (remove_one h) m ids)) + length ids = size (index m).
Proof.
  induction ids as [|mid ids IH]; intros m Hnd Hin; cbn [foldl length]; [lia|].
  pose proof (NoDup_cons_1_1 _ _ Hnd) as Hnotin.
  pose proof (NoDup_cons_1_2 _ _ Hnd) as Hnd'.
  rewrite Nat.add_succ_r, IH; [|done|].
  - rewrite remove_one_index.
    assert (Hmid : is_Some (index m !! mid)) by (apply Hin; by left).
    rewrite map_size_delete_Some by done.
    assert (size (index m) ≠ 0); [|lia].
    intros Hz. apply map_size_empty_inv in Hz. rewrite Hz, lookup_empty in Hmid.
    by destruct Hmid.
  - intros x Hx. rewrite remove_one_index, lookup_delete_ne.
    + apply Hin. by right.
    + by intros ->.
Qed.

Lemma discard_all_dom ts x (d : gmap string (gset string)) :
  dom (foldl (λ ti tag, bucket_discard tag x ti) d ts) = dom d.
Proof.
  revert d. induction ts as [|t ts IH]; intros d; cbn [foldl]; [done|].
  rewrite IH. unfold bucket_discard. apply dom_alter_L.
Qed.

Lemma remove_all_dom h ids : ∀ m,
  dom (tag_index (foldl (remove_one h) m ids)) = dom (tag_index m)
  ∧ dom (type_index (foldl (remove_one h) m ids)) = dom (type_index m).
Proof.
  induction ids as [|mid ids IH]; intros m; cbn [foldl]; [done|].
  destruct (IH (remove_one h m mid)) as [-> ->].
  unfold remove_one. destruct (index m !! mid); [|done].
  cbn [tag_index type_index]. split.
  - apply discard_all_dom.
  - unfold bucket_discard. apply dom_alter_L.
Qed.

(** X9. [prune] returns the number of ids it removes from the primary
    map; the ids it keeps map to the same objects, none of which meets
    the removal condition; the records of the directory under ids that
    are not indexed are not deleted; the keys of the tag and type
    dictionaries all stay, with emptied buckets where every id went; a
    second [prune] with the same arguments and clock reading removes
    nothing and returns 0. *)
Theorem prune_report h m min_imp max_age now :
  size (index (prune h m min_imp max_age now).1)
    + (prune h m min_imp max_age now).2 = size (index m)
  ∧ (∀ x l, index (prune h m min_imp max_age now).1 !! x = Some l ↔
            index m !! x = Some l ∧ prunable h min_imp max_age now l = false)
  ∧ (∀ x, index m !! x = None →
          storage (prune h m min_imp max_age now).1 !! x = storage m !! x)
  ∧ dom (tag_index (prune h m min_imp max_age now).1) = dom (tag_index m)
  ∧ dom (type_index (prune h m min_imp max_age now).1) = dom (type_index m)
  ∧ prune h (prune h m min_imp max_age now).1 min_imp max_age now
    = ((prune h m min_imp max_age now).1, 0).
Proof.
  assert (Hkeep : ∀ x l,
    index (prune h m min_imp max_age now).1 !! x = Some l ↔
    index m !! x = Some l ∧ prunable h min_imp max_age now l = false).
  { intros x l. unfold prune. cbn [fst]. rewrite remove_all_index.
    case_decide as Hx.
    - apply elem_of_to_remove in Hx as (l' & Hl' & Hp). split; [done|].
      intros [Hl Hnp]. congruence.
    - split; [|by intros []]. intros Hl. split; [done|].
      destruct (prunable h min_imp max_age now l) eqn:Hp; [|done].
      destruct Hx. apply elem_of_to_remove. by exists l. }
  split; [|split; [done|split; [|split; [|split]]]].
  - unfold prune. cbn [fst snd]. apply remove_all_size.
    + apply to_remove_NoDup.
    + intros x (l & -> & _)%elem_of_to_remove. done.
  - intros x Hx. unfold prune. cbn [fst]. apply remove_all_storage_other.
    intros (l & Hl & _)%elem_of_to_remove. congruence.
  - unfold prune. cbn [fst]. apply remove_all_dom.
  - unfold prune. cbn [fst]. apply remove_all_dom.
  - assert (Hnil : to_remove h (prune h m min_imp max_age now).1
                     min_imp max_age now = []).
    { apply elem_of_nil_inv. intros x (l & Hl & Hp)%elem_of_to_remove.
      apply Hkeep in Hl as [_ Hnp]. congruence. }
    unfold prune at 1. by rewrite Hnil.
Qed.

Lemma prune_report_witness :
  index old_ltm !! "other" = None
  ∧ (prune [old_item] old_ltm (dq 0.1) 365 day400).2 = 1
  ∧ storage (prune [old_item] old_ltm (dq 0.1) 365 day400).1 !! "other"
    = storage old_ltm !! "other".
Proof.
  destruct (prune_report [old_item] old_ltm (dq 0.1) 365 day400)
    as (_ & _ & Hst & _).
  split; [by vm_compute|]. split; [by vm_compute|].
  apply Hst. by vm_compute.
Defined.

(** ** What [consolidate_memories] reports *)

Lemma consolidate_all_spec h rules now ls : ∀ ltm n,
  size (index (foldl (consolidate_one h rules now) (ltm, n) ls).1) + n
  = size (index ltm) + (foldl (consolidate_one h rules now) (ltm, n) ls).2
  ∧ ∀ x l,
      index (foldl (consolidate_one h rules now) (ltm, n) ls).1 !! x = Some l →
      index ltm !! x = Some l
      ∨ (index ltm !! x = None ∧ l ∈ ls ∧ promotable h rules now l
         ∧ memory_id (h !!! l) = x).
Proof.
  induction ls as [|l0 ls IH]; intros ltm n; cbn [foldl].
  { split; [cbn; lia|]. intros x l Hl. by left. }
  unfold consolidate_one at 2 4 6.
  destruct (qualifies (h !!! l0) _ rules) eqn:Hq.
  - destruct (index ltm !! memory_id (h !!! l0)) eqn:Hix.
    + destruct (IH ltm n) as [Hsize Hnew]. split; [done|].
      intros x l Hl. destruct (Hnew x l Hl) as [?|(? & ? & ? & ?)]; [by left|].
      right. split; [done|]. split; [by right|done].
    + destruct (IH (LongTermMemory.store h ltm l0) (S n)) as [Hsize Hnew].
      rewrite ltm_store_index in Hsize.
      rewrite map_size_insert_None in Hsize by done.
      split; [lia|].
      intros x l Hl. destruct (Hnew x l Hl) as [Hold|(Hnone & ? & ? & ?)].
      * rewrite ltm_store_index in Hold.
        apply lookup_insert_Some in Hold as [[<- <-]|[_ Hold]]; [|by left].
        right. split; [done|]. split; [by left|]. done.
      * rewrite ltm_store_index in Hnone.
        apply lookup_insert_None in Hnone as [Hnone _].
        right. split; [done|]. split; [by right|done].
  - destruct (IH ltm n) as [Hsize Hnew]. split; [done|].
    intros x l Hl. destruct (Hnew x l Hl) as [?|(? & ? & ? & ?)]; [by left|].
    right. split; [done|]. split; [by right|done].
Qed.

(** X10. [consolidate_memories] leaves working memory as it is (the
    promoted items stay in it) and keeps every entry of the long-term
    index; each entry it adds is an item of working memory that passes
    the rules at the clock reading, indexed under its id as the same
    object; the statistics it returns satisfy
    [ltm_count = (size of the index before) + consolidated] and
    [stm_count = len(short_term)]. *)
Theorem consolidate_report h s now :
  short_term (consolidate_memories h s now).1 = short_term s
  ∧ ltm_count (consolidate_memories h s now).2
    = size (index (long_term s)) + consolidated (consolidate_memories h s now).2
  ∧ ltm_count (consolidate_memories h s now).2
    = size (index (long_term (consolidate_memories h s now).1))
  ∧ stm_count (consolidate_memories h s now).2
    = length (get_all (short_term s))
  ∧ (∀ x l, index (long_term s) !! x = Some l →
            index (long_term (consolidate_memories h s now).1) !! x = Some l)
  ∧ (∀ x l, index (long_term (consolidate_memories h s now).1) !! x = Some l →
            index (long_term s) !! x = None →
            l ∈ get_all (short_term s)
            ∧ promotable h (consolidation_rules s) now l
            ∧ memory_id (h !!! l) = x).
Proof.
  unfold consolidate_memories.
  pose proof (consolidate_all_spec h (consolidation_rules s) now
                (get_all (short_term s)) (long_term s) 0) as [Hsize Hnew].
  pose proof (consolidate_all_index h (consolidation_rules s) now
                (get_all (short_term s)) (long_term s) 0) as Hold.
  destruct (foldl _ _ _) as [ltm n].
  cbn [fst snd LayeredMemorySystem.short_term LayeredMemorySystem.long_term
       ltm_count consolidated stm_count] in *.
  split; [done|]. split; [lia|]. split; [done|]. split; [done|].
  split; [done|].
  intros x l Hl Hnone. destruct (Hnew x l Hl) as [?|(_ & ? & ? & ?)]; [|done].
  congruence.
Qed.

Lemma consolidate_report_witness :
  index (long_term idea_sys) !! "idea@0" = None
  ∧ index (long_term (consolidate_memories idea_heap idea_sys minute30).1)
      !! "idea@0" = Some 0
  ∧ promotable idea_heap (consolidation_rules idea_sys) minute30 0.
Proof.
  assert (Hnone : index (long_term idea_sys) !! "idea@0" = None)
    by (vm_compute; reflexivity).
  assert (Hl : index (long_term (consolidate_memories idea_heap idea_sys
                                   minute30).1) !! "idea@0" = Some 0)
    by (vm_compute; reflexivity).
  split; [exact Hnone|]. split; [exact Hl|].
  destruct (consolidate_report idea_heap idea_sys minute30)
    as (_ & _ & _ & _ & _ & Hnew).
  by destruct (Hnew "idea@0" 0 Hl Hnone) as (_ & Hp & _).
Defined.

(** ** The combined search of the layered system *)

Lemma key_gt_false h a b : key_gt h b a = false ↔ key_ge h a b.
Proof.
  unfold key_gt, key_ge.
  rewrite orb_false_iff, andb_false_iff, Qc_ltb_false, !bool_decide_eq_false.
  split.
  - intros [Hle Hor]. apply Qcle_lt_or_eq in Hle as [Hlt|Heq]; [by left|].
    right. split; [done|]. destruct Hor as [Hne|Hac]; [by destruct Hne|lia].
  - intros [Hlt|[Heq Hac]].
    + split; [by apply Qclt_le_weak|]. left. intros Heq. rewrite Heq in Hlt.
      by apply Qclt_not_eq in Hlt.
    + split; [rewrite Heq; apply Qcle_refl|]. right. lia.
Qed.

Lemma key_ge_trans h a b c : key_ge h a b → key_ge h b c → key_ge h a c.
Proof.
  unfold key_ge. intros [Hab|[Hab Hab']] [Hbc|[Hbc Hbc']].
  - left. by eapply Qclt_trans.
  - left. by rewrite <- Hbc.
  - left. by rewrite Hab.
  - right. split; [congruence|lia].
Qed.

Lemma key_gt_asym h a b : key_gt h a b = true → key_gt h b a = false.
Proof.
  intros Hab. apply key_gt_false. unfold key_gt in Hab. unfold key_ge.
  apply orb_true_iff in Hab as [Hlt|Heq].
  - left. by apply bool_decide_eq_true in Hlt.
  - apply andb_true_iff in Heq as [Heq Hac].
    apply bool_decide_eq_true in Heq, Hac. right. split; [done|lia].
Qed.

Lemma StronglySorted_weaken {A} (R R' : relation A) l :
  (∀ a b, R a b → R' a b) → StronglySorted R l → StronglySorted R' l.
Proof.
  intros HR. induction 1 as [|x l Hl IH Hx]; constructor; [done|].
  eapply Forall_impl; [exact Hx|]. intros y. apply HR.
Qed.

Lemma key_sorted h l :
  StronglySorted (key_ge h) (sort_desc (key_gt h) l).
Proof.
  eapply StronglySorted_weaken; [|apply (sort_desc_sorted (key_gt h))].
  - intros a b. apply key_gt_false.
  - apply key_gt_asym.
  - intros x y z. rewrite !key_gt_false. intros ? ?. by eapply key_ge_trans.
Qed.

Lemma matched_empty h l : matched h "" l.
Proof. unfold matched. cbn. by destruct (py_lower _). Qed.

(** The matches of [LongTermMemory.search] before sorting. *)
Lemma ltm_scored h q its (scored : list (option (loc * Qc))) :
  mapM (LongTermMemory.score h (py_lower q)) its = Ok scored →
  (∀ p, p ∈ omap id scored →
        p.1 ∈ its ∧ matched h q p.1 ∧ word_count h p.1 ≠ 0
        ∧ p.2 = ltm_score h q p.1)
  ∧ (∀ l, l ∈ its → matched h q l → (l, ltm_score h q l) ∈ omap id scored).
Proof.
  intros Hsc. apply mapM_Ok in Hsc. split.
  - intros p (o & Ho & Hid)%list_elem_of_omap. simpl in Hid. subst o.
    destruct (Forall2_elem_r _ _ _ _ Hsc Ho) as (l & Hl & Hscore). simpl in Hscore.
    destruct (ltm_score_cases h q l) as [[_ Hs]|[(_ & _ & Hs)|(Hm & Hw & Hs)]];
      rewrite Hs in Hscore; simplify_eq. done.
  - intros l Hl Hm.
    destruct (Forall2_elem_l _ _ _ _ Hsc Hl) as (o & Ho & Hscore). simpl in Hscore.
    apply list_elem_of_omap. exists o. split; [done|].
    destruct (ltm_score_cases h q l) as [[Hn _]|[(_ & _ & Hs)|(_ & _ & Hs)]];
      [done|rewrite Hs in Hscore; simplify_eq..]. done.
Qed.

Lemma score_sorted (sc : loc → Qc) (ps : list (loc * Qc)) k :
  (∀ p, p ∈ ps → p.2 = sc p.1) →
  StronglySorted (λ a b, (sc b ≤ sc a)%Qc)
    (py_take k (sort_desc (λ x y : loc * Qc, Qc_ltb y.2 x.2) ps)).*1.
Proof.
  intros Hps.
  set (gt := λ x y : loc * Qc, Qc_ltb y.2 x.2).
  assert (Hsorted : StronglySorted (λ a b, gt b a = false) (sort_desc gt ps)).
  { apply sort_desc_sorted.
    - intros x y. apply Qc_ltb_asym.
    - intros x y z. unfold gt. rewrite !Qc_ltb_false.
      intros ? ?. by eapply Qcle_trans. }
  apply (StronglySorted_fmap fst
           (λ a b : loc * Qc, (a.2 = sc a.1) ∧ (b.2 = sc b.1) ∧ gt b a = false)).
  - intros a b (Ha & Hb & Hab). unfold gt in Hab.
    apply Qc_ltb_false in Hab. by rewrite <- Ha, <- Hb.
  - apply sorted_with; [by apply py_take_sorted|].
    apply list.Forall_forall. intros p Hp.
    apply py_take_subseteq in Hp. rewrite sort_desc_perm in Hp. by apply Hps.
Qed.

Lemma ltm_search_text h m a q tgs kind min_imp k r :
  LongTermMemory.search h m (Some (String a q)) tgs kind min_imp k = Ok r →
  (∀ l, l ∈ r → l ∈ ltm_survivors h m tgs kind min_imp
                ∧ matched h (String a q) l)
  ∧ StronglySorted
      (λ x y, (ltm_score h (String a q) y ≤ ltm_score h (String a q) x)%Qc) r
  ∧ ((0 ≤ k)%Z → length r ≤ Z.to_nat k)
  ∧ ((Z.of_nat (size (index m)) ≤ k)%Z →
     ∀ l, l ∈ ltm_survivors h m tgs kind min_imp →
          matched h (String a q) l → l ∈ r).
Proof.
  unfold LongTermMemory.search.
  change (filter _ (omap _ (elements (candidates m tgs kind))))
    with (ltm_survivors h m tgs kind min_imp).
  destruct (mapM _ (ltm_survivors h m tgs kind min_imp))
    as [scored|] eqn:Hsc; [|done].
  destruct (ltm_scored h (String a q) _ scored Hsc) as [Hsound Hcomplete].
  intros [= <-]. split; [|split; [|split]].
  - intros l ([l' sc] & -> & Hx)%list_elem_of_fmap.
    apply py_take_subseteq in Hx. rewrite sort_desc_perm in Hx.
    destruct (Hsound _ Hx) as (? & ? & _). done.
  - apply score_sorted. intros p Hp. by apply Hsound.
  - intros Hk. rewrite length_fmap. by apply py_take_length.
  - intros Hk l Hl Hm. apply list_elem_of_fmap.
    exists (l, ltm_score h (String a q) l).
    split; [done|]. rewrite py_take_all.
    + rewrite sort_desc_perm. by apply Hcomplete.
    + rewrite (Permutation_length (sort_desc_perm _ _)).
      pose proof (omap_length_le id scored).
      pose proof (ltm_survivors_length h m tgs kind min_imp).
      apply mapM_Ok, Forall2_length in Hsc. lia.
Qed.

Lemma ltm_search_blank h m tgs kind min_imp k :
  LongTermMemory.search h m (Some "") tgs kind min_imp k
  = Ok (py_take k (sort_desc (key_gt h) (ltm_survivors h m tgs kind min_imp))).
Proof. done. Qed.

Lemma ltm_search_sound h m q tgs kind min_imp k r :
  LongTermMemory.search h m (Some q) tgs kind min_imp k = Ok r →
  (∀ l, l ∈ r → l ∈ ltm_survivors h m tgs kind min_imp ∧ matched h q l)
  ∧ ((0 ≤ k)%Z → length r ≤ Z.to_nat k).
Proof.
  destruct q as [|a q].
  - rewrite ltm_search_blank. intros [= <-]. split.
    + intros l Hl%py_take_subseteq. rewrite sort_desc_perm in Hl.
      split; [done|apply matched_empty].
    + apply py_take_length.
  - intros (Hin & _ & Hlen & _)%ltm_search_text. done.
Qed.

Lemma unique_by_id_spec h rs : ∀ seen,
  NoDup ((λ l, memory_id (h !!! l)) <$> unique_by_id h seen rs)
  ∧ unique_by_id h seen rs `sublist_of` rs
  ∧ (∀ l, l ∈ unique_by_id h seen rs → memory_id (h !!! l) ∉ seen)
  ∧ (∀ l, l ∈ rs → memory_id (h !!! l) ∉ seen →
          ∃ l', l' ∈ unique_by_id h seen rs
                ∧ memory_id (h !!! l') = memory_id (h !!! l)).
Proof.
  induction rs as [|l0 rs IH]; intros seen; cbn [unique_by_id].
  { split; [constructor|]. split; [done|]. split; by intros l ?%elem_of_nil. }
  case_decide as Hseen.
  - destruct (IH seen) as (Hnd & Hsub & Hnew & Hall).
    split; [done|]. split; [by apply sublist_cons|]. split; [done|].
    intros l [->|Hl]%elem_of_cons Hl'; [done|by apply Hall].
  - destruct (IH ({[memory_id (h !!! l0)]} ∪ seen)) as (Hnd & Hsub & Hnew & Hall).
    split; [|split; [|split]].
    + rewrite fmap_cons. constructor; [|done].
      intros (l & Heq & Hl)%list_elem_of_fmap. apply (Hnew l Hl). set_solver.
    + by apply sublist_skip.
    + intros l [->|Hl]%elem_of_cons; [done|]. specialize (Hnew l Hl). set_solver.
    + intros l [->|Hl]%elem_of_cons Hl'.
      * exists l0. split; [by left|done].
      * destruct (decide (memory_id (h !!! l) = memory_id (h !!! l0))) as [Heq|Hne].
        -- exists l0. split; [by left|done].
        -- destruct (Hall l Hl) as (l' & ? & ?); [set_solver|].
           exists l'. split; [by right|done].
Qed.

Lemma merge_results h r1 r2 :
  (∀ l, l ∈ sort_desc (key_gt h) (unique_by_id h ∅ (r1 ++ r2)) →
        l ∈ r1 ∨ l ∈ r2)
  ∧ NoDup ((λ l, memory_id (h !!! l))
             <$> sort_desc (key_gt h) (unique_by_id h ∅ (r1 ++ r2)))
  ∧ StronglySorted (key_ge h)
      (sort_desc (key_gt h) (unique_by_id h ∅ (r1 ++ r2)))
  ∧ length (sort_desc (key_gt h) (unique_by_id h ∅ (r1 ++ r2)))
    ≤ length r1 + length r2
  ∧ (∀ l, l ∈ r1 ++ r2 →
       ∃ l', l' ∈ sort_desc (key_gt h) (unique_by_id h ∅ (r1 ++ r2))
             ∧ memory_id (h !!! l') = memory_id (h !!! l)).
Proof.
  destruct (unique_by_id_spec h (r1 ++ r2) ∅) as (Hnd & Hsub & _ & Hall).
  split; [|split; [|split; [|split]]].
  - intros l Hl. rewrite sort_desc_perm in Hl.
    by apply elem_of_app, (elem_of_sublist _ _ _ Hl Hsub).
  - by rewrite sort_desc_perm.
  - apply key_sorted.
  - rewrite (Permutation_length (sort_desc_perm _ _)).
    apply sublist_length in Hsub. by rewrite length_app in Hsub.
  - intros l Hl. destruct (Hall l Hl) as (l' & Hl' & Hid); [set_solver|].
    exists l'. split; [by rewrite sort_desc_perm|done].
Qed.

(** X11. A successful [LayeredMemorySystem.retrieve] returns items of
    working memory and, with [search_both], of the long-term index, all
    matching the query, no two with the same id (an item held by both
    memories comes once), ordered by descending
    [(importance, access_count)]; at most 10 of them, and at most 5
    without [search_both]. *)
Theorem lms_retrieve_results h s q both r :
  LayeredMemorySystem.retrieve h s q both = Ok r →
  (∀ l, l ∈ r →
        matched h q l
        ∧ (l ∈ get_all (short_term s)
           ∨ (both = true ∧ ∃ x, index (long_term s) !! x = Some l)))
  ∧ NoDup ((λ l, memory_id (h !!! l)) <$> r)
  ∧ StronglySorted (key_ge h) r
  ∧ length r ≤ 10
  ∧ (both = false → length r ≤ 5).
Proof.
  unfold LayeredMemorySystem.retrieve.
  destruct (ShortTermMemory.search h (short_term s) q 5) as [r1|] eqn:H1;
    [|done].
  destruct (stm_search_sound h (short_term s) q 5 r1 H1) as [Hin1 Hlen1].
  specialize (Hlen1 ltac:(lia)).
  destruct both.
  - destruct (LongTermMemory.search h (long_term s) (Some q) None None
                (dq 0.0) 5) as [r2|] eqn:H2; [|done].
    destruct (ltm_search_sound _ _ _ _ _ _ _ _ H2) as [Hin2 Hlen2].
    specialize (Hlen2 ltac:(lia)).
    cbn. intros [= <-].
    destruct (merge_results h r1 r2) as (Hin & Hnd & Hsorted & Hlen & _).
    split; [|split; [done|split; [done|split; [|done]]]].
    + intros l [Hl|Hl]%Hin.
      * destruct (Hin1 l Hl). split; [done|by left].
      * destruct (Hin2 l Hl) as [Hsurv Hm].
        apply elem_of_ltm_survivors in Hsurv as (x & _ & Hx & _).
        split; [done|]. right. split; [done|]. by exists x.
    + change (Z.to_nat 5) with 5 in *. lia.
  - cbn. intros [= <-].
    destruct (merge_results h r1 []) as (Hin & Hnd & Hsorted & Hlen & _).
    change (Z.to_nat 5) with 5 in *. cbn [length] in Hlen.
    split; [|split; [done|split; [done|split; [lia|intros _; lia]]]].
    intros l [Hl|Hl]%Hin; [|by apply elem_of_nil in Hl].
    destruct (Hin1 l Hl). split; [done|by left].
Qed.

Lemma lms_retrieve_results_witness :
  LayeredMemorySystem.retrieve memo_heap memo_sys "memo" true = Ok [0]
  ∧ index (long_term memo_sys) !! "memo@0" = Some 0
  ∧ get_all (short_term memo_sys) = [0]
  ∧ matched memo_heap "memo" 0.
Proof.
  assert (Hr : LayeredMemorySystem.retrieve memo_heap memo_sys "memo" true
               = Ok [0]) by (vm_compute; reflexivity).
  split; [exact Hr|].
  split; [vm_compute; reflexivity|]. split; [vm_compute; reflexivity|].
  destruct (lms_retrieve_results memo_heap memo_sys "memo" true [0] Hr)
    as (Hin & _).
  destruct (Hin 0) as [Hm _]; [by left|]. exact Hm.
Defined.

(** ** Text search in long-term memory *)

Lemma candidates_spec m tgs kind x :
  x ∈ candidates m tgs kind →
  is_Some (index m !! x)
  ∧ (∀ t0 ts, tgs = Some (t0 :: ts) →
       ∃ t, t ∈ t0 :: ts ∧ in_bucket (tag_index m) t x)
  ∧ (∀ c k, kind = Some (String c k) →
       is_Some (type_index m !! String c k) →
       in_bucket (type_index m) (String c k) x).
Proof.
  intros Hx. split; [|split].
  - apply elem_of_dom. by eapply candidates_indexed.
  - intros t0 ts ->. unfold candidates in Hx.
    assert (Hu : x ∈ dom (index m)
                   ∩ foldl (λ acc tag, acc ∪ default ∅ (tag_index m !! tag))
                       ∅ (t0 :: ts)).
    { destruct kind as [[|c k]|]; [done| |done].
      destruct (type_index m !! String c k); [|done].
      by apply elem_of_intersection in Hx as [? _]. }
    apply elem_of_intersection in Hu as [_ Hu].
    apply in_bucket_union_all in Hu as [Hu|Hu]; [|done].
    by apply not_elem_of_empty in Hu.
  - intros c k -> [ids Hids]. unfold candidates in Hx. rewrite Hids in Hx.
    apply elem_of_intersection in Hx as [_ Hx].
    unfold in_bucket. by rewrite Hids.
Qed.



(** ** The status report *)

Lemma py_div_cases a b :
  (b = 0 ∧ py_div a b = ZeroDivisionError)
  ∨ (b ≠ 0 ∧ py_div a b = Ok (Qc_of_Z (Z.of_nat a) / Qc_of_Z (Z.of_nat b))%Qc).
Proof. unfold py_div. case_decide; [by left|by right]. Qed.

Lemma ratio_unit a b :
  b ≠ 0 → a ≤ b →
  (dq 0 ≤ Qc_of_Z (Z.of_nat a) / Qc_of_Z (Z.of_nat b))%Qc
  ∧ (Qc_of_Z (Z.of_nat a) / Qc_of_Z (Z.of_nat b) ≤ dq 1)%Qc.
Proof.
  intros Hb Hab.
  assert (Hb' : (0 < inject_Z (Z.of_nat b))%Q).
  { change 0%Q with (inject_Z 0). rewrite <- Zlt_Qlt. lia. }
  assert (Ha' : (0 <= inject_Z (Z.of_nat a))%Q).
  { change 0%Q with (inject_Z 0). rewrite <- Zle_Qle. lia. }
  assert (Hab' : (inject_Z (Z.of_nat a) <= inject_Z (Z.of_nat b))%Q).
  { rewrite <- Zle_Qle. lia. }
  rewrite dq_0, dq_1. split; qc_to_Q.
  - apply Qle_shift_div_l; [done|]. lra.
  - apply Qle_shift_div_r; [done|]. lra.
Qed.

Lemma deque_append_length n d l :
  length d ≤ n → length (deque_append n d l) ≤ n.
Proof.
  intros Hd. rewrite deque_append_keep_last by done.
  rewrite keep_last_length. lia.
Qed.

Lemma lms_reachable_bounded sha16 hs :
  lms_reachable sha16 hs → stm_bounded (short_term hs.2).
Proof.
  induction 1 as [h cap ret files|[h s] hs' _ IH Hstep].
  - unfold LayeredMemorySystem.init.
    destruct (LongTermMemory.init h files) as [h1 ltm].
    unfold stm_bounded. cbn. lia.
  - simpl in IH. inversion Hstep as [h0 s0 text mtype imp tgs ctx force clk|
                                     h0 s0 now|h0 s0 t1 t2]; subst.
    + destruct (lms_store_spec sha16 h s text mtype imp tgs ctx force clk)
        as (im & ltm & ->). unfold stm_bounded. cbn.
      by apply deque_append_length.
    + unfold consolidate_memories. by destruct (foldl _ _ _).
    + unfold auto_maintain, consolidate_memories. by destruct (foldl _ _ _).
Qed.

(** X13. In a system driven through its methods, [get_memory_status]
    raises [ZeroDivisionError] exactly when the system was created with
    [stm_capacity = 0]; otherwise it reports the number of items of
    working memory, the capacity, a utilization
    [count / capacity] between 0 and 1, the average importance 0 for an
    empty working memory, the statistics of long-term memory and the
    two consolidation rules. *)
Theorem memory_status_report sha16 h s :
  lms_reachable sha16 (h, s) →
  (max_capacity (short_term s) = 0 ∧ get_memory_status h s = ZeroDivisionError)
  ∨ (max_capacity (short_term s) ≠ 0
     ∧ ∃ st,
         get_memory_status h s = Ok st
         ∧ st_count (status_short_term st) = length (get_all (short_term s))
         ∧ st_capacity (status_short_term st) = max_capacity (short_term s)
         ∧ st_utilization (status_short_term st)
           = (Qc_of_Z (Z.of_nat (length (get_all (short_term s))))
              / Qc_of_Z (Z.of_nat (max_capacity (short_term s))))%Qc
         ∧ (dq 0 ≤ st_utilization (status_short_term st))%Qc
         ∧ (st_utilization (status_short_term st) ≤ dq 1)%Qc
         ∧ (get_all (short_term s) = [] →
            st_avg_importance (status_short_term st) = dq 0)
         ∧ status_long_term st = get_statistics h (long_term s)
         ∧ status_consolidation_rules st = 2).
Proof.
  intros Hr.
  pose proof (lms_reachable_bounded sha16 _ Hr) as Hb.
  destruct (lms_reachable_untouched sha16 _ Hr) as [Hrules _].
  cbn [fst snd] in Hb, Hrules. unfold stm_bounded in Hb.
  unfold get_memory_status, get_all.
  destruct (py_div_cases (length (items (short_term s)))
              (max_capacity (short_term s))) as [[Hz ->]|[Hnz ->]].
  - by left.
  - right. split; [done|]. eexists. split; [reflexivity|].
    cbn [status_short_term st_count st_capacity st_utilization
         st_avg_importance status_long_term status_consolidation_rules].
    destruct (ratio_unit (length (items (short_term s)))
                (max_capacity (short_term s)) Hnz Hb) as [H0 H1].
    split; [done|]. split; [done|]. split; [done|]. split; [done|].
    split; [done|]. split; [by intros ->|]. split; [done|].
    by rewrite Hrules.
Qed.

Lemma memory_status_report_witness :
  lms_reachable demo_sha16 (memo_heap, memo_sys)
  ∧ ∃ st, get_memory_status memo_heap memo_sys = Ok st
          ∧ st_utilization (status_short_term st)
            = (Qc_of_Z 1 / Qc_of_Z 20)%Qc.
Proof.
  assert (Hr : lms_reachable demo_sha16 (memo_heap, memo_sys)).
  { eapply lms_reach_step; [apply (lms_reach_init demo_sha16 [] 20 30 ∅)|].
    exact (lms_step_store demo_sha16 [] demo_sys "memo" "semantic" (dq 0.9)
             None None false idea_clock). }
  split; [exact Hr|].
  destruct (memory_status_report demo_sha16 memo_heap memo_sys Hr)
    as [[Hz _]|(_ & st & Hst & _ & _ & Hu & _)].
  - vm_compute in Hz. discriminate Hz.
  - exists st. split; [exact Hst|]. exact Hu.
Defined.

(** ** Bookmarks *)

Lemma lms_store_forced sha16 h s text mtype imp tgs ctx clk :
  ∃ stm,
    LayeredMemorySystem.store sha16 h s text mtype imp tgs ctx true clk
    = (h ++ [new_item sha16 (mkCall text mtype imp tgs ctx clk)],
       LayeredMemorySystem.mk stm
         (LongTermMemory.store
            (h ++ [new_item sha16 (mkCall text mtype imp tgs ctx clk)])
            (long_term s) (length h))
         (consolidation_rules s),
       length h).
Proof.
  unfold LayeredMemorySystem.store, ShortTermMemory.store, alloc, new_item.
  cbn. eauto.
Qed.

Lemma ltm_search_listing h m tgs kind min_imp k :
  ∃ r, LongTermMemory.search h m None tgs kind min_imp k = Ok r
       ∧ (∀ l, l ∈ r → l ∈ ltm_survivors h m tgs kind min_imp)
       ∧ ((Z.of_nat (size (index m)) ≤ k)%Z →
          ∀ l, l ∈ ltm_survivors h m tgs kind min_imp → l ∈ r).
Proof.
  eexists. split; [apply search_no_query|]. split.
  - intros l Hl%py_take_subseteq. by rewrite sort_desc_perm in Hl.
  - intros Hk l Hl. rewrite py_take_all.
    + by rewrite sort_desc_perm.
    + rewrite (Permutation_length (sort_desc_perm _ _)).
      pose proof (ltm_survivors_length h m tgs kind min_imp). lia.
Qed.

Lemma candidates_tagged m t0 ts x t :
  is_Some (index m !! x) → t ∈ t0 :: ts → in_bucket (tag_index m) t x →
  x ∈ candidates m (Some (t0 :: ts)) None.
Proof.
  intros Hx Ht Hb. unfold candidates.
  apply elem_of_intersection. split; [by apply elem_of_dom|].
  apply in_bucket_union_all. right. by exists t.
Qed.

(** X14. [create_bookmark] always puts the new item in long-term
    memory, whatever its importance, as a [semantic] item tagged with
    the given tags, [bookmark] and the title, and indexed under each of
    them.  [search_bookmarks] reads the importance that the object has
    when it is called, and working memory shares the object.  Called
    right after the creation, without a query, it returns the bookmark
    only if the importance given is at least 0.8, and does return it
    then when the index holds at most 20 items.  Called after one
    [ShortTermMemory.retrieve] of the bookmark, the same holds of
    [min(1.0, importance + 0.05)]: a bookmark created with importance
    0.75 is not listed at first and is listed after one retrieval. *)
Theorem bookmark_round_trip sha16 h memory text title tgs imp clk extra :
  let h' :=
    (BrainLikeAI.create_bookmark sha16 h memory text title tgs imp clk).1.1 in
  let memory' :=
    (BrainLikeAI.create_bookmark sha16 h memory text title tgs imp clk).1.2 in
  let l :=
    (BrainLikeAI.create_bookmark sha16 h memory text title tgs imp clk).2 in
  h' !!! l = bookmark_item sha16 text title tgs imp clk
  ∧ index (long_term memory') !! memory_id (h' !!! l) = Some l
  ∧ (∀ t, t ∈ tgs ++ ["bookmark"; title] →
          in_bucket (tag_index (long_term memory')) t (memory_id (h' !!! l)))
  ∧ (∃ r, BrainLikeAI.search_bookmarks h' memory' None extra = Ok r
          ∧ (l ∈ r → (dq 0.8 ≤ imp)%Qc)
          ∧ ((dq 0.8 ≤ imp)%Qc →
             (Z.of_nat (size (index (long_term memory'))) ≤ 20)%Z → l ∈ r))
  ∧ (∀ now,
       item_map (short_term memory') !! memory_id (h' !!! l) = Some l →
       ∃ r, BrainLikeAI.search_bookmarks
              (ShortTermMemory.retrieve h' (short_term memory')
                 (memory_id (h' !!! l)) now).1
              memory' None extra = Ok r
            ∧ (l ∈ r → (dq 0.8 ≤ bump imp)%Qc)
            ∧ ((dq 0.8 ≤ bump imp)%Qc →
               (Z.of_nat (size (index (long_term memory'))) ≤ 20)%Z → l ∈ r)).
Proof.
  unfold BrainLikeAI.create_bookmark, BrainLikeAI.search_bookmarks.
  destruct (lms_store_forced sha16 h memory text "semantic" imp
              (Some (tgs ++ ["bookmark"; title]))
              (Some [("title", title); ("bookmarked", "True")]) clk)
    as (stm & ->).
  fold (bookmark_item sha16 text title tgs imp clk).
  set (it := bookmark_item sha16 text title tgs imp clk).
  set (ltm := LongTermMemory.store (h ++ [it]) (long_term memory) (length h)).
  cbn [fst snd LayeredMemorySystem.long_term LayeredMemorySystem.short_term].
  assert (Hobj : (h ++ [it]) !!! length h = it)
    by apply lookup_total_alloc_new.
  assert (Hix : index ltm !! memory_id it = Some (length h)).
  { unfold ltm. rewrite ltm_store_index, Hobj. apply lookup_insert_eq. }
  assert (Htags : ∀ t, t ∈ tgs ++ ["bookmark"; title] →
                       in_bucket (tag_index ltm) t (memory_id it)).
  { intros t Ht. unfold ltm. apply store_tag_index. right. by rewrite Hobj. }
  assert (Hlisted : ∀ h2,
    ∃ r, LongTermMemory.search h2 ltm None
           (Some (["bookmark"] ++ default [] extra)) None (dq 0.8) 20 = Ok r
         ∧ (length h ∈ r → (dq 0.8 ≤ importance (h2 !!! length h))%Qc)
         ∧ ((dq 0.8 ≤ importance (h2 !!! length h))%Qc →
            (Z.of_nat (size (index ltm)) ≤ 20)%Z → length h ∈ r)).
  { intros h2.
    destruct (ltm_search_listing h2 ltm
                (Some (["bookmark"] ++ default [] extra)) None (dq 0.8) 20)
      as (r & Hr & Hsound & Hcomplete).
    exists r. split; [done|]. split.
    - intros Hl%Hsound.
      apply elem_of_ltm_survivors in Hl as (x & _ & _ & Himp). done.
    - intros Himp Hk. apply Hcomplete; [done|].
      apply elem_of_ltm_survivors. exists (memory_id it).
      split; [|done].
      apply (candidates_tagged ltm "bookmark" (default [] extra) _ "bookmark").
      + by rewrite Hix.
      + by left.
      + apply Htags. set_solver. }
  rewrite Hobj. split; [done|]. split; [done|]. split; [done|]. split.
  - destruct (Hlisted (h ++ [it])) as (r & Hr & H1 & H2).
    rewrite Hobj in H1, H2. by exists r.
  - intros now Hmap. unfold ShortTermMemory.retrieve. rewrite Hmap.
    cbn [fst]. rewrite Hobj.
    destruct (Hlisted (modify (h ++ [it]) (length h)
                         (set_access (access_count it + 1) now
                            (py_min (dq 1.0) (fadd (importance it) (dq 0.05))))))
      as (r & Hr & H1 & H2).
    rewrite modify_lookup_same in H1, H2 by (rewrite length_app; cbn; lia).
    rewrite Hobj in H1, H2. by exists r.
Qed.

Lemma bookmark_round_trip_witness :
  item_map (short_term faint_bookmark.1.2) !! "see page 4@0" = Some 0
  ∧ (∃ r, BrainLikeAI.search_bookmarks faint_bookmark.1.1 faint_bookmark.1.2
            None None = Ok r
          ∧ (0 ∉ r))
  ∧ ∃ r, BrainLikeAI.search_bookmarks
           (ShortTermMemory.retrieve faint_bookmark.1.1
              (short_term faint_bookmark.1.2) "see page 4@0" 60).1
           faint_bookmark.1.2 None None = Ok r
         ∧ 0 ∈ r.
Proof.
  assert (Hmap : item_map (short_term faint_bookmark.1.2) !! "see page 4@0"
                 = Some 0) by (vm_compute; reflexivity).
  destruct (bookmark_round_trip demo_sha16 [] demo_sys "see page 4" "p4" []
              (dq 0.75) idea_clock None) as (_ & _ & _ & Hfirst & Hlater).
  split; [exact Hmap|]. split.
  - destruct Hfirst as (r & Hr & Honly & _). exists r. split; [exact Hr|].
    intros Hin. apply Honly in Hin. revert Hin. apply Qclt_not_le.
    vm_compute. reflexivity.
  - destruct (Hlater 60%Z Hmap) as (r & Hr & _ & Hlist).
    exists r. split; [exact Hr|]. apply Hlist.
    + vm_compute. discriminate.
    + vm_compute. discriminate.
Defined.

(** X15. The tags given to [search_bookmarks] are added to [bookmark]
    in one list, and the search takes the items under any tag of the
    list: an indexed item under one of the extra tags, of importance at
    least 0.8, is returned although it is no bookmark (when the index
    holds at most 20 items), and every result is under [bookmark] or
    under one of the extra tags. *)
Theorem search_bookmarks_extra_tags h memory extra :
  ∃ r,
    BrainLikeAI.search_bookmarks h memory None (Some extra) = Ok r
    ∧ (∀ l, l ∈ r →
         (dq 0.8 ≤ importance (h !!! l))%Qc
         ∧ ∃ x t, index (long_term memory) !! x = Some l
                  ∧ t ∈ "bookmark" :: extra
                  ∧ in_bucket (tag_index (long_term memory)) t x)
    ∧ ((Z.of_nat (size (index (long_term memory))) ≤ 20)%Z →
       ∀ x l t, index (long_term memory) !! x = Some l →
                t ∈ extra →
                in_bucket (tag_index (long_term memory)) t x →
                (dq 0.8 ≤ importance (h !!! l))%Qc →
                l ∈ r).
Proof.
  unfold BrainLikeAI.search_bookmarks.
  destruct (ltm_search_listing h (long_term memory)
              (Some (["bookmark"] ++ default [] (Some extra))) None (dq 0.8) 20)
    as (r & Hr & Hsound & Hcomplete).
  exists r. split; [done|]. split.
  - intros l Hl%Hsound.
    apply elem_of_ltm_survivors in Hl as (x & Hx & Hix & Himp).
    split; [done|].
    destruct (candidates_spec _ _ _ _ Hx) as (_ & Htag & _).
    destruct (Htag "bookmark" extra eq_refl) as (t & Ht & Hb).
    by exists x, t.
  - intros Hk x l t Hix Ht Hb Himp. apply Hcomplete; [done|].
    apply elem_of_ltm_survivors. exists x. split; [|done].
    apply (candidates_tagged _ "bookmark" extra x t); [by rewrite Hix| |done].
    by right.
Qed.

Lemma search_bookmarks_extra_tags_witness :
  index (long_term fact_sys) !! "f1" = Some 0
  ∧ ("bookmark" ∉ tags ([fact_item] !!! 0))
  ∧ ∃ r, BrainLikeAI.search_bookmarks [fact_item] fact_sys None
           (Some ["physics"]) = Ok r
         ∧ 0 ∈ r.
Proof.
  split; [vm_compute; reflexivity|]. split; [set_solver|].
  destruct (search_bookmarks_extra_tags [fact_item] fact_sys ["physics"])
    as (r & Hr & _ & Hall).
  exists r. split; [exact Hr|].
  apply (Hall ltac:(vm_compute; discriminate) "f1" 0 "physics").
  - vm_compute; reflexivity.
  - by left.
  - vm_compute. set_solver.
  - by vm_compute.
Defined.

(** ** Maintenance *)

Lemma td_days_range age :
  (0 ≤ age ≤ timedelta_days 365)%Z → (0 ≤ td_days age ≤ 365)%Z.
Proof.
  unfold td_days, timedelta_days, US_PER_DAY, US_PER_SECOND. intros [H0 H1].
  split.
  - by apply Z.div_pos.
  - apply Z.div_le_upper_bound; lia.
Qed.

(** The factor [1 - 0.1 * (days / 365.0)] of an item of decay rate 0.1. *)
Lemma decay_factor_antitone d1 d2 :
  (d1 ≤ d2)%Z →
  (fsub (dq 1) (fmul (dq 0.1) (fdiv (Qc_of_Z d2) (dq 365.0)))
   ≤ fsub (dq 1) (fmul (dq 0.1) (fdiv (Qc_of_Z d1) (dq 365.0))))%Qc.
Proof.
  intros Hd. unfold fsub, fmul, fdiv.
  apply rnd_mono. unfold Qcminus.
  apply Qcplus_le_compat; [apply Qcle_refl|]. apply Qcopp_le_compat.
  apply rnd_mono. rewrite !(Qcmult_comm (dq 0.1)).
  apply Qcmult_le_compat_r; [|by vm_compute].
  apply rnd_mono. unfold Qcdiv.
  apply Qcmult_le_compat_r; [|by vm_compute].
  by apply Qc_of_Z_mono.
Qed.

Lemma Qcmult_le_mono (x c f g : Qc) :
  (0 ≤ x)%Qc → (x ≤ c)%Qc → (0 ≤ f)%Qc → (f ≤ g)%Qc → (x * f ≤ c * g)%Qc.
Proof. intros. qc_to_Q. nra. Qed.

Lemma Qcmult_nonpos (x f : Qc) :
  (x ≤ 0)%Qc → (0 ≤ f)%Qc → (x * f ≤ 0)%Qc.
Proof. intros. qc_to_Q. nra. Qed.

Lemma decayed_bounds it age :
  decay_rate it = dq 0.1 →
  (0 ≤ age ≤ timedelta_days 365)%Z →
  (is_b64 (importance it) → (importance it < dq 0.1)%Qc →
   (decayed_importance it age < dq 0.1)%Qc)
  ∧ ((dq 0.12 ≤ importance it)%Qc → (dq 0.1 ≤ decayed_importance it age)%Qc).
Proof.
  intros Hdr Hage. apply td_days_range in Hage as [H0 H1].
  unfold decayed_importance. rewrite Hdr.
  set (d := td_days age) in *. set (x := importance it).
  set (F := λ k, fsub (dq 1) (fmul (dq 0.1) (fdiv (Qc_of_Z k) (dq 365.0)))).
  change (fsub _ _) with (F d).
  assert (Hlo : (F 365%Z ≤ F d)%Qc) by by apply decay_factor_antitone.
  assert (H365 : (0 ≤ F 365%Z)%Qc) by by vm_compute.
  assert (Hpos : (0 ≤ F d)%Qc) by by eapply Qcle_trans.
  split.
  - intros Hb Hx. unfold fmul.
    destruct (decide (d = 0%Z)) as [->|Hd].
    + assert (HF0 : F 0%Z = 1%Qc)
        by (apply Qc_is_canon; vm_compute; reflexivity).
      rewrite HF0, Qcmult_1_r. fold (is_b64 x) in Hb. by rewrite Hb.
    + assert (Hhi : (F d ≤ F 1%Z)%Qc) by (apply decay_factor_antitone; lia).
      destruct (Qclt_le_dec x 0) as [Hneg|Hnn].
      * eapply Qcle_lt_trans; [|by instantiate (1 := 0%Qc); vm_compute].
        apply rnd_le; [apply Qc_is_canon; vm_compute; reflexivity|].
        apply Qcmult_nonpos; [by apply Qclt_le_weak|done].
      * eapply Qcle_lt_trans;
          [apply rnd_mono, (Qcmult_le_mono x (dq 0.1) (F d) (F 1%Z));
             [done|by apply Qclt_le_weak|done|done]|].
        by vm_compute.
  - intros Hx. unfold fmul.
    eapply Qcle_trans; [|apply rnd_mono,
                           (Qcmult_le_mono (dq 0.12) x (F 365%Z) (F d))];
      [by vm_compute|by vm_compute|done|done|done].
Qed.

Lemma auto_maintain_unfold h s t1 t2 :
  ∃ ltm n,
    foldl (consolidate_one h (consolidation_rules s) t1) (long_term s, 0)
      (get_all (short_term s)) = (ltm, n)
    ∧ auto_maintain h s t1 t2
      = LayeredMemorySystem.mk (short_term s)
          (prune h ltm (dq 0.1) 365 t2).1 (consolidation_rules s).
Proof.
  unfold auto_maintain, consolidate_memories.
  destruct (foldl _ _ _) as [ltm n]. by exists ltm, n.
Qed.

(** X16. [auto_maintain] never changes working memory.  For an item of
    the long-term index with the decay rate 0.1 of stored items,
    created no later than the clock reading of the pruning step, it
    removes the item and its file when the importance, a binary64
    number, is below 0.1 or the age is over 365 days, and keeps the
    item when the importance is at least 0.12 and the age at most 365
    days.  The decayed importance is computed in binary64. *)
Theorem auto_maintain_prunes h s t1 t2 x l :
  index (long_term s) !! x = Some l →
  decay_rate (h !!! l) = dq 0.1 →
  (created_at (h !!! l) ≤ t2)%Z →
  short_term (auto_maintain h s t1 t2) = short_term s
  ∧ ((is_b64 (importance (h !!! l)) ∧ (importance (h !!! l) < dq 0.1)%Qc)
     ∨ (timedelta_days 365 < t2 - created_at (h !!! l))%Z →
     index (long_term (auto_maintain h s t1 t2)) !! x = None
     ∧ storage (long_term (auto_maintain h s t1 t2)) !! x = None)
  ∧ ((dq 0.12 ≤ importance (h !!! l))%Qc →
     (t2 - created_at (h !!! l) ≤ timedelta_days 365)%Z →
     index (long_term (auto_maintain h s t1 t2)) !! x = Some l).
Proof.
  intros Hx Hdr Hage.
  destruct (auto_maintain_unfold h s t1 t2) as (ltm & n & Hfold & ->).
  cbn [LayeredMemorySystem.short_term LayeredMemorySystem.long_term].
  assert (Hx' : index ltm !! x = Some l).
  { pose proof (consolidate_all_index h (consolidation_rules s) t1
                  (get_all (short_term s)) (long_term s) 0 x l Hx) as Hk.
    by rewrite Hfold in Hk. }
  pose proof (prune_index h ltm (dq 0.1) 365 t2 x l Hx') as Hp.
  split; [done|]. split.
  - intros Hold.
    assert (Hpr : prunable h (dq 0.1) 365 t2 l = true).
    { apply prunable_spec.
      destruct (Z_lt_le_dec (timedelta_days 365) (t2 - created_at (h !!! l)))
        as [Hlt|Hle]; [by right|].
      destruct Hold as [[Hb Himp]|Hlt]; [|lia]. left.
      destruct (decayed_bounds (h !!! l) (t2 - created_at (h !!! l)) Hdr)
        as [Hlow _]; [lia|]. by apply Hlow. }
    rewrite Hpr in Hp. split; [done|].
    unfold prune. cbn [fst]. apply remove_all_storage; [|by rewrite Hx'].
    apply elem_of_to_remove. by exists l.
  - intros Himp Hyoung.
    assert (Hpr : prunable h (dq 0.1) 365 t2 l = false).
    { apply not_true_is_false. intros [Hlow|Hlt]%prunable_spec; [|lia].
      destruct (decayed_bounds (h !!! l) (t2 - created_at (h !!! l)) Hdr)
        as [_ Hhigh]; [lia|].
      by apply (Qclt_not_le _ _ Hlow), Hhigh. }
    by rewrite Hpr in Hp.
Qed.

Lemma auto_maintain_prunes_witness :
  index (long_term old_sys) !! "old" = Some 0
  ∧ decay_rate ([old_item] !!! 0) = dq 0.1
  ∧ (created_at ([old_item] !!! 0%nat) ≤ day400)%Z
  ∧ (timedelta_days 365 < day400 - created_at ([old_item] !!! 0%nat))%Z
  ∧ index (long_term (auto_maintain [old_item] old_sys day400 day400)) !! "old"
    = None.
Proof.
  assert (Hx : index (long_term old_sys) !! "old" = Some 0)
    by (vm_compute; reflexivity).
  assert (Hdr : decay_rate ([old_item] !!! 0) = dq 0.1) by reflexivity.
  assert (Hage : (created_at ([old_item] !!! 0%nat) ≤ day400)%Z)
    by (vm_compute; discriminate).
  assert (Hold : (timedelta_days 365 < day400 - created_at ([old_item] !!! 0%nat))%Z)
    by (vm_compute; reflexivity).
  split; [exact Hx|]. split; [exact Hdr|]. split; [exact Hage|].
  split; [exact Hold|].
  destruct (auto_maintain_prunes [old_item] old_sys day400 day400 "old" 0
              Hx Hdr Hage) as (_ & Hrm & _).
  destruct Hrm as [Hnone _]; [by right|]. exact Hnone.
Defined.

(** ** When the combined search raises *)

Lemma starts_with_refl s : starts_with s s = true.
Proof. induction s as [|a s IH]; [done|]. cbn. by rewrite decide_True. Qed.

Lemma py_in_refl s : py_in s s = true.
Proof. destruct s; cbn; [done|]. by rewrite decide_True, starts_with_refl. Qed.

Lemma mapM_raises {A B} (f : A → result B) l x :
  x ∈ l → f x = ZeroDivisionError → mapM f l = ZeroDivisionError.
Proof.
  intros Hx Hfx. destruct (mapM f l) as [ys|] eqn:Hm; [|done].
  apply mapM_Ok in Hm.
  destruct (Forall2_elem_l _ _ _ _ Hm Hx) as (y & _ & Hy). congruence.
Qed.

Lemma mapM_raises_inv {A B} (f : A → result B) l :
  mapM f l = ZeroDivisionError → ∃ x, x ∈ l ∧ f x = ZeroDivisionError.
Proof.
  induction l as [|x l IH]; [done|]. rewrite mapM_cons.
  destruct (f x) as [y|] eqn:Hfx.
  - destruct (mapM f l) as [ys|]; [done|]. intros _.
    destruct IH as (x' & ? & ?); [done|]. exists x'. split; [by right|done].
  - intros _. exists x. split; [by left|done].
Qed.

Lemma stm_search_raises h m q k :
  ShortTermMemory.search h m q k = ZeroDivisionError
  ↔ ∃ l, l ∈ items m ∧ matched h q l ∧ word_count h l = 0.
Proof.
  unfold ShortTermMemory.search. split.
  - destruct (mapM _ (items m)) as [scored|] eqn:Hm; [done|]. intros _.
    apply mapM_raises_inv in Hm as (l & Hl & Hs). exists l. split; [done|].
    destruct (stm_score_cases h q l) as [[_ Hs']|[(? & ? & _)|(_ & _ & Hs')]];
      [congruence|done|congruence].
  - intros (l & Hl & Hm & Hw).
    rewrite (mapM_raises _ _ l Hl); [done|].
    destruct (stm_score_cases h q l) as [[Hn _]|[(_ & _ & Hs)|(_ & Hw' & _)]];
      done.
Qed.

Lemma ltm_search_raises h m q tgs kind min_imp k :
  LongTermMemory.search h m (Some q) tgs kind min_imp k = ZeroDivisionError
  ↔ q ≠ ""
    ∧ ∃ l, l ∈ ltm_survivors h m tgs kind min_imp
           ∧ matched h q l ∧ word_count h l = 0.
Proof.
  destruct q as [|a q].
  { rewrite ltm_search_blank. split; [done|]. by intros [? _]. }
  unfold LongTermMemory.search.
  change (filter _ (omap _ (elements (candidates m tgs kind))))
    with (ltm_survivors h m tgs kind min_imp).
  split.
  - destruct (mapM _ (ltm_survivors h m tgs kind min_imp))
      as [scored|] eqn:Hm; [done|]. intros _. split; [done|].
    apply mapM_raises_inv in Hm as (l & Hl & Hs). exists l. split; [done|].
    destruct (ltm_score_cases h (String a q) l)
      as [[_ Hs']|[(? & ? & _)|(_ & _ & Hs')]]; [congruence|done|congruence].
  - intros (_ & l & Hl & Hm & Hw).
    rewrite (mapM_raises _ _ l Hl); [done|].
    destruct (ltm_score_cases h (String a q) l)
      as [[Hn _]|[(_ & _ & Hs)|(_ & Hw' & _)]]; done.
Qed.

Lemma lms_retrieve_blank_item h s q both l :
  l ∈ get_all (short_term s) → matched h q l → word_count h l = 0 →
  LayeredMemorySystem.retrieve h s q both = ZeroDivisionError.
Proof.
  intros Hl Hm Hw. unfold LayeredMemorySystem.retrieve.
  rewrite (proj2 (stm_search_raises h (short_term s) q 5)); [done|].
  by exists l.
Qed.

(** X17. [LayeredMemorySystem.retrieve] raises [ZeroDivisionError]
    exactly when an item of working memory has a content that contains
    the query and splits into no word, or, with [search_both] and a
    non-empty query, when an indexed item of importance at least 0 has
    such a content; in every other case it returns a list. *)
Theorem lms_retrieve_raises h s q both :
  LayeredMemorySystem.retrieve h s q both = ZeroDivisionError
  ↔ (∃ l, l ∈ get_all (short_term s) ∧ matched h q l ∧ word_count h l = 0)
    ∨ (both = true ∧ q ≠ ""
       ∧ ∃ x l, index (long_term s) !! x = Some l
                ∧ (dq 0.0 ≤ importance (h !!! l))%Qc
                ∧ matched h q l ∧ word_count h l = 0).
Proof.
  assert (Hsurv : ∀ l,
    l ∈ ltm_survivors h (long_term s) None None (dq 0.0)
    ↔ ∃ x, index (long_term s) !! x = Some l
           ∧ (dq 0.0 ≤ importance (h !!! l))%Qc).
  { intros l. rewrite elem_of_ltm_survivors. split.
    - intros (x & _ & ? & ?). by exists x.
    - intros (x & Hx & ?). exists x. split; [|done].
      unfold candidates. apply elem_of_dom. by rewrite Hx. }
  unfold LayeredMemorySystem.retrieve.
  destruct (ShortTermMemory.search h (short_term s) q 5) as [r1|] eqn:H1.
  - assert (Hno : ¬ ∃ l, l ∈ get_all (short_term s)
                         ∧ matched h q l ∧ word_count h l = 0).
    { intros Hbad. apply (stm_search_raises h (short_term s) q 5) in Hbad.
      congruence. }
    destruct both.
    + destruct (LongTermMemory.search h (long_term s) (Some q) None None
                  (dq 0.0) 5) as [r2|] eqn:H2.
      * cbn. split; [done|]. intros [Hbad|(_ & Hq & x & l & Hx & Himp & Hm & Hw)];
          [done|].
        assert (LongTermMemory.search h (long_term s) (Some q) None None
                  (dq 0.0) 5 = ZeroDivisionError); [|congruence].
        apply ltm_search_raises. split; [done|]. exists l.
        split; [|done]. apply Hsurv. by exists x.
      * cbn. split; [|done]. intros _. right.
        apply ltm_search_raises in H2 as (Hq & l & Hl & Hm & Hw).
        apply Hsurv in Hl as (x & Hx & Himp).
        split; [done|]. split; [done|]. by exists x, l.
    + cbn. split; [done|]. by intros [Hbad|(? & _)].
  - cbn. split; [|done]. intros _. left. by apply (stm_search_raises h _ q 5).
Qed.

Lemma lms_retrieve_raises_witness :
  (∃ l, l ∈ get_all blank_stm ∧ matched blank_heap "" l
        ∧ word_count blank_heap l = 0)
  ∧ LayeredMemorySystem.retrieve blank_heap
      (LayeredMemorySystem.mk blank_stm fresh_ltm default_rules) "" true
    = ZeroDivisionError.
Proof.
  assert (Hbad : ∃ l, l ∈ get_all blank_stm ∧ matched blank_heap "" l
                      ∧ word_count blank_heap l = 0).
  { exists 0. split; [by left|]. split; [apply matched_empty|reflexivity]. }
  split; [exact Hbad|].
  apply (lms_retrieve_raises blank_heap
           (LayeredMemorySystem.mk blank_stm fresh_ltm default_rules) "" true).
  left. exact Hbad.
Defined.

Lemma elem_of_deque_append_new n d l : 0 < n → l ∈ deque_append n d l.
Proof.
  intros Hn. unfold deque_append. case_decide as Hlen; [|set_solver].
  destruct d as [|x d]; [cbn in Hlen; lia|]. cbn. rewrite drop_0. set_solver.
Qed.

Lemma py_take_nonempty {A} k (l : list A) :
  (0 < k)%Z → l ≠ [] → py_take k l ≠ [].
Proof.
  intros Hk Hl. unfold py_take. rewrite (proj2 (Z.leb_le 0 k)) by lia.
  destruct l as [|x l]; [done|].
  destruct (Z.to_nat k) as [|n] eqn:Hn; [lia|done].
Qed.

Lemma unique_by_id_nonempty h rs : rs ≠ [] → unique_by_id h ∅ rs ≠ [].
Proof.
  destruct rs as [|l rs]; [done|]. intros _. cbn [unique_by_id].
  by rewrite decide_False by set_solver.
Qed.

Lemma perm_nonempty {A} (l k : list A) : l ≡ₚ k → k ≠ [] → l ≠ [].
Proof. intros Hp Hk ->. by apply Permutation_nil_l in Hp. Qed.

(** X18. Storing a text through the layered system and then searching
    for the same text, as [BrainLikeAI.process_query] does with each
    query: if the text is empty or all whitespace the search raises
    [ZeroDivisionError]; if the search returns, the list is not empty.
    (Working memory with a capacity of at least 1.) *)
Theorem store_then_retrieve sha16 h s text mtype imp tgs ctx force clk both :
  0 < max_capacity (short_term s) →
  ∃ h1 s1 l,
    LayeredMemorySystem.store sha16 h s text mtype imp tgs ctx force clk
    = (h1, s1, l)
    ∧ l ∈ get_all (short_term s1)
    ∧ content (h1 !!! l) = text
    ∧ (py_split text = [] →
       LayeredMemorySystem.retrieve h1 s1 text both = ZeroDivisionError)
    ∧ (∀ r, LayeredMemorySystem.retrieve h1 s1 text both = Ok r →
            py_split text ≠ [] ∧ r ≠ []).
Proof.
  intros Hcap.
  destruct (lms_store_spec sha16 h s text mtype imp tgs ctx force clk)
    as (im & ltm & ->).
  set (stm1 := ShortTermMemory.mk _ _ _ im).
  set (s1 := LayeredMemorySystem.mk stm1 ltm _).
  set (h1 := h ++ [_]).
  assert (Hobj : content (h1 !!! length h) = text).
  { unfold h1. by rewrite lookup_total_alloc_new. }
  assert (Hl : length h ∈ get_all (short_term s1)).
  { cbn. by apply elem_of_deque_append_new. }
  assert (Hm : matched h1 text (length h)).
  { unfold matched. rewrite Hobj. apply py_in_refl. }
  assert (Hblank : py_split text = [] →
            LayeredMemorySystem.retrieve h1 s1 text both = ZeroDivisionError).
  { intros Hb. apply (lms_retrieve_blank_item h1 s1 text both (length h));
      [done..|]. unfold word_count. by rewrite Hobj, Hb. }
  exists h1, s1, (length h).
  split; [done|]. split; [done|]. split; [done|]. split; [done|].
  intros r Hr. split.
  - intros Hb. rewrite (Hblank Hb) in Hr. done.
  - unfold LayeredMemorySystem.retrieve in Hr.
    destruct (ShortTermMemory.search h1 (short_term s1) text 5) as [r1|] eqn:H1;
      [|done].
    assert (Hr1 : r1 ≠ []).
    { unfold ShortTermMemory.search in H1.
      destruct (mapM _ (items (short_term s1))) as [scored|] eqn:Hsc; [|done].
      destruct (stm_scored h1 (short_term s1) text scored Hsc) as [_ Hcomplete].
      injection H1 as <-. intros Hnil%fmap_nil_inv. revert Hnil.
      apply py_take_nonempty; [lia|].
      eapply perm_nonempty; [apply sort_desc_perm|].
      eapply elem_of_not_nil. by apply (Hcomplete (length h)). }
    destruct (if both then _ else _) as [r2|]; [|done].
    cbn in Hr. injection Hr as <-.
    eapply perm_nonempty; [apply sort_desc_perm|].
    apply unique_by_id_nonempty. by destruct r1.
Qed.

Lemma store_then_retrieve_witness :
  0 < max_capacity (short_term demo_sys)
  ∧ py_split "  " = []
  ∧ ∃ h1 s1 l,
      LayeredMemorySystem.store demo_sha16 [] demo_sys "  " "episodic" (dq 0.6)
        (Some ["query"]) None false idea_clock = (h1, s1, l)
      ∧ LayeredMemorySystem.retrieve h1 s1 "  " true = ZeroDivisionError.
Proof.
  assert (Hcap : 0 < max_capacity (short_term demo_sys)) by (vm_compute; lia).
  split; [exact Hcap|]. split; [reflexivity|].
  destruct (store_then_retrieve demo_sha16 [] demo_sys "  " "episodic" (dq 0.6)
              (Some ["query"]) None false idea_clock true Hcap)
    as (h1 & s1 & l & Hs & _ & _ & Hblank & _).
  exists h1, s1, l. split; [exact Hs|]. apply Hblank. reflexivity.
Defined.

(** ** The statistics of long-term memory *)

Lemma take_sorted {A} (R : relation A) n l :
  StronglySorted R l → StronglySorted R (take n l).
Proof.
  intros Hl. rewrite <- (take_drop n l) in Hl.
  by apply StronglySorted_app_1_l in Hl.
Qed.

(** X19. [get_statistics] returns the single entry [total_memories: 0]
    exactly for an empty index.  Otherwise [total_memories] is the size
    of the index, [memory_types] gives the size of each bucket of the
    type dictionary, and [top_tags] lists at most 10 pairs of a tag and
    the size of its bucket, in descending order of size, all of the
    tags when there are at most 10.  When every id of a bucket is
    indexed, no count exceeds [total_memories].  [avg_importance] is a
    binary64 sum divided by the count and need not lie between the
    importances: three items of importance 0.1 have the average
    0.10000000000000002. *)
Theorem statistics_report h m :
  (index m = ∅ → get_statistics h m = NoMemories)
  ∧ (index m ≠ ∅ →
     ∃ ai aa mt tt,
       get_statistics h m = Stats (size (index m)) ai aa mt tt
       ∧ (∀ k, mt !! k = size <$> type_index m !! k)
       ∧ length tt ≤ 10
       ∧ StronglySorted (λ a b : string * nat, b.2 ≤ a.2) tt
       ∧ (∀ t n, (t, n) ∈ tt →
                 ∃ b, tag_index m !! t = Some b ∧ n = size b)
       ∧ (size (tag_index m) ≤ 10 →
          ∀ t b, tag_index m !! t = Some b → (t, size b) ∈ tt)
       ∧ (index_consistent h m →
          (∀ k n, mt !! k = Some n → n ≤ size (index m))
          ∧ (∀ t n, (t, n) ∈ tt → n ≤ size (index m))))
  ∧ (∃ aa mt tt,
       get_statistics tenth_heap tenth_ltm
       = Stats 3 (dq 0.10000000000000002) aa mt tt
       ∧ (dq 0.1 < dq 0.10000000000000002)%Qc).
Proof.
  split; [|split];
    [| |eexists _, _, _; split; [vm_compute; reflexivity|by vm_compute]];
    unfold get_statistics.
  { intros ->. by rewrite decide_True. }
  intros Hne. rewrite decide_False by done.
  set (its := (map_to_list (index m)).*2).
  set (gt := λ x y : string * nat, y.2 <? x.2).
  set (pairs := prod_map id size <$> map_to_list (tag_index m)).
  assert (Hlen : length its = size (index m)).
  { unfold its. by rewrite length_fmap, length_map_to_list. }
  assert (Hpairs : ∀ t n, (t, n) ∈ pairs
                          ↔ ∃ b, tag_index m !! t = Some b ∧ n = size b).
  { intros t n. unfold pairs. rewrite list_elem_of_fmap. split.
    - intros ([t' b] & [= -> ->] & Hb%elem_of_map_to_list). by exists b.
    - intros (b & Hb & ->). exists (t, b). split; [done|].
      by apply elem_of_map_to_list. }
  assert (Htt : ∀ t n, (t, n) ∈ take 10 (sort_desc gt pairs) →
                       ∃ b, tag_index m !! t = Some b ∧ n = size b).
  { intros t n Hin. apply Hpairs. rewrite <- (sort_desc_perm gt pairs).
    by eapply subseteq_take. }
  eexists _, _, _, _. split; [rewrite <- Hlen; reflexivity|].
  split; [|split; [|split; [|split; [|split]]]].
  - intros k. apply lookup_fmap.
  - rewrite length_take. lia.
  - apply take_sorted.
    eapply StronglySorted_weaken; [|apply (sort_desc_sorted gt)].
    + intros a b. unfold gt. rewrite Nat.ltb_ge. done.
    + intros x y. unfold gt. rewrite Nat.ltb_lt, Nat.ltb_ge. lia.
    + intros x y z. unfold gt. rewrite !Nat.ltb_ge. lia.
  - done.
  - intros Hsmall t b Hb. rewrite take_ge.
    + rewrite sort_desc_perm. apply Hpairs. by exists b.
    + rewrite (Permutation_length (sort_desc_perm _ _)). unfold pairs.
      rewrite length_fmap, length_map_to_list. done.
  - intros (Htag & Htyp & _). split.
    + intros k n. rewrite lookup_fmap.
      destruct (type_index m !! k) as [b|] eqn:Hk; [|done].
      intros [= <-]. rewrite <- (size_dom (D:=gset string) (index m)).
      apply subseteq_size. intros x Hx. apply elem_of_dom.
      apply (Htyp k x). unfold in_bucket. by rewrite Hk.
    + intros t n (b & Hb & ->)%Htt.
      rewrite <- (size_dom (D:=gset string) (index m)).
      apply subseteq_size. intros x Hx. apply elem_of_dom.
      apply (Htag t x). unfold in_bucket. by rewrite Hb.
Qed.

Lemma statistics_report_witness :
  index fact_ltm ≠ ∅
  ∧ ∃ ai aa mt tt,
      get_statistics [fact_item] fact_ltm = Stats 1 ai aa mt tt
      ∧ length tt ≤ 10.
Proof.
  assert (Hne : index fact_ltm ≠ ∅).
  { intros Heq. apply (f_equal (λ d, d !! "f1")) in Heq.
    vm_compute in Heq. discriminate Heq. }
  split; [exact Hne|].
  destruct (statistics_report [fact_item] fact_ltm) as (_ & Hstats & _).
  destruct (Hstats Hne) as (ai & aa & mt & tt & Hst & _ & Hlen & _).
  exists ai, aa, mt, tt. split; [exact Hst|exact Hlen].
Defined.

(** ** Important items *)

Lemma elem_of_important h m thr l :
  l ∈ get_important_items h m thr
  ↔ l ∈ get_all m ∧ (thr ≤ importance (h !!! l))%Qc.
Proof.
  unfold get_important_items, get_all, Qc_leb.
  rewrite list_elem_of_filter, bool_decide_eq_true. naive_solver.
Qed.

(** X20. [get_important_items] reads the objects of the ring buffer,
    so it sees the update made by [retrieve] through the side table:
    after a [retrieve] of an item, the item is listed exactly when it
    is in the ring buffer and the threshold is at most
    [min(1.0, importance + 0.05)], the sum rounded to binary64, and the
    other items are listed as before.  An item whose importance is a
    binary64 number at most 1.0 and that was listed stays listed; no
    retrieved item passes a threshold above 1.0, whatever importance it
    was stored with.  (With importance 0.35 the update gives
    0.39999999999999997, and the item is not listed for the threshold
    0.4.) *)
Theorem important_after_retrieve h m mid now l thr :
  item_map m !! mid = Some l →
  l < length h →
  (∀ l', l' ≠ l →
         l' ∈ get_important_items (ShortTermMemory.retrieve h m mid now).1 m thr
         ↔ l' ∈ get_important_items h m thr)
  ∧ (l ∈ get_important_items (ShortTermMemory.retrieve h m mid now).1 m thr
     ↔ l ∈ get_all m ∧ (thr ≤ bump (importance (h !!! l)))%Qc)
  ∧ (is_b64 (importance (h !!! l)) →
     (importance (h !!! l) ≤ dq 1.0)%Qc →
     l ∈ get_important_items h m thr →
     l ∈ get_important_items (ShortTermMemory.retrieve h m mid now).1 m thr)
  ∧ ((dq 1.0 < thr)%Qc →
     l ∉ get_important_items (ShortTermMemory.retrieve h m mid now).1 m thr).
Proof.
  intros Hmid Hl. unfold ShortTermMemory.retrieve. rewrite Hmid. cbn [fst].
  set (f := set_access _ _ _).
  assert (Hobj : importance (modify h l f !!! l) = bump (importance (h !!! l))).
  { by rewrite modify_lookup_same. }
  split; [|split; [|split]].
  - intros l' Hne. rewrite !elem_of_important.
    by rewrite modify_lookup_other.
  - by rewrite elem_of_important, Hobj.
  - intros Hb H1. rewrite !elem_of_important, Hobj. intros [? Hthr].
    split; [done|]. eapply Qcle_trans; [exact Hthr|]. by apply bump_ge.
  - intros Hthr. rewrite elem_of_important, Hobj. intros [_ Hle].
    apply (Qclt_not_le _ _ Hthr). eapply Qcle_trans; [exact Hle|].
    apply bump_le_one.
Qed.

Lemma important_after_retrieve_witness :
  item_map dim_stm !! "dim@1000" = Some 0
  ∧ 0 < length dim_heap
  ∧ importance (dim_heap !!! 0) = dq 0.35
  ∧ bump (dq 0.35) = dq 0.39999999999999997
  ∧ (0 ∉ get_important_items
           (ShortTermMemory.retrieve dim_heap dim_stm "dim@1000" 2000).1
           dim_stm (dq 0.4))
  ∧ 0 ∈ get_important_items
          (ShortTermMemory.retrieve dim_heap dim_stm "dim@1000" 2000).1
          dim_stm (dq 0.39).
Proof.
  assert (Hmid : item_map dim_stm !! "dim@1000" = Some 0)
    by (vm_compute; reflexivity).
  assert (Hl : 0 < length dim_heap) by (vm_compute; lia).
  assert (Hbump : bump (dq 0.35) = dq 0.39999999999999997)
    by (apply Qc_is_canon; vm_compute; reflexivity).
  split; [exact Hmid|]. split; [exact Hl|]. split; [reflexivity|].
  split; [exact Hbump|]. split.
  - destruct (important_after_retrieve dim_heap dim_stm "dim@1000" 2000 0
                (dq 0.4) Hmid Hl) as (_ & Hiff & _).
    intros Hin. apply Hiff in Hin as [_ Hle]. revert Hle.
    apply Qclt_not_le. vm_compute. reflexivity.
  - destruct (important_after_retrieve dim_heap dim_stm "dim@1000" 2000 0
                (dq 0.39) Hmid Hl) as (_ & Hiff & _).
    apply Hiff. split; [by left|]. vm_compute. discriminate.
Defined.

(** ** Insertion and lookup in long-term memory *)

Lemma candidates_typed m ty x :
  is_Some (index m !! x) → in_bucket (type_index m) ty x →
  x ∈ candidates m None (Some ty).
Proof.
  intros Hx Hb. destruct ty as [|a k].
  - unfold candidates. by apply elem_of_dom.
  - rewrite candidates_type. unfold in_bucket in Hb.
    destruct (type_index m !! String a k) as [ids|].
    + apply elem_of_intersection. split; [by apply elem_of_dom|done].
    + by apply elem_of_dom.
Qed.

(** X21. After [LongTermMemory.store] of an object, its id maps to
    the object in the primary map and to a record equal to the object
    in the directory, [retrieve] of the id returns it, and a search
    without a query by any one of its tags, by its type, or without
    filters returns it when its importance is at least
    [min_importance] and [top_k] is at least the size of the index.
    The entries and records of the other ids are as before. *)
Theorem ltm_store_lookup h m l min_imp k now :
  index (LongTermMemory.store h m l) !! memory_id (h !!! l) = Some l
  ∧ storage (LongTermMemory.store h m l) !! memory_id (h !!! l)
    = Some (h !!! l)
  ∧ (LongTermMemory.retrieve h (LongTermMemory.store h m l)
       (memory_id (h !!! l)) now).2 = Some l
  ∧ (∀ x, x ≠ memory_id (h !!! l) →
          index (LongTermMemory.store h m l) !! x = index m !! x
          ∧ storage (LongTermMemory.store h m l) !! x = storage m !! x)
  ∧ ((min_imp ≤ importance (h !!! l))%Qc →
     (Z.of_nat (size (index (LongTermMemory.store h m l))) ≤ k)%Z →
     (∀ t, t ∈ tags (h !!! l) →
        ∃ r, LongTermMemory.search h (LongTermMemory.store h m l) None
               (Some [t]) None min_imp k = Ok r
             ∧ l ∈ r)
     ∧ (∃ r, LongTermMemory.search h (LongTermMemory.store h m l) None None
               (Some (memory_type (h !!! l))) min_imp k = Ok r
             ∧ l ∈ r)
     ∧ (∃ r, LongTermMemory.search h (LongTermMemory.store h m l) None None
               None min_imp k = Ok r
             ∧ l ∈ r)).
Proof.
  set (m' := LongTermMemory.store h m l).
  assert (Hix : index m' !! memory_id (h !!! l) = Some l).
  { unfold m'. rewrite ltm_store_index. apply lookup_insert_eq. }
  split; [done|]. split; [|split; [|split]].
  - unfold m'. rewrite ltm_store_storage. apply lookup_insert_eq.
  - unfold LongTermMemory.retrieve. by rewrite Hix.
  - intros x Hx. unfold m'. rewrite ltm_store_index, ltm_store_storage.
    by rewrite !lookup_insert_ne.
  - intros Himp Hk.
    assert (Hfound : ∀ tgs kind,
      memory_id (h !!! l) ∈ candidates m' tgs kind →
      ∃ r, LongTermMemory.search h m' None tgs kind min_imp k = Ok r ∧ l ∈ r).
    { intros tgs kind Hc.
      destruct (ltm_search_listing h m' tgs kind min_imp k)
        as (r & Hr & _ & Hall).
      exists r. split; [done|]. apply Hall; [done|].
      apply elem_of_ltm_survivors. by exists (memory_id (h !!! l)). }
    split; [|split].
    + intros t Ht. apply Hfound.
      apply (candidates_tagged m' t [] _ t); [by rewrite Hix|by left|].
      apply store_tag_index. by right.
    + apply Hfound. apply candidates_typed; [by rewrite Hix|].
      apply store_type_index. by right.
    + apply Hfound. unfold candidates. apply elem_of_dom. by rewrite Hix.
Qed.

Lemma ltm_store_lookup_witness :
  (dq 0.5 ≤ importance ([fact_item] !!! 0%nat))%Qc
  ∧ (Z.of_nat (size (index (LongTermMemory.store [fact_item] fresh_ltm 0)))
     ≤ 10)%Z
  ∧ ∃ r, LongTermMemory.search [fact_item]
           (LongTermMemory.store [fact_item] fresh_ltm 0) None
           (Some ["physics"]) None (dq 0.5) 10 = Ok r
         ∧ 0 ∈ r.
Proof.
  assert (Himp : (dq 0.5 ≤ importance ([fact_item] !!! 0%nat))%Qc) by by vm_compute.
  assert (Hk : (Z.of_nat (size (index (LongTermMemory.store [fact_item]
                                         fresh_ltm 0))) ≤ 10)%Z)
    by (vm_compute; discriminate).
  split; [exact Himp|]. split; [exact Hk|].
  destruct (ltm_store_lookup [fact_item] fresh_ltm 0 (dq 0.5) 10 0)
    as (_ & _ & _ & _ & Hsearch).
  destruct (Hsearch Himp Hk) as (Htag & _).
  apply (Htag "physics"). by left.
Defined.

(** ** Ids of working memory *)

Lemma store_call_unfold sha16 h m c :
  store_call sha16 h m c
  = (h ++ [new_item sha16 c],
     _cleanup_expired (h ++ [new_item sha16 c])
       (ShortTermMemory.mk (max_capacity m) (retention_minutes m)
          (deque_append (max_capacity m) (items m) (length h))
          (<[memory_id (new_item sha16 c) := length h]> (item_map m)))
       (t_sweep (c_clock c)),
     length h).
Proof. done. Qed.

Lemma deque_append_NoDup n d l :
  NoDup d → l ∉ d → NoDup (deque_append n d l).
Proof.
  intros Hd Hl. unfold deque_append.
  assert (Hnd : NoDup (d ++ [l])).
  { apply NoDup_app. split; [done|]. split; [|apply NoDup_singleton].
    intros x Hx ->%list_elem_of_singleton. done. }
  case_decide; [|done].
  eapply sublist_NoDup; [exact Hnd|apply sublist_drop].
Qed.

Lemma stm_wf_store sha16 h m c :
  stm_wf h m → stm_wf (store_call sha16 h m c).1.1 (store_call sha16 h m c).1.2.
Proof.
  intros (Hnd & Hit & Hmap). rewrite store_call_unfold. cbn [fst snd].
  split; [|split].
  - rewrite cleanup_items. cbn [items]. apply deque_append_NoDup; [done|].
    intros Hl%Hit. lia.
  - intros l. rewrite cleanup_items. cbn [items]. rewrite length_app. cbn.
    intros [Hl| ->]%elem_of_deque_append; [apply Hit in Hl|]; lia.
  - intros mid l [Hl _]%cleanup_item_map. cbn [item_map] in Hl.
    rewrite length_app. cbn.
    apply lookup_insert_Some in Hl as [[<- <-]|[_ Hl]].
    + split; [lia|]. by rewrite lookup_total_alloc_new.
    + destruct (Hmap mid l Hl) as [Hlt Hid]. split; [lia|].
      by rewrite lookup_total_alloc_old.
Qed.

Lemma stm_wf_store_all sha16 cs : ∀ h m,
  stm_wf h m →
  stm_wf (store_all sha16 h m cs).1.1 (store_all sha16 h m cs).1.2.
Proof.
  induction cs as [|c cs IH]; intros h m Hwf; cbn [store_all]; [done|].
  pose proof (stm_wf_store sha16 h m c Hwf) as Hwf1.
  destruct (store_call sha16 h m c) as [[h1 m1] l1].
  specialize (IH h1 m1 Hwf1).
  by destruct (store_all sha16 h1 m1 cs) as [[h2 m2] ls].
Qed.

(** X22. A working memory built by [store] calls from an empty one
    keeps distinct objects in its ring buffer, and every id of its side
    table resolves to an object carrying that id: [retrieve] of an id
    returns nothing or an item whose [memory_id] is the id asked for,
    before and after the update it makes. *)
Theorem stm_ids_resolve sha16 h cap ret cs mid now l :
  (ShortTermMemory.retrieve (store_all sha16 h (ShortTermMemory.init cap ret) cs).1.1
     (store_all sha16 h (ShortTermMemory.init cap ret) cs).1.2 mid now).2
  = Some l →
  NoDup (get_all (store_all sha16 h (ShortTermMemory.init cap ret) cs).1.2)
  ∧ memory_id ((store_all sha16 h (ShortTermMemory.init cap ret) cs).1.1 !!! l)
    = mid
  ∧ memory_id
      ((ShortTermMemory.retrieve
          (store_all sha16 h (ShortTermMemory.init cap ret) cs).1.1
          (store_all sha16 h (ShortTermMemory.init cap ret) cs).1.2 mid now).1
       !!! l) = mid.
Proof.
  assert (Hwf0 : stm_wf h (ShortTermMemory.init cap ret)).
  { split; [constructor|]. split; [by intros l' ?%elem_of_nil|].
    intros mid' l' Hl'. cbn [ShortTermMemory.init item_map] in Hl'.
    by rewrite lookup_empty in Hl'. }
  pose proof (stm_wf_store_all sha16 cs h _ Hwf0) as (Hnd & _ & Hmap).
  destruct (store_all sha16 h (ShortTermMemory.init cap ret) cs)
    as [[h1 m1] ls]. cbn [fst snd] in *.
  unfold ShortTermMemory.retrieve.
  destruct (item_map m1 !! mid) as [l'|] eqn:Hmid; [|done].
  cbn [fst snd]. intros [= ->].
  destruct (Hmap mid l Hmid) as [Hl Hid].
  split; [done|]. split; [done|].
  by rewrite modify_lookup_same.
Qed.

Lemma stm_ids_resolve_witness :
  (ShortTermMemory.retrieve
     (store_all demo_sha16 [] (ShortTermMemory.init 3 30) abcd).1.1
     (store_all demo_sha16 [] (ShortTermMemory.init 3 30) abcd).1.2
     "D@4" 5).2 = Some 3
  ∧ memory_id
      ((store_all demo_sha16 [] (ShortTermMemory.init 3 30) abcd).1.1 !!! 3)
    = "D@4".
Proof.
  assert (Hr : (ShortTermMemory.retrieve
     (store_all demo_sha16 [] (ShortTermMemory.init 3 30) abcd).1.1
     (store_all demo_sha16 [] (ShortTermMemory.init 3 30) abcd).1.2
     "D@4" 5).2 = Some 3) by (vm_compute; reflexivity).
  split; [exact Hr|].
  destruct (stm_ids_resolve demo_sha16 [] 3 30 abcd "D@4" 5 3 Hr)
    as (_ & Hid & _).
  exact Hid.
Defined.
